(** * FlexChat FLTK front end: markup transcoder, spell annotator, palette

    A shallow embedding of the text core of [src/fe-fltk/fe-fltk.cpp]:
    [append_text] (with its lambdas [hash_nick_color], [append_char] and
    [style_for_state]), [looks_like_url], the Enchant-backed spell checking
    functions and the palette load/save pair.

    Conventions.
    - A [char] is an [ascii]; [code c] is its value as [unsigned char].
    - A [const char *] is the list of bytes found at the pointer; the C
      string it denotes is [c_str], the bytes before the first NUL.
    - An [int] is a [Z] kept in range with [wrap_int] where the source does
      arithmetic that can leave the range; lengths and offsets of strings
      are taken to fit.
    - [std::string] and [std::vector] are lists, [std::set<std::string>] is a
      [gset]. *)

From Stdlib Require Import ZArith Lia Ascii String.
From stdpp Require Import base list strings gmap.

Local Open Scope Z_scope.

(** ** Characters and C strings *)

Definition code (c : ascii) : Z := Z.of_N (N_of_ascii c).

Definition chr (z : Z) : ascii := ascii_of_N (Z.to_N (z mod 256)).

Definition is_char (z : Z) (c : ascii) : bool := code c =? z.

Abbreviation cstring := (list ascii).

(** The bytes a [const char *] denotes: everything before the first NUL. *)
Fixpoint c_str (p : list ascii) : cstring :=
  match p with
  | [] => []
  | c :: p' => if is_char 0 c then [] else c :: c_str p'
  end.

(** A string without NUL bytes is its own C string. *)
Definition no_nul (l : list ascii) : Prop := Forall (fun c => is_char 0 c = false) l.

Definition lit (s : string) : cstring := list_ascii_of_string s.

(** A [while] loop that advances [p] while the byte under it is not NUL and
    satisfies [f], as the pair (bytes passed, bytes left). *)
Fixpoint span (f : ascii -> bool) (p : list ascii) : list ascii * list ascii :=
  match p with
  | [] => ([], [])
  | c :: p' =>
      if f c then let '(run, rest) := span f p' in (c :: run, rest)
      else ([], p)
  end.

(** Whether the byte under the pointer satisfies [f] (false at the end). *)
Definition first_is (f : ascii -> bool) (p : cstring) : bool :=
  match p with
  | c :: _ => f c
  | [] => false
  end.

(** GLib's ASCII classifiers ([g_ascii_isdigit], [g_ascii_isspace],
    [g_ascii_tolower]); the space class is tab, newline, form feed, carriage
    return and blank. *)
Definition g_ascii_isdigit (c : ascii) : bool := (48 <=? code c) && (code c <=? 57).

Definition g_ascii_isspace (c : ascii) : bool :=
  is_char 9 c || is_char 10 c || is_char 12 c || is_char 13 c || is_char 32 c.

Definition g_ascii_tolower (c : ascii) : ascii :=
  if (65 <=? code c) && (code c <=? 90) then chr (code c + 32) else c.

(** [g_ascii_strncasecmp (p, lit, n) == 0] for a literal [pat] of [n]
    bytes: the first [n] bytes of [p] exist and agree with [pat] up to
    ASCII case. *)
Fixpoint ascii_caseprefix (pat p : list ascii) : bool :=
  match pat, p with
  | [], _ => true
  | _ :: _, [] => false
  | a :: pat', c :: p' =>
      if Ascii.eqb (g_ascii_tolower a) (g_ascii_tolower c)
      then ascii_caseprefix pat' p' else false
  end.

(** ** 32-bit [int] *)

Definition INT_MAX : Z := 2147483647.

Definition wrap_int (z : Z) : Z := (z + 2147483648) mod 4294967296 - 2147483648.

(** ** NickColorHasher: the [hash_nick_color] lambda of [append_text] *)

Definition hash_nick_color (nick : list ascii) : Z :=
  let sum := fold_left (fun sum ch => wrap_int (sum + code ch)) nick 0 in
  Z.rem sum 16.

(** The mathematical sum of the bytes of a string. *)
Definition byte_sum (s : list ascii) : Z := fold_right (fun ch acc => code ch + acc) 0 s.

(** ** UrlSpanDetector: [looks_like_url] *)

Definition looks_like_url (p : cstring) : bool :=
  match p with
  | [] => false
  | _ =>
      ascii_caseprefix (lit "http://") p
      || ascii_caseprefix (lit "https://") p
      || ascii_caseprefix (lit "ftp://") p
      || ascii_caseprefix (lit "irc://") p
      || ascii_caseprefix (lit "www.") p
  end.

(** ** MarkupTranscoder: [append_text] *)

Module Transcoder.

(** Preferences and clock as [append_text] sees them: [hex_stamp_text] is the
    preference, [stamp] is the buffer [tbuf] when [localtime] and [strftime]
    both succeed and [None] otherwise. *)
Record Env := mkEnv {
  hex_stamp_text : bool;
  stamp : option (list ascii)
}.

(** Result of the nick detection block: [nick_start], [nick_len],
    [nick_color], all [-1]/[0]/[-1] when no nick was found. *)
Record NickInfo := mkNick {
  nick_start : Z;
  nick_len : Z;
  nick_color : Z
}.

Definition no_nick : NickInfo := mkNick (-1) 0 (-1).

Definition is_blank (c : ascii) : bool := is_char 32 c || is_char 9 c.

Definition detect_nick (msg : cstring) : NickInfo :=
  let '(lead, p) := span is_blank msg in
  let offset := Z.of_nat (length lead) in
  match p with
  | c :: p1 =>
      if is_char 60 c then
        let offset := offset + 1 in
        let '(nick, rest) := span (fun c => negb (is_char 62 c) && negb (is_char 32 c)) p1 in
        match rest with
        | c' :: _ =>
            if is_char 62 c'
            then mkNick offset (Z.of_nat (length nick)) (hash_nick_color nick)
            else no_nick
        | [] => no_nick
        end
      else if is_char 42 c then
        match p1 with
        | c1 :: p2 =>
            if is_char 32 c1 then
              let offset := offset + 2 in
              let '(nick, _) := span (fun c => negb (is_char 32 c)) p2 in
              if (0 <? Z.of_nat (length nick))
              then mkNick offset (Z.of_nat (length nick)) (hash_nick_color nick)
              else no_nick
            else no_nick
        | [] => no_nick
        end
      else no_nick
  | [] => no_nick
  end.

(** The parse state of the main scan: [in_ctcp], [fg], [bold], [underline]. *)
Record ParseState := mkState {
  in_ctcp : bool;
  fg : Z;
  bold : bool;
  underline : bool
}.

Definition init_state : ParseState := mkState false (-1) false false.

(** Style characters: slot [k] is the character ['A' + k]. *)
Definition slot_char (k : Z) : ascii := chr (65 + k).

Definition style_for_state (s : ParseState) (hyperlink : bool) : ascii :=
  if hyperlink then slot_char 57
  else if in_ctcp s && (fg s <? 0) && negb (bold s) && negb (underline s)
  then slot_char 2
  else
    let base := if (0 <=? fg s) && (fg s <? 16) then 3 + fg s else 0 in
    let region := 19 in
    let base :=
      if bold s then base + region
      else if underline s then base + region * 2
      else base in
    slot_char base.

(** The two strings under construction and the running [out_pos]. *)
Record Buf := mkBuf {
  out : list ascii;
  styles : list ascii;
  out_pos : Z
}.

Definition append_char (b : Buf) (c style : ascii) : Buf :=
  mkBuf (out b ++ [c]) (styles b ++ [style]) (out_pos b).

Definition bump (b : Buf) : Buf := mkBuf (out b) (styles b) (out_pos b + 1).

(** The digit-skipping loop of the colour branch: at most [k] digits are
    passed over, and their value is not kept. *)
Fixpoint skip_digits (k : nat) (p : cstring) : cstring :=
  match k, p with
  | S k', c :: p' => if g_ascii_isdigit c then skip_digits k' p' else p
  | _, _ => p
  end.

(** The colour branch after the introducer: the optional [fg[,bg]] digits are
    passed over; what is returned is the text left to scan. *)
Definition after_color (p' : cstring) : cstring :=
  let p1 := skip_digits 2 p' in
  match p1 with
  | c :: p1' => if is_char 44 c then skip_digits 2 p1' else p1
  | [] => p1
  end.

Definition url_char (c : ascii) : bool := negb (g_ascii_isspace c) && (32 <=? code c).

(** The [for (const char *p = msg; *p; )] loop; one unit of fuel per
    iteration. *)
Fixpoint scan_loop (fuel : nat) (nk : NickInfo) (p : cstring) (s : ParseState) (b : Buf)
  : option (ParseState * Buf) :=
  match fuel with
  | O => None
  | S fuel' =>
      match p with
      | [] => Some (s, b)
      | ch :: p' =>
          if is_char 1 ch then
            scan_loop fuel' nk p' (mkState (negb (in_ctcp s)) (fg s) (bold s) (underline s)) b
          else if is_char 3 ch then
            scan_loop fuel' nk (after_color p') s b
          else if is_char 2 ch then
            scan_loop fuel' nk p' (mkState (in_ctcp s) (fg s) (negb (bold s)) (underline s)) b
          else if is_char 31 ch then
            scan_loop fuel' nk p' (mkState (in_ctcp s) (fg s) (bold s) (negb (underline s))) b
          else if is_char 22 ch then scan_loop fuel' nk p' s b
          else if is_char 15 ch then
            scan_loop fuel' nk p' (mkState (in_ctcp s) (-1) false false) b
          else if is_char 7 ch then scan_loop fuel' nk p' s b
          else if looks_like_url p then
            let '(run, rest) := span url_char p in
            let b' := fold_left (fun b q => bump (append_char b q (style_for_state s true))) run b in
            scan_loop fuel' nk rest s b'
          else
            let apply_nick_color :=
              (0 <=? nick_start nk) && (0 <=? nick_color nk)
              && (nick_start nk <=? out_pos b)
              && (out_pos b <? nick_start nk + nick_len nk) in
            let saved_fg := fg s in
            let s1 :=
              if apply_nick_color
              then mkState (in_ctcp s) (nick_color nk) (bold s) (underline s)
              else s in
            let b' := bump (append_char b ch (style_for_state s1 false)) in
            scan_loop fuel' nk p' (mkState (in_ctcp s1) saved_fg (bold s1) (underline s1)) b'
      end
  end.

(** The main scan with the fuel one full pass needs: every iteration
    consumes at least one byte. *)
Definition scan (nk : NickInfo) (p : cstring) (s : ParseState) (b : Buf)
  : option (ParseState * Buf) :=
  scan_loop (S (length p)) nk p s b.

(** [strncmp (msg, lit, n) == 0] for a literal [pat] of [n] bytes. *)
Fixpoint has_prefix (pat p : list ascii) : bool :=
  match pat, p with
  | [], _ => true
  | _ :: _, [] => false
  | a :: pat', c :: p' => if Ascii.eqb a c then has_prefix pat' p' else false
  end.

Definition ctcp_action : cstring := chr 1 :: lit "ACTION ".

(** The ACTION branch: the body without its closing delimiter. *)
Definition action_body (msg : cstring) : cstring :=
  let body := drop 8 msg in
  match last body with
  | Some c => if is_char 1 c then removelast body else body
  | None => body
  end.

(** The strings [out] and [styles] as they stand just before
    [ui->buffer->append]. *)
Definition transcode (env : Env) (text : option (list ascii)) : list ascii * list ascii :=
  let msg := c_str (default [] text) in
  let b0 :=
    if hex_stamp_text env then
      match stamp env with
      | Some tbuf =>
          let t := c_str tbuf in
          mkBuf (t ++ lit " ") (replicate (length t + 1) (slot_char 0)) 0
      | None => mkBuf [] [] 0
      end
    else mkBuf [] [] 0 in
  let nk := detect_nick msg in
  let b0 := mkBuf (out b0) (styles b0) (Z.of_nat (length (out b0))) in
  let b1 :=
    if has_prefix ctcp_action msg then
      let b := mkBuf (out b0 ++ lit "* ") (styles b0 ++ replicate 2 (slot_char 1)) (out_pos b0) in
      let b := fold_left (fun b c => append_char b c (slot_char 1)) (action_body msg) b in
      mkBuf (out b) (styles b) (out_pos b + 2)
    else
      match scan nk msg init_state b0 with
      | Some (_, b) => b
      | None => b0
      end in
  if match last (out b1) with Some c => negb (is_char 10 c) | None => true end
  then (out b1 ++ [chr 10], styles b1 ++ [slot_char 0])
  else (out b1, styles b1).

(** One session tab: the text buffer and the style buffer of its display
    (either pointer may be null). *)
Record SessionUI := mkUI {
  buffer : option (list ascii);
  style_buffer : option (list ascii)
}.

(** What [ensure_session_ui] builds for a new session: two empty buffers. *)
Definition new_session_ui : SessionUI := mkUI (Some []) (Some []).

(** [append_text] on the tab [ui] ([None] when [ensure_session_ui] returns
    null). [Fl_Text_Buffer::append] takes a C string. *)
Definition append_text (env : Env) (ui : option SessionUI) (text : option (list ascii))
  : option SessionUI :=
  match ui with
  | None => None
  | Some u =>
      match buffer u with
      | None => Some u
      | Some buf =>
          let '(out, styles) := transcode env text in
          let buf' := buf ++ c_str out in
          let sty' :=
            match style_buffer u with
            | Some sty =>
                if (Z.of_nat (length sty) <=? Z.of_nat (length buf'))
                then Some (sty ++ c_str styles) else Some sty
            | None => None
            end in
          Some (mkUI (Some buf') sty')
      end
  end.

(** *** Specification vocabulary *)

(** Both strings grow together and stay free of NUL bytes. *)
Definition buf_ok (b : Buf) : Prop :=
  length (out b) = length (styles b) /\ no_nul (out b) /\ no_nul (styles b).

(** The slot number behind [style_for_state], read off the precedence rule:
    hyperlink, then CTCP, then the bold, underline or plain region. *)
Definition slot_for_state (s : ParseState) (hyperlink : bool) : Z :=
  if hyperlink then 57
  else if in_ctcp s && (fg s <? 0) && negb (bold s || underline s) then 2
  else
    let base := if (0 <=? fg s) && (fg s <? 16) then 3 + fg s else 0 in
    if bold s then 19 + base else if underline s then 38 + base else base.

(** The precedence rule in the words of the specification, over the parse
    state [{ bold, underline, foreground : Option<0..15>, in_ctcp }]. *)
Definition slot_spec (in_url in_ctcp : bool) (foreground : option Z) (bold underline : bool) : Z :=
  if in_url then 57
  else
    match in_ctcp, foreground, bold, underline with
    | true, None, false, false => 2
    | _, _, _, _ =>
        let base := match foreground with Some f => 3 + f | None => 0 end in
        if bold then 19 + base
        else if underline then 38 + base
        else base
    end.

Definition foreground (s : ParseState) : option Z :=
  if fg s <? 0 then None else Some (fg s).

(** The bytes the main loop consumes without output. *)
Definition is_control (ch : ascii) : bool :=
  is_char 1 ch || is_char 3 ch || is_char 2 ch || is_char 31 ch
  || is_char 22 ch || is_char 15 ch || is_char 7 ch.

(** The state a visible character is styled with: the parse state, with the
    foreground replaced by the nick colour inside the nick span. *)
Definition styled_state (nk : NickInfo) (b : Buf) (s : ParseState) : ParseState :=
  if (0 <=? nick_start nk) && (0 <=? nick_color nk)
     && (nick_start nk <=? out_pos b)
     && (out_pos b <? nick_start nk + nick_len nk)
  then mkState (in_ctcp s) (nick_color nk) (bold s) (underline s)
  else s.

(** [fe_text_clear]: the text buffer is emptied; the style buffer is not
    touched. *)
Definition fe_text_clear (ui : option SessionUI) : option SessionUI :=
  match ui with
  | None => None
  | Some u =>
      match buffer u with
      | None => Some u
      | Some _ => Some (mkUI (Some []) (style_buffer u))
      end
  end.

(** A sequence of [append_text] calls on one tab. *)
Definition append_all (calls : list (Env * option (list ascii))) (ui : option SessionUI)
  : option SessionUI :=
  fold_left (fun u call => append_text (fst call) u (snd call)) calls ui.

(** Unfolding of one loop iteration, with the branch conditions named. *)
Ltac loop_branches ch p :=
  destruct (is_char 1 ch) eqn:?;
  [| destruct (is_char 3 ch) eqn:?;
     [| destruct (is_char 2 ch) eqn:?;
        [| destruct (is_char 31 ch) eqn:?;
           [| destruct (is_char 22 ch) eqn:?;
              [| destruct (is_char 15 ch) eqn:?;
                 [| destruct (is_char 7 ch) eqn:?;
                    [| destruct (looks_like_url (ch :: p)) eqn:?]]]]]]].

End Transcoder.

(** ** DictionaryProviderAdapter, SpellAnnotator, SuggestionEngine *)

Module Spell.

(** The entry points of libenchant that [initialize_enchant] loads with
    [dlsym]. A dictionary is passed by value: [enchant_dict_add_to_session]
    returns the dictionary with the word added. [enchant_broker_init] and
    [enchant_broker_request_dict] return [None] for a null pointer, and so
    does [enchant_dict_suggest]. A session vocabulary lives in its
    dictionary object: what [enchant_broker_request_dict] returns depends on
    the broker and the tag alone, not on words given to dictionaries that
    were freed. *)
Class Enchant := {
  EnchantBroker : Type;
  EnchantDict : Type;
  enchant_broker_init : option EnchantBroker;
  enchant_broker_request_dict : EnchantBroker -> cstring -> option EnchantDict;
  enchant_dict_add_to_session : EnchantDict -> cstring -> EnchantDict;
  enchant_dict_check : EnchantDict -> cstring -> Z;
  enchant_dict_suggest : EnchantDict -> cstring -> option (list cstring)
}.

(** GLib's Unicode entry points: the decoder [g_utf8_get_char] and the
    alphabetic class [g_unichar_isalpha], which holds neither the apostrophe
    nor the hyphen. *)
Class GLibUnicode := {
  g_utf8_get_char : cstring -> Z;
  g_unichar_isalpha : Z -> bool;
  apostrophe_not_alpha : g_unichar_isalpha 39 = false;
  hyphen_not_alpha : g_unichar_isalpha 45 = false
}.

(** GLib's table [g_utf8_skip]: the length of a UTF-8 sequence by its first
    byte. *)
Definition g_utf8_skip (c : ascii) : nat :=
  let b := code c in
  if b <? 192 then 1%nat
  else if b <? 224 then 2%nat
  else if b <? 240 then 3%nat
  else if b <? 248 then 4%nat
  else if b <? 252 then 5%nat
  else if b <? 254 then 6%nat
  else 1%nat.

(** The macro [g_utf8_next_char (p)], that is [p + g_utf8_skip[*p]], for a
    pointer whose sequence lies inside the string. When the string ends
    inside the sequence the macro steps past the terminating NUL; the list
    model has nothing there and stops at the end of the string, so it
    follows the code only on texts that are [sequences_inside]. *)
Definition g_utf8_next_char (p : cstring) : cstring :=
  match p with
  | [] => []
  | c :: _ => drop (g_utf8_skip c) p
  end.

(** The sequence under the pointer lies inside the string. *)
Definition sequence_here (p : cstring) : Prop :=
  match p with
  | [] => True
  | c :: _ => (g_utf8_skip c <= length p)%nat
  end.

(** Every sequence met when stepping through [p] from its start lies
    inside [p]: no step of [g_utf8_next_char] passes the terminating NUL.
    Well-formed UTF-8 is of this kind. *)
Inductive sequences_inside : cstring -> Prop :=
  | inside_end : sequences_inside []
  | inside_step c p :
      (g_utf8_skip c <= length (c :: p))%nat ->
      sequences_inside (drop (g_utf8_skip c) (c :: p)) ->
      sequences_inside (c :: p).

(** [g_strsplit_set]: the tokens between delimiter bytes, empty tokens
    kept; the empty string has no token. *)
Fixpoint strsplit_from (delim : ascii -> bool) (s cur : cstring) : list cstring :=
  match s with
  | [] => [cur]
  | c :: s' =>
      if delim c then cur :: strsplit_from delim s' []
      else strsplit_from delim s' (cur ++ [c])
  end.

Definition g_strsplit_set (s : cstring) (delim : ascii -> bool) : list cstring :=
  match s with
  | [] => []
  | _ => strsplit_from delim s []
  end.

Definition lang_delim (c : ascii) : bool := is_char 44 c || is_char 32 c || is_char 9 c.

Section WithEnchant.
Context `{Enchant} `{GLibUnicode}.

(** The globals of the spell subsystem. *)
Record SpellState := mkSpell {
  have_enchant : bool;
  spell_broker : option EnchantBroker;
  spell_dicts : list EnchantDict;
  spell_session_ignores : gset (list ascii)
}.

(** Program start: nothing loaded. *)
Definition spell_start (have : bool) : SpellState := mkSpell have None [] ∅.

Definition seed_terms : list cstring := [lit "HexChat"; lit "FlexChat"; lit "IRC"].

(** The three [enchant_dict_add_to_session] calls of the language loop. *)
Definition seed_dict (dict : EnchantDict) : EnchantDict :=
  fold_left enchant_dict_add_to_session seed_terms dict.

(** The language loop: the dictionaries pushed, and the tags passed to
    [enchant_broker_request_dict], in order. *)
Fixpoint request_langs (broker : EnchantBroker) (lang_array : list cstring)
    (dicts : list EnchantDict) (requests : list cstring)
  : list EnchantDict * list cstring :=
  match lang_array with
  | [] => (dicts, requests)
  | lang :: rest =>
      match lang with
      | [] => request_langs broker rest dicts requests
      | _ =>
          match enchant_broker_request_dict broker lang with
          | Some dict =>
              request_langs broker rest (dicts ++ [seed_dict dict]) (requests ++ [lang])
          | None => request_langs broker rest dicts (requests ++ [lang])
          end
      end
  end.

(** [spell_init_broker], with [prefs.hex_text_spell_langs] as [langs]. The
    second component lists the tags requested from the broker by this call. *)
Definition spell_init_broker_log (langs : list ascii) (st : SpellState)
  : SpellState * list cstring :=
  if negb (have_enchant st) || bool_decide (is_Some (spell_broker st)) then (st, [])
  else
    match enchant_broker_init with
    | None => (st, [])
    | Some broker =>
        let lang_array := g_strsplit_set (c_str langs) lang_delim in
        let '(dicts, requests) := request_langs broker lang_array (spell_dicts st) [] in
        match dicts with
        | [] =>
            let dicts :=
              match enchant_broker_request_dict broker (lit "en") with
              | Some dict => [dict]
              | None => []
              end in
            (mkSpell (have_enchant st) (Some broker) dicts (spell_session_ignores st),
             requests ++ [lit "en"])
        | _ =>
            (mkSpell (have_enchant st) (Some broker) dicts (spell_session_ignores st),
             requests)
        end
    end.

Definition spell_init_broker (langs : list ascii) (st : SpellState) : SpellState :=
  fst (spell_init_broker_log langs st).

Definition spell_cleanup (st : SpellState) : SpellState :=
  match spell_broker st with
  | Some _ => mkSpell (have_enchant st) None [] ∅
  | None => mkSpell (have_enchant st) None (spell_dicts st) ∅
  end.

Definition is_nil {A} (l : list A) : bool :=
  match l with
  | [] => true
  | _ => false
  end.

Definition is_null {A} (p : option A) : bool :=
  match p with
  | None => true
  | Some _ => false
  end.

(** [spell_check_word (word, len)]; [word] is the text at the pointer, of
    which the first [len] bytes are the word. *)
Definition spell_check_word (st : SpellState) (word : option cstring) (len : nat) : bool :=
  if negb (have_enchant st) || is_nil (spell_dicts st) || is_null word || (len =? 0)%nat
  then true
  else
    let word := default [] word in
    if (4 <=? len)%nat
       && (ascii_caseprefix (lit "http") word
           || ascii_caseprefix (lit "ftp:") word
           || ascii_caseprefix (lit "irc:") word)
    then true
    else if negb (g_unichar_isalpha (g_utf8_get_char word)) then true
    else
      let w := take len word in
      if bool_decide (w ∈ spell_session_ignores st) then true
      else existsb (fun dict => enchant_dict_check dict w =? 0) (spell_dicts st).

(** The inner loop of [spell_get_suggestions] over one dictionary's
    candidates. *)
Fixpoint add_suggestions (suggestions result : list cstring) : list cstring :=
  match suggestions with
  | [] => result
  | s :: rest =>
      if (length result <? 10)%nat then
        let found := existsb (fun existing => bool_decide (existing = s)) result in
        add_suggestions rest (if found then result else result ++ [s])
      else result
  end.

Definition spell_get_suggestions (st : SpellState) (word : option cstring) (len : nat)
  : list cstring :=
  if negb (have_enchant st) || is_nil (spell_dicts st) || is_null word || (len =? 0)%nat
  then []
  else
    let w := take len (default [] word) in
    fold_left
      (fun result dict =>
         match enchant_dict_suggest dict w with
         | Some suggestions => add_suggestions suggestions result
         | None => result
         end)
      (spell_dicts st) [].

Definition spell_ignore_word (st : SpellState) (word : option cstring) : SpellState :=
  match word with
  | None => st
  | Some p =>
      match c_str p with
      | [] => st
      | w =>
          let dicts :=
            if have_enchant st && negb (is_nil (spell_dicts st))
            then map (fun dict => enchant_dict_add_to_session dict w) (spell_dicts st)
            else spell_dicts st in
          mkSpell (have_enchant st) (spell_broker st) dicts
                  ({[ w ]} ∪ spell_session_ignores st)
      end
  end.

Record WordSpan := mkSpan {
  start : Z;
  end_ : Z;
  misspelled : bool
}.

(** A [while] loop that steps through code points with [g_utf8_next_char]
    while [cond] holds of the text under the pointer. *)
Fixpoint utf8_while (fuel : nat) (cond : cstring -> bool) (p : cstring) : option cstring :=
  match fuel with
  | O => None
  | S fuel' =>
      match p with
      | [] => Some p
      | _ => if cond p then utf8_while fuel' cond (g_utf8_next_char p) else Some p
      end
  end.

Definition not_alpha (p : cstring) : bool := negb (g_unichar_isalpha (g_utf8_get_char p)).

Definition word_char (p : cstring) : bool :=
  g_unichar_isalpha (g_utf8_get_char p)
  || (g_utf8_get_char p =? 39) || (g_utf8_get_char p =? 45).

(** The outer loop of [spell_find_words]; [p] is a suffix of [text] and a
    pointer difference [q - text] is [length text - length q]. *)
Fixpoint find_words_loop (fuel : nat) (st : SpellState) (text p : cstring)
    (words : list WordSpan) : option (list WordSpan) :=
  match fuel with
  | O => None
  | S fuel' =>
      match p with
      | [] => Some words
      | _ =>
          match utf8_while (S (length p)) not_alpha p with
          | None => None
          | Some [] => Some words
          | Some word_start =>
              match utf8_while (S (length word_start)) word_char word_start with
              | None => None
              | Some word_end =>
                  let len := (length word_start - length word_end)%nat in
                  let words :=
                    if (0 <? len)%nat then
                      words ++
                        [mkSpan (Z.of_nat (length text - length word_start))
                                (Z.of_nat (length text - length word_end))
                                (negb (spell_check_word st (Some word_start) len))]
                    else words in
                  find_words_loop fuel' st text word_end words
              end
          end
      end
  end.

Definition spell_find_words (st : SpellState) (text : option (list ascii)) : list WordSpan :=
  match text with
  | None => []
  | Some t =>
      let text := c_str t in
      default [] (find_words_loop (S (length text)) st text text [])
  end.

(** The language change of [prefs_save_cb]: teardown, then a new start. *)
Definition spell_reinit (langs : list ascii) (st : SpellState) : SpellState :=
  spell_init_broker langs (spell_cleanup st).

End WithEnchant.

End Spell.

(** *** Specification vocabulary of the spell subsystem *)

Module SpellSpec.
Import Spell.

(** The candidates of [l] in order, without those in [seen] and without
    repetitions. *)
Fixpoint uniq_from (seen l : list cstring) : list cstring :=
  match l with
  | [] => []
  | x :: l' =>
      if bool_decide (x ∈ seen) then uniq_from seen l'
      else x :: uniq_from (seen ++ [x]) l'
  end.

(** SuggestionEngine in the words of the specification: the answers of the
    dictionaries one after the other, each candidate kept the first time it
    is seen, cut after ten. *)
Definition suggest_spec (answers : list (list cstring)) : list cstring :=
  take 10 (uniq_from [] (concat answers)).

Section WithEnchant.
Context `{Enchant} `{GLibUnicode}.

(** What holds of the globals between calls: dictionaries exist only under
    a broker. *)
Definition spell_inv (st : SpellState) : Prop :=
  spell_broker st = None -> spell_dicts st = [].

(** The contract of the session vocabulary: a word added to the session
    checks as correct, and adding a word never turns another one wrong. *)
Definition session_contract : Prop :=
  (forall d w, enchant_dict_check (enchant_dict_add_to_session d w) w = 0)
  /\ (forall d w w', enchant_dict_check d w' = 0 ->
                     enchant_dict_check (enchant_dict_add_to_session d w) w' = 0).

Definition span_of (ws : WordSpan) : Z * Z := (start ws, end_ ws).

(** [q] is reached from [p] by stepping over code points that all satisfy
    [cond], each of them a sequence that lies inside the text. *)
Inductive cp_run (cond : cstring -> bool) : cstring -> cstring -> Prop :=
  | cp_run_here p : cp_run cond p p
  | cp_run_step p q :
      p <> [] -> cond p = true -> sequence_here p ->
      cp_run cond (g_utf8_next_char p) q -> cp_run cond p q.

(** A word span of [text]: inside the text, not empty, starting at an
    alphabetic code point that is neither apostrophe nor hyphen, made of word
    characters only, and ending where the word characters end. *)
Definition word_span (text : cstring) (ws : WordSpan) : Prop :=
  let s := Z.to_nat (start ws) in
  let e := Z.to_nat (end_ ws) in
  0 <= start ws < end_ ws /\ end_ ws <= Z.of_nat (length text)
  /\ g_unichar_isalpha (g_utf8_get_char (drop s text)) = true
  /\ g_utf8_get_char (drop s text) <> 39
  /\ g_utf8_get_char (drop s text) <> 45
  /\ cp_run word_char (drop s text) (drop e text)
  /\ (drop e text = [] \/ word_char (drop e text) = false).

(** The pointer difference [p - text] for a suffix [p] of [text]. *)
Definition offset (text p : cstring) : Z := Z.of_nat (length text - length p).

(** Spans in order, each after [lo] and not before the end of the one
    before. *)
Fixpoint spans_ordered (lo : Z) (words : list WordSpan) : Prop :=
  match words with
  | [] => True
  | ws :: rest => lo <= start ws /\ start ws < end_ ws /\ spans_ordered (end_ ws) rest
  end.

(** Spans in strictly increasing order, each after [lo] and apart from the
    next. *)
Fixpoint spans_increasing (lo : Z) (words : list WordSpan) : Prop :=
  match words with
  | [] => True
  | ws :: rest => lo <= start ws /\ start ws < end_ ws /\ spans_increasing (end_ ws + 1) rest
  end.

End WithEnchant.

End SpellSpec.

(** ** PaletteStore: [palette_load] and [palette_save] *)

Module Palette.

Definition MAX_COL : Z := 41.

(** [struct PaletteColor]: three [unsigned char]. *)
Record PaletteColor := mkColor {
  r : ascii;
  g : ascii;
  b : ascii
}.

Definition rgb (x y z : Z) : PaletteColor := mkColor (chr x) (chr y) (chr z).

(** The initialiser of [palette_colors]. *)
Definition initial_palette : list PaletteColor :=
  [ rgb 211 215 207; rgb 46 52 54; rgb 52 101 164; rgb 78 154 6;
    rgb 204 0 0; rgb 143 57 2; rgb 92 53 102; rgb 206 92 0;
    rgb 196 160 0; rgb 115 210 22; rgb 17 168 121; rgb 88 161 157;
    rgb 87 121 158; rgb 160 66 101; rgb 85 87 83; rgb 136 138 133;
    rgb 211 215 207; rgb 46 52 54; rgb 52 101 164; rgb 78 154 6;
    rgb 204 0 0; rgb 143 57 2; rgb 92 53 102; rgb 206 92 0;
    rgb 196 160 0; rgb 115 210 22; rgb 17 168 121; rgb 88 161 157;
    rgb 87 121 158; rgb 160 66 101; rgb 85 87 83; rgb 136 138 133;
    rgb 211 215 207; rgb 32 74 135; rgb 37 41 43; rgb 250 250 248;
    rgb 143 57 2; rgb 52 101 164; rgb 78 154 6; rgb 206 92 0;
    rgb 136 138 133; rgb 164 0 0 ].

(** The globals: the palette, its backup and the flag of the backup. *)
Record PaletteState := mkPalette {
  palette_colors : list PaletteColor;
  default_palette_colors : list PaletteColor;
  palette_defaults_saved : bool
}.

Definition palette_save_defaults (st : PaletteState) : PaletteState :=
  if palette_defaults_saved st then st
  else mkPalette (palette_colors st) (palette_colors st) true.

(** *** [fprintf] with [%d] *)

Definition digit_char (d : Z) : ascii := chr (48 + d).

(** The decimal digits of [n], least significant first onto [acc]; one unit
    of fuel per digit. *)
Fixpoint print_digits (fuel : nat) (n : Z) (acc : cstring) : cstring :=
  match fuel with
  | O => acc
  | S fuel' =>
      let acc' := digit_char (n mod 10) :: acc in
      if n <? 10 then acc' else print_digits fuel' (n / 10) acc'
  end.

Definition print_nat (n : Z) : cstring := print_digits (S (Z.to_nat (Z.log2 n))) n [].

(** [%d] of an [int]. *)
Definition print_int (z : Z) : cstring :=
  if z <? 0 then lit "-" ++ print_nat (- z) else print_nat z.

(** One [fprintf (fp, "color_%d = %d %d %d\n", key, c.r, c.g, c.b)]. *)
Definition format_color (key : Z) (c : PaletteColor) : cstring :=
  lit "color_" ++ print_int key ++ lit " = "
  ++ print_int (code (r c)) ++ lit " "
  ++ print_int (code (g c)) ++ lit " "
  ++ print_int (code (b c)) ++ [chr 10].

Definition color_at (colors : list PaletteColor) (i : nat) : PaletteColor :=
  nth i colors (rgb 0 0 0).

(** What [palette_save] writes once [fopen] has succeeded: the loop over
    [0 .. 31], then the loop over [32 .. MAX_COL] with keys from 256 on. *)
Definition palette_save_text (colors : list PaletteColor) : cstring :=
  concat (map (fun i => format_color (Z.of_nat i) (color_at colors i)) (seq 0 32))
  ++ concat (map (fun i => format_color (256 + (Z.of_nat i - 32)) (color_at colors i))
                 (seq 32 (Z.to_nat (MAX_COL + 1 - 32)))).

(** *** [sscanf] with the format ["color_%d = %d %d %d"] *)

Definition c_isspace (c : ascii) : bool := ((9 <=? code c) && (code c <=? 13)) || is_char 32 c.

Definition skip_space (s : cstring) : cstring := (span c_isspace s).2.

Fixpoint scan_digits (acc : Z) (s : cstring) : Z * cstring :=
  match s with
  | c :: s' => if g_ascii_isdigit c then scan_digits (acc * 10 + (code c - 48)) s' else (acc, s)
  | [] => (acc, s)
  end.

(** The range of [long] (64 bits). *)
Definition LONG_MAX : Z := 9223372036854775807.

Definition LONG_MIN : Z := - LONG_MAX - 1.

(** What [strtol] returns for a sign and a run of digits of decimal value
    [v]: the value with its sign, or the bound of [long] on its side when
    the value does not fit. *)
Definition strtol_value (neg : bool) (v : Z) : Z :=
  if neg then Z.max LONG_MIN (- v) else Z.min LONG_MAX v.

(** The conversion [%d]: white space, an optional sign, at least one digit.
    The C library converts the digits as [strtol] does and stores the [long]
    into the [int], which keeps its low 32 bits. *)
Definition scan_int (s : cstring) : option (Z * cstring) :=
  let s := skip_space s in
  let '(neg, s1) :=
    match s with
    | c :: s' =>
        if is_char 45 c then (true, s')
        else if is_char 43 c then (false, s')
        else (false, s)
    | [] => (false, s)
    end in
  match s1 with
  | c :: _ =>
      if g_ascii_isdigit c then
        let '(v, rest) := scan_digits 0 s1 in
        Some (wrap_int (strtol_value neg v), rest)
      else None
  | [] => None
  end.

(** Ordinary characters of the format: each must be the next input byte. *)
Fixpoint scan_lit (pat s : cstring) : option cstring :=
  match pat, s with
  | [], _ => Some s
  | _ :: _, [] => None
  | a :: pat', c :: s' => if Ascii.eqb a c then scan_lit pat' s' else None
  end.

(** [sscanf (line, "color_%d = %d %d %d", ...) == 4]: the four values, or
    [None] when fewer than four conversions succeed. *)
Definition sscanf_color (line : cstring) : option (Z * Z * Z * Z) :=
  s1 ← scan_lit (lit "color_") line;
  '(idx, s2) ← scan_int s1;
  s3 ← scan_lit (lit "=") (skip_space s2);
  '(r, s4) ← scan_int (skip_space s3);
  '(g, s5) ← scan_int (skip_space s4);
  '(b, _) ← scan_int (skip_space s5);
  Some (idx, r, g, b).

(** The body of the [while (fgets ...)] loop. *)
Definition load_line (line : list ascii) (colors : list PaletteColor) : list PaletteColor :=
  match sscanf_color (c_str line) with
  | Some (idx, r, g, b) =>
      let idx := if 256 <=? idx then 32 + (idx - 256) else idx in
      if (0 <=? idx) && (idx <=? MAX_COL)
      then <[Z.to_nat idx := mkColor (chr r) (chr g) (chr b)]> colors
      else colors
  | None => colors
  end.

(** [fgets (line, size, fp)]: at most [size - 1] bytes, up to and with the
    first newline; [None] at the end of the file. *)
Fixpoint fgets_take (n : nat) (file : list ascii) : list ascii * list ascii :=
  match n, file with
  | S n', c :: file' =>
      if is_char 10 c then ([c], file')
      else let '(line, rest) := fgets_take n' file' in (c :: line, rest)
  | _, _ => ([], file)
  end.

Definition fgets (size : nat) (file : list ascii) : option (list ascii * list ascii) :=
  match file with
  | [] => None
  | _ => Some (fgets_take (size - 1) file)
  end.

Fixpoint load_loop (fuel : nat) (file : list ascii) (colors : list PaletteColor)
  : option (list PaletteColor) :=
  match fuel with
  | O => None
  | S fuel' =>
      match fgets 256 file with
      | None => Some colors
      | Some (line, rest) => load_loop fuel' rest (load_line line colors)
      end
  end.

Definition palette_load_text (file : list ascii) (colors : list PaletteColor)
  : list PaletteColor :=
  default colors (load_loop (S (length file)) file colors).

(** The file [colors.conf]: [None] when [fopen] fails on it. *)
Definition palette_load (st : PaletteState) (conf : option (list ascii)) : PaletteState :=
  let st := palette_save_defaults st in
  match conf with
  | None => st
  | Some file =>
      mkPalette (palette_load_text file (palette_colors st))
                (default_palette_colors st) (palette_defaults_saved st)
  end.

(** [palette_save]: the new content of [colors.conf]; [writable] is false
    when [fopen] for writing fails, and the file is then left as it was. *)
Definition palette_save (writable : bool) (st : PaletteState) (conf : option (list ascii))
  : option (list ascii) :=
  if writable then Some (palette_save_text (palette_colors st)) else conf.

(** *** Specification vocabulary *)

(** The key a palette index is written under, and the index a key is read
    back to. *)
Definition key_of_index (i : Z) : Z := if i <? 32 then i else 256 + (i - 32).

Definition index_of_key (n : Z) : Z := if 256 <=? n then 32 + (n - 256) else n.

(** A line of the file that [fgets] returns whole: at most 255 bytes, a
    newline at its end and nowhere else. *)
Definition whole_line (line : list ascii) : Prop :=
  exists body, line = body ++ [chr 10]
               /\ Forall (fun c => is_char 10 c = false) body
               /\ (length line <= 255)%nat.

Definition is_digit (c : ascii) : Prop := 48 <= code c <= 57.

Definition digits_value (ds : cstring) : Z :=
  fold_left (fun acc c => acc * 10 + (code c - 48)) ds 0.

(** A run of white space. *)
Definition blank (w : cstring) : Prop := Forall (fun c => c_isspace c = true) w.

(** The text of an integer as [%d] takes it and the [int] it gives: an
    optional sign and at least one digit; the value is the decimal value
    with its sign, held to the range of [long] and cut to 32 bits. *)
Definition int_text (t : cstring) (v : Z) : Prop :=
  exists sign ds,
    t = sign ++ ds /\ ds <> [] /\ Forall is_digit ds
    /\ ((sign = [] \/ sign = lit "+") /\ v = wrap_int (Z.min LONG_MAX (digits_value ds))
        \/ sign = lit "-" /\ v = wrap_int (Z.max LONG_MIN (- digits_value ds))).

(** A line that begins with an entry: [color_], the key, [=] and three
    numbers. White space may stand before each number and before [=], and
    must stand between two numbers unless the second has a sign; each number
    takes all the digits there are; anything may follow the last number. *)
Definition entry_text (line : cstring) (key rv gv bv : Z) : Prop :=
  exists w1 t1 w2 w3 t2 w4 t3 w5 t4 rest,
    line = lit "color_" ++ w1 ++ t1 ++ w2 ++ lit "=" ++ w3 ++ t2
           ++ w4 ++ t3 ++ w5 ++ t4 ++ rest
    /\ blank w1 /\ blank w2 /\ blank w3 /\ blank w4 /\ blank w5
    /\ int_text t1 key /\ int_text t2 rv /\ int_text t3 gv /\ int_text t4 bv
    /\ first_is g_ascii_isdigit (w4 ++ t3) = false
    /\ first_is g_ascii_isdigit (w5 ++ t4) = false
    /\ first_is g_ascii_isdigit rest = false.

(** The pieces [fgets] cuts a file into with a buffer of 256 bytes: a piece
    ends behind a newline, or after 255 bytes without one, or at the end of
    the file. *)
Inductive fgets_pieces : list ascii -> list (list ascii) -> Prop :=
  | pieces_none : fgets_pieces [] []
  | pieces_line body rest lines :
      Forall (fun c => is_char 10 c = false) body -> (length body < 255)%nat ->
      fgets_pieces rest lines ->
      fgets_pieces (body ++ chr 10 :: rest) ((body ++ [chr 10]) :: lines)
  | pieces_full chunk rest lines :
      Forall (fun c => is_char 10 c = false) chunk -> length chunk = 255%nat ->
      fgets_pieces rest lines ->
      fgets_pieces (chunk ++ rest) (chunk :: lines)
  | pieces_last chunk :
      Forall (fun c => is_char 10 c = false) chunk ->
      chunk <> [] -> (length chunk < 255)%nat ->
      fgets_pieces chunk [chunk].

(** A line in the form of the file, [color_<n> = <r> <g> <b>]: four
    numbers in plain digits, one blank on each side of [=] and between the
    numbers, nothing behind the last number but the newline. *)
Definition number_text (t : cstring) : Prop := t <> [] /\ Forall is_digit t.

Definition entry_form (line : list ascii) : Prop :=
  exists n rt gt bt eol,
    number_text n /\ number_text rt /\ number_text gt /\ number_text bt
    /\ (eol = [] \/ eol = [chr 10])
    /\ line = lit "color_" ++ n ++ lit " = " ++ rt ++ lit " " ++ gt ++ lit " " ++ bt ++ eol.

(** The lines of the file [palette_save] writes, one per palette index. *)
Definition saved_lines (colors : list PaletteColor) : list (list ascii) :=
  map (fun i => format_color (key_of_index (Z.of_nat i)) (color_at colors i))
      (seq 0 (Z.to_nat (MAX_COL + 1))).

End Palette.

(** ** A small provider to run the spell functions on

    One instance of each interface, used to evaluate the functions on
    concrete texts: a broker that knows the languages "en" and "de", whose
    dictionaries hold two words and remember the session words they were
    given, and the ASCII fragment of the Unicode functions. *)

Module Sample.
Import Spell.

Record Dict := mkDict {
  lang : cstring;
  session : list cstring
}.

Definition vocabulary : list cstring := [lit "hello"; lit "world"].

Definition candidates : list cstring :=
  [lit "hello"; lit "help"; lit "hello"; lit "held"].

#[export] Instance enchant : Enchant := {|
  EnchantBroker := unit;
  EnchantDict := Dict;
  enchant_broker_init := Some tt;
  enchant_broker_request_dict := fun _ tag =>
    if bool_decide (tag = lit "en") || bool_decide (tag = lit "de")
    then Some (mkDict tag []) else None;
  enchant_dict_add_to_session := fun d w => mkDict (lang d) (w :: session d);
  enchant_dict_check := fun d w =>
    if bool_decide (w ∈ session d ++ vocabulary) then 0 else 1;
  enchant_dict_suggest := fun d w => Some candidates
|}.

Definition ascii_isalpha (z : Z) : bool :=
  ((65 <=? z) && (z <=? 90)) || ((97 <=? z) && (z <=? 122)).

#[export] Instance unicode : GLibUnicode := {|
  g_utf8_get_char := fun p => match p with c :: _ => code c | [] => 0 end;
  g_unichar_isalpha := ascii_isalpha;
  apostrophe_not_alpha := eq_refl;
  hyphen_not_alpha := eq_refl
|}.

(** The state after a first [spell_init_broker] with the language list
    [langs]. *)
Definition loaded (langs : string) : SpellState :=
  spell_init_broker (lit langs) (spell_start true).

End Sample.

(** ** StyleTable: [build_style_table] *)

Module StyleTable.
Import Transcoder.

(** The FLTK colours and fonts the table uses, by name. *)
Inductive Fl_Color :=
  | FL_FOREGROUND_COLOR | FL_WHITE | FL_BLACK | FL_BLUE | FL_DARK_GREEN | FL_RED
  | FL_DARK_RED | FL_MAGENTA | FL_DARK_YELLOW | FL_YELLOW | FL_GREEN | FL_CYAN
  | FL_DARK_CYAN | FL_DARK_BLUE | FL_DARK_MAGENTA | FL_DARK3 | FL_LIGHT2.

Inductive Fl_Font := FL_COURIER | FL_COURIER_BOLD | FL_COURIER_ITALIC.

(** [Fl_Text_Display::Style_Table_Entry]. *)
Record Style_Table_Entry := mkEntry {
  color : Fl_Color;
  font : Fl_Font;
  size : Z;
  attr : Z
}.

Definition mirc_colors : list Fl_Color :=
  [ FL_WHITE; FL_BLACK; FL_BLUE; FL_DARK_GREEN; FL_RED; FL_DARK_RED; FL_MAGENTA;
    FL_DARK_YELLOW; FL_YELLOW; FL_GREEN; FL_CYAN; FL_DARK_CYAN; FL_DARK_BLUE;
    FL_DARK_MAGENTA; FL_DARK3; FL_LIGHT2 ].

Definition mirc_color (i : nat) : Fl_Color := nth i mirc_colors FL_FOREGROUND_COLOR.

(** One [for (int i = 0; i < 16; i++) table[off + i] = {mirc_colors[i], f, fsize, 0}]. *)
Definition fill_colors (off : nat) (f : Fl_Font) (fsize : Z)
    (table : list Style_Table_Entry) : list Style_Table_Entry :=
  fold_left (fun t i => <[(off + i)%nat := mkEntry (mirc_color i) f fsize 0]> t) (seq 0 16) table.

(** [build_style_table (table, fsize)]: the assignments in source order on
    the caller's array. *)
Definition build_style_table (table : list Style_Table_Entry) (fsize : Z)
  : list Style_Table_Entry :=
  let t := <[0%nat := mkEntry FL_FOREGROUND_COLOR FL_COURIER fsize 0]> table in
  let t := <[1%nat := mkEntry FL_DARK_GREEN FL_COURIER_ITALIC fsize 0]> t in
  let t := <[2%nat := mkEntry FL_BLUE FL_COURIER_BOLD fsize 0]> t in
  let t := fill_colors 3 FL_COURIER fsize t in
  let t := <[(19 + 0)%nat := mkEntry FL_FOREGROUND_COLOR FL_COURIER_BOLD fsize 0]> t in
  let t := fill_colors (19 + 3) FL_COURIER_BOLD fsize t in
  let t := <[(38 + 0)%nat := mkEntry FL_FOREGROUND_COLOR FL_COURIER fsize 0]> t in
  let t := fill_colors (38 + 3) FL_COURIER fsize t in
  <[57%nat := mkEntry FL_BLUE FL_COURIER fsize 0]> t.

(** The table index a style character selects: [highlight_data] is given the
    base character ['A']. *)
Definition style_index (c : ascii) : Z := code c - 65.

(** *** Specification vocabulary *)

(** The slots a message can be tagged with: base, action, CTCP, the sixteen
    colours, and the bold and underline images of base and colours, and the
    hyperlink. The slots 20, 21, 39 and 40 are not among them. *)
Definition emitted_slot (k : Z) : bool :=
  ((0 <=? k) && (k <=? 19)) || ((22 <=? k) && (k <=? 38)) || ((41 <=? k) && (k <=? 57)).

(** The plain slot behind a slot of the bold or underline region. *)
Definition plain_slot (k : Z) : Z :=
  if (19 <=? k) && (k <=? 37) then k - 19
  else if (38 <=? k) && (k <=? 56) then k - 38
  else k.

(** The entry of a slot as the layout comment of [build_style_table] gives
    it. *)
Definition style_entry (k fsize : Z) : Style_Table_Entry :=
  if k =? 0 then mkEntry FL_FOREGROUND_COLOR FL_COURIER fsize 0
  else if k =? 1 then mkEntry FL_DARK_GREEN FL_COURIER_ITALIC fsize 0
  else if k =? 2 then mkEntry FL_BLUE FL_COURIER_BOLD fsize 0
  else if k <=? 18 then mkEntry (mirc_color (Z.to_nat (k - 3))) FL_COURIER fsize 0
  else if k =? 19 then mkEntry FL_FOREGROUND_COLOR FL_COURIER_BOLD fsize 0
  else if k <=? 37 then mkEntry (mirc_color (Z.to_nat (k - 22))) FL_COURIER_BOLD fsize 0
  else if k =? 38 then mkEntry FL_FOREGROUND_COLOR FL_COURIER fsize 0
  else if k <=? 56 then mkEntry (mirc_color (Z.to_nat (k - 41))) FL_COURIER fsize 0
  else mkEntry FL_BLUE FL_COURIER fsize 0.

(** The timestamp run of a call: [tbuf] and one blank, or nothing. *)
Definition stamp_text (env : Env) : list ascii :=
  if hex_stamp_text env then
    match stamp env with
    | Some tbuf => c_str tbuf ++ lit " "
    | None => []
    end
  else [].

Definition no_stamp : Env := mkEnv false None.

(** No position of [p] starts a URL. *)
Definition no_url_start (p : cstring) : Prop :=
  forall pre q, p = pre ++ q -> looks_like_url q = false.

(** The buffer [append_text] starts the scan with: the timestamp run in the
    base slot. *)
Definition start_buf (env : Env) : Buf :=
  mkBuf (stamp_text env) (replicate (length (stamp_text env)) (slot_char 0))
        (Z.of_nat (length (stamp_text env))).

(** The last step of [append_text]: the newline that is added unless the
    text already ends in one. *)
Definition finish_line (b : Buf) : list ascii * list ascii :=
  if match last (out b) with Some c => negb (is_char 10 c) | None => true end
  then (out b ++ [chr 10], styles b ++ [slot_char 0])
  else (out b, styles b).

(** The scheme prefixes [looks_like_url] knows. *)
Definition url_prefixes : list string := ["http://"; "https://"; "ftp://"; "irc://"; "www."]%string.

End StyleTable.

(** *** More specification vocabulary of the spell subsystem *)

Module SpellMore.
Import Spell SpellSpec.

Section WithEnchant.
Context `{Enchant} `{GLibUnicode}.

(** The tokenizer as a relation: from [p] on, the text is a run of code
    points that are not alphabetic, then either the end of the text or a
    word (an alphabetic code point, then word characters as far as they
    go), flagged by [spell_check_word], and so on after the word. *)
Inductive tokenized (st : SpellState) (text : cstring) : cstring -> list WordSpan -> Prop :=
  | tokenized_end p :
      cp_run not_alpha p [] -> tokenized st text p []
  | tokenized_word p word_start word_end words :
      cp_run not_alpha p word_start ->
      word_start <> [] ->
      g_unichar_isalpha (g_utf8_get_char word_start) = true ->
      cp_run word_char word_start word_end ->
      (word_end = [] \/ word_char word_end = false) ->
      tokenized st text word_end words ->
      tokenized st text p
        (mkSpan (offset text word_start) (offset text word_end)
                (negb (spell_check_word st (Some word_start)
                         (length word_start - length word_end)))
         :: words).

(** The answers of the loaded dictionaries for a word, one list per
    dictionary that answers. *)
Definition answers (st : SpellState) (w : cstring) : list (list cstring) :=
  map (fun dict => default [] (enchant_dict_suggest dict w)) (spell_dicts st).

(** The languages of a list that are not empty tokens. *)
Definition listed_langs (langs : list ascii) : list cstring :=
  filter (fun lang => lang <> []) (g_strsplit_set (c_str langs) lang_delim).

End WithEnchant.

End SpellMore.

(** ** PaletteStore: [palette_set_color], [palette_get_fl_color], [palette_reset] *)

Module PaletteMore.
Import Palette.

(** An FLTK colour value as the palette produces it: the foreground colour
    of the scheme, or the result of [fl_rgb_color]. *)
Inductive Fl_Color :=
  | FL_FOREGROUND_COLOR
  | fl_rgb_color (r g b : ascii).

Definition palette_get_fl_color (index : Z) (st : PaletteState) : Fl_Color :=
  if (index <? 0) || (MAX_COL <? index) then FL_FOREGROUND_COLOR
  else
    let c := color_at (palette_colors st) (Z.to_nat index) in
    fl_rgb_color (r c) (g c) (b c).

Definition palette_set_color (index : Z) (r g b : ascii) (st : PaletteState) : PaletteState :=
  if (index <? 0) || (MAX_COL <? index) then st
  else
    mkPalette (<[Z.to_nat index := mkColor r g b]> (palette_colors st))
              (default_palette_colors st) (palette_defaults_saved st).

(** [palette_reset]: the backup is copied over the palette, if there is
    one. *)
Definition palette_reset (st : PaletteState) : PaletteState :=
  if palette_defaults_saved st
  then mkPalette (default_palette_colors st) (default_palette_colors st) true
  else st.

(** The palette at program start. *)
Definition palette_start : PaletteState := mkPalette initial_palette [] false.

(** *** Specification vocabulary *)

(** The operations that change the palette after program start. *)
Inductive PaletteOp :=
  | OpLoad (conf : option (list ascii))
  | OpSet (index : Z) (r g b : ascii)
  | OpReset.

Definition run_op (st : PaletteState) (o : PaletteOp) : PaletteState :=
  match o with
  | OpLoad conf => palette_load st conf
  | OpSet index r g b => palette_set_color index r g b st
  | OpReset => palette_reset st
  end.

Definition run_ops (ops : list PaletteOp) (st : PaletteState) : PaletteState :=
  fold_left run_op ops st.

End PaletteMore.

(** ** InputLine: [SpellInput::replace_word_at_mark], [parse_font_spec],
       [sess_can_manage], [sess_has_voice] *)

Module InputLine.
Import Palette.

(** [strstr (hay, needle)]: the offset of the leftmost occurrence, [None]
    for the null pointer. *)
Fixpoint strstr (hay needle : cstring) : option nat :=
  if Transcoder.has_prefix needle hay then Some 0%nat
  else
    match hay with
    | [] => None
    | _ :: hay' =>
        match strstr hay' needle with
        | Some n => Some (S n)
        | None => None
        end
    end.

(** The part of an [Fl_Input] the code reads and writes: the text, a C
    string, and the cursor. *)
Record Input := mkInput {
  value : cstring;
  position : Z
}.

(** [replace_word_at_mark]. [old_word] and [new_word] are [std::string]s;
    [strstr] sees [old_word] as a C string, the end offset counts all of
    its bytes. *)
Definition replace_word_at_mark (inp : Input) (old_word new_word : list ascii) : Input :=
  let val := value inp in
  match strstr val (c_str old_word) with
  | None => inp
  | Some start =>
      let end_ := (start + length old_word)%nat in
      let newval := take start val ++ new_word ++ drop end_ val in
      mkInput (c_str newval) (wrap_int (Z.of_nat start + Z.of_nat (length new_word)))
  end.

(** The loop [while (!s.empty () && isspace (s.back ())) s.pop_back ()],
    by recursion on the string: a byte stays when something stays behind
    it, or when it is no white space. *)
Fixpoint pop_spaces (s : list ascii) : list ascii :=
  match s with
  | [] => []
  | c :: s' =>
      match pop_spaces s' with
      | [] => if c_isspace c then [] else [c]
      | t => c :: t
      end
  end.

(** [s.find_last_of (' ')], [None] for [npos]. *)
Fixpoint find_last_of (s : list ascii) : option nat :=
  match s with
  | [] => None
  | c :: s' =>
      match find_last_of s' with
      | Some i => Some (S i)
      | None => if is_char 32 c then Some 0%nat else None
      end
  end.

(** [atoi], that is [(int) strtol (s, NULL, 10)]: the number [%d] would
    read, 0 when there is none. *)
Definition atoi (s : cstring) : Z :=
  match scan_int s with
  | Some (v, _) => v
  | None => 0
  end.

(** [parse_font_spec] from the first trim on, for a non-empty [s0]. *)
Definition font_of (s0 : list ascii) : list ascii * Z :=
  let s := pop_spaces s0 in
  let '(s, size) :=
    match find_last_of s with
    | Some pos =>
        let tail := drop (S pos) s in
        if forallb g_ascii_isdigit tail
        then (take pos s, atoi (c_str tail))
        else (s, 12)
    | None => (s, 12)
    end in
  let s := pop_spaces s in
  (s, if size <=? 0 then 12 else size).

(** [parse_font_spec (spec, name, size)]: the two results as a pair. *)
Definition parse_font_spec (spec : option (list ascii)) : list ascii * Z :=
  match spec with
  | None => ([], 12)
  | Some p =>
      match c_str p with
      | [] => ([], 12)
      | _ :: _ => font_of (c_str p)
      end
  end.

(** The fields of [struct User] the two tests read. *)
Record User := mkUser {
  op : bool;
  hop : bool;
  voice : bool;
  prefix : list ascii
}.

Record session := mkSession {
  me : option User
}.

(** [prefix[0]] of a C string: NUL when it is empty. *)
Definition prefix0 (u : User) : ascii :=
  match prefix u with
  | c :: _ => c
  | [] => chr 0
  end.

Definition sess_can_manage (sess : option session) : bool :=
  match sess with
  | None => false
  | Some s =>
      match me s with
      | None => false
      | Some u =>
          let p := prefix0 u in
          op u || hop u || is_char 64 p || is_char 38 p || is_char 126 p || is_char 37 p
      end
  end.

Definition sess_has_voice (sess : option session) : bool :=
  match sess with
  | None => false
  | Some s =>
      match me s with
      | None => false
      | Some u =>
          let p := prefix0 u in
          voice u || op u || hop u || is_char 43 p || is_char 64 p || is_char 38 p
          || is_char 126 p || is_char 37 p
      end
  end.

(** *** Specification vocabulary *)

(** [w] occurs in [s] at offset [n]. *)
Definition occurs_at (w s : list ascii) (n : nat) : Prop :=
  exists pre post, s = pre ++ w ++ post /\ length pre = n.

Definition ends_without_space (s : list ascii) : Prop :=
  forall c, last s = Some c -> c_isspace c = false.

End InputLine.

(** * Properties *)

(** ** Characters *)

Lemma code_range (c : ascii) : 0 <= code c < 256.
Proof.
  unfold code. pose proof (N_ascii_bounded c). lia.
Qed.

Lemma code_chr (z : Z) : 0 <= z < 256 -> code (chr z) = z.
Proof.
  intros Hz. unfold code, chr.
  rewrite Z.mod_small by lia.
  rewrite N_ascii_embedding by lia. lia.
Qed.

Lemma chr_code (c : ascii) : chr (code c) = c.
Proof.
  unfold chr, code. pose proof (N_ascii_bounded c).
  rewrite Z.mod_small by lia.
  rewrite N2Z.id. apply ascii_N_embedding.
Qed.

Lemma is_char_true z c : is_char z c = true <-> code c = z.
Proof. unfold is_char. apply Z.eqb_eq. Qed.

Lemma is_char_false z c : is_char z c = false <-> code c <> z.
Proof. unfold is_char. apply Z.eqb_neq. Qed.

Lemma c_str_no_nul p : no_nul (c_str p).
Proof.
  induction p as [|c p IH]; simpl; [constructor|].
  destruct (is_char 0 c) eqn:E; [constructor|].
  constructor; assumption.
Qed.

Lemma c_str_id l : no_nul l -> c_str l = l.
Proof.
  induction 1 as [|c l Hc _ IH]; simpl; [reflexivity|].
  rewrite Hc, IH. reflexivity.
Qed.

Lemma no_nul_app l1 l2 : no_nul l1 -> no_nul l2 -> no_nul (l1 ++ l2).
Proof. unfold no_nul. intros. apply Forall_app. split; assumption. Qed.

Lemma span_app f p : (span f p).1 ++ (span f p).2 = p.
Proof.
  induction p as [|c p IH]; simpl; [reflexivity|].
  destruct (f c); [|reflexivity].
  destruct (span f p) as [run rest]; simpl in *. congruence.
Qed.

Lemma span_run_holds f p : Forall (fun c => f c = true) (span f p).1.
Proof.
  induction p as [|c p IH]; simpl; [constructor|].
  destruct (f c) eqn:E; [|constructor].
  destruct (span f p) as [run rest]; simpl in *. constructor; assumption.
Qed.

Lemma span_rest_stops f p c rest : (span f p).2 = c :: rest -> f c = false.
Proof.
  induction p as [|a p IH]; simpl; [discriminate|].
  destruct (f a) eqn:E.
  - destruct (span f p) as [run r]; simpl in *. exact IH.
  - simpl. intros [= -> _]. exact E.
Qed.

(** ** C6: the nick colour hash *)

Lemma wrap_int_small z : 0 <= z <= INT_MAX -> wrap_int z = z.
Proof.
  unfold wrap_int, INT_MAX. intros Hz.
  rewrite Z.mod_small by lia. lia.
Qed.

Lemma byte_sum_nonneg s : 0 <= byte_sum s.
Proof.
  induction s as [|c s IH]; simpl; [lia|].
  pose proof (code_range c). unfold byte_sum in *. simpl. lia.
Qed.

Lemma hash_sum_no_overflow nick : forall acc,
  0 <= acc -> acc + byte_sum nick <= INT_MAX ->
  fold_left (fun sum ch => wrap_int (sum + code ch)) nick acc = acc + byte_sum nick.
Proof.
  induction nick as [|c nick IH]; intros acc Hacc Hmax; simpl.
  - unfold byte_sum. simpl. lia.
  - pose proof (code_range c). pose proof (byte_sum_nonneg nick).
    change (byte_sum (c :: nick)) with (code c + byte_sum nick) in *.
    rewrite wrap_int_small by lia.
    rewrite IH by lia. lia.
Qed.

(** C6. [hash_nick_color] is a function of the string alone; whenever the
    sum of the bytes fits in an [int] (the only case in which the C++ loop
    has defined behaviour) it equals that sum modulo 16 and lies in
    [0, 15]. *)
Theorem hash_nick_color_sum_mod_16 (nick : list ascii) :
  byte_sum nick <= INT_MAX ->
  hash_nick_color nick = byte_sum nick mod 16
  /\ 0 <= hash_nick_color nick <= 15
  /\ (forall nick', nick' = nick -> hash_nick_color nick' = hash_nick_color nick).
Proof.
  intros Hfit. pose proof (byte_sum_nonneg nick) as Hnn.
  assert (Heq : hash_nick_color nick = byte_sum nick mod 16).
  { unfold hash_nick_color.
    rewrite hash_sum_no_overflow by lia.
    rewrite Z.add_0_l. apply Z.rem_mod_nonneg; lia. }
  split; [exact Heq|]. split.
  - rewrite Heq. pose proof (Z.mod_pos_bound (byte_sum nick) 16). lia.
  - intros nick' ->. reflexivity.
Qed.

Lemma hash_nick_color_sum_mod_16_witness :
  byte_sum (lit "bob") <= INT_MAX
  /\ hash_nick_color (lit "bob") = 3
  /\ 0 <= hash_nick_color (lit "bob") <= 15.
Proof.
  assert (H : byte_sum (lit "bob") <= INT_MAX) by (vm_compute; discriminate).
  split; [exact H|].
  destruct (hash_nick_color_sum_mod_16 (lit "bob") H) as (Hsum & Hrange & _).
  split; [rewrite Hsum; reflexivity | exact Hrange].
Defined.

(** ** The markup transcoder *)

Module TranscoderFacts.
Import Transcoder.


Lemma slot_char_code k : 0 <= k <= 57 -> code (slot_char k) = 65 + k.
Proof. intros Hk. unfold slot_char. apply code_chr. lia. Qed.

Lemma slot_char_inj j k : 0 <= j <= 57 -> 0 <= k <= 57 -> slot_char j = slot_char k -> j = k.
Proof.
  intros Hj Hk E. apply (f_equal code) in E.
  rewrite !slot_char_code in E by lia. lia.
Qed.


Lemma slot_for_state_range s h : 0 <= slot_for_state s h <= 57.
Proof.
  unfold slot_for_state.
  destruct h; [lia|].
  destruct (in_ctcp s && (fg s <? 0) && negb (bold s || underline s)); [lia|].
  destruct ((0 <=? fg s) && (fg s <? 16)) eqn:E.
  - apply andb_prop in E as [E1 E2].
    apply Z.leb_le in E1. apply Z.ltb_lt in E2.
    destruct (bold s), (underline s); lia.
  - destruct (bold s), (underline s); lia.
Qed.

Lemma style_for_state_slot s h : style_for_state s h = slot_char (slot_for_state s h).
Proof.
  unfold style_for_state, slot_for_state.
  destruct h; [reflexivity|].
  destruct (in_ctcp s), (fg s <? 0), (bold s), (underline s); simpl;
    try reflexivity; f_equal; lia.
Qed.

Lemma style_for_state_no_nul s h : is_char 0 (style_for_state s h) = false.
Proof.
  rewrite style_for_state_slot. apply is_char_false.
  pose proof (slot_for_state_range s h).
  rewrite slot_char_code by lia. lia.
Qed.

Lemma slot_char_no_nul k : 0 <= k <= 57 -> is_char 0 (slot_char k) = false.
Proof. intros Hk. apply is_char_false. rewrite slot_char_code by lia. lia. Qed.

Lemma buf_ok_append b c st :
  buf_ok b -> is_char 0 c = false -> is_char 0 st = false -> buf_ok (append_char b c st).
Proof.
  intros (Hlen & Ho & Hs) Hc Hst. unfold buf_ok, append_char; simpl.
  rewrite !length_app, Hlen. split; [reflexivity|].
  split; apply no_nul_app; try assumption; constructor; auto; constructor.
Qed.

Lemma buf_ok_bump b : buf_ok b -> buf_ok (bump b).
Proof. intros H. exact H. Qed.

Lemma buf_ok_url_run s run : forall b,
  buf_ok b -> no_nul run ->
  buf_ok (fold_left (fun b q => bump (append_char b q (style_for_state s true))) run b).
Proof.
  induction run as [|q run IH]; intros b Hb Hrun; simpl; [exact Hb|].
  inversion Hrun; subst. apply IH; [|assumption].
  apply buf_ok_bump, buf_ok_append; auto using style_for_state_no_nul.
Qed.

Lemma skip_digits_suffix k : forall p, exists pre, p = pre ++ skip_digits k p.
Proof.
  induction k as [|k IH]; intros p; simpl.
  - exists []. destruct p; reflexivity.
  - destruct p as [|c p]; [exists []; reflexivity|].
    destruct (g_ascii_isdigit c).
    + destruct (IH p) as [pre Hpre]. exists (c :: pre). simpl. congruence.
    + exists []. reflexivity.
Qed.

Lemma skip_digits_length k p : (length (skip_digits k p) <= length p)%nat.
Proof.
  destruct (skip_digits_suffix k p) as [pre Hpre].
  rewrite Hpre at 2. rewrite length_app. lia.
Qed.

Lemma skip_digits_no_nul k p : no_nul p -> no_nul (skip_digits k p).
Proof.
  intros Hp. destruct (skip_digits_suffix k p) as [pre Hpre].
  rewrite Hpre in Hp. apply Forall_app in Hp. apply Hp.
Qed.


Lemma after_color_length p' : (length (after_color p') <= length p')%nat.
Proof.
  unfold after_color. pose proof (skip_digits_length 2 p') as H1.
  destruct (skip_digits 2 p') as [|c p1] eqn:E; [exact H1|].
  destruct (is_char 44 c); [|exact H1].
  pose proof (skip_digits_length 2 p1). simpl in H1. lia.
Qed.

Lemma after_color_no_nul p' : no_nul p' -> no_nul (after_color p').
Proof.
  intros Hp. unfold after_color.
  pose proof (skip_digits_no_nul 2 p' Hp) as H1.
  destruct (skip_digits 2 p') as [|c p1] eqn:E; [exact H1|].
  destruct (is_char 44 c); [|exact H1].
  inversion H1; subst. apply skip_digits_no_nul. assumption.
Qed.

Lemma span_length_rest f p : (length (span f p).2 <= length p)%nat.
Proof.
  rewrite <- (span_app f p) at 2. rewrite length_app. lia.
Qed.

Lemma span_no_nul f p : no_nul p -> no_nul (span f p).1 /\ no_nul (span f p).2.
Proof.
  intros Hp. rewrite <- (span_app f p) in Hp. apply Forall_app in Hp. exact Hp.
Qed.

(** A URL always starts with a byte the URL run accepts, so the run is never
    empty. *)
Lemma url_start_char ch p' : looks_like_url (ch :: p') = true -> url_char ch = true.
Proof.
  intros H.
  destruct ch as [[] [] [] [] [] [] [] []];
    first [ reflexivity | (vm_compute in H; discriminate H) ].
Qed.

Lemma url_run_shorter ch p' :
  looks_like_url (ch :: p') = true ->
  (length (span url_char (ch :: p')).2 <= length p')%nat.
Proof.
  intros H. apply url_start_char in H. simpl. rewrite H.
  pose proof (span_length_rest url_char p').
  destruct (span url_char p') as [run rest]; simpl in *. lia.
Qed.

(** The loop returns whenever it is given more fuel than there are bytes. *)
Lemma scan_loop_total fuel : forall nk p s b,
  (length p < fuel)%nat -> is_Some (scan_loop fuel nk p s b).
Proof.
  induction fuel as [|fuel IH]; intros nk p s b Hlen; [lia|].
  destruct p as [|ch p]; [eexists; reflexivity|].
  simpl in Hlen. cbn [scan_loop].
  loop_branches ch p; try (apply IH; lia).
  - apply IH. pose proof (after_color_length p). lia.
  - pose proof (url_run_shorter ch p ltac:(assumption)) as Hrun.
    destruct (span url_char (ch :: p)) as [run rest]. apply IH. simpl in Hrun. lia.
Qed.

(** More fuel never changes a result. *)
Lemma scan_loop_fuel_mono fuel : forall fuel' nk p s b r,
  scan_loop fuel nk p s b = Some r -> (fuel <= fuel')%nat ->
  scan_loop fuel' nk p s b = Some r.
Proof.
  induction fuel as [|fuel IH]; intros fuel' nk p s b r H Hle; [discriminate|].
  destruct fuel' as [|fuel']; [lia|].
  destruct p as [|ch p]; [exact H|].
  cbn [scan_loop] in *.
  loop_branches ch p; try (eapply IH; [eassumption | lia]).
  destruct (span url_char (ch :: p)) as [run rest].
  eapply IH; [eassumption | lia].
Qed.

Lemma scan_unfold nk p s b fuel :
  (length p < fuel)%nat -> scan_loop fuel nk p s b = scan nk p s b.
Proof.
  intros Hlen. unfold scan.
  destruct (scan_loop_total (S (length p)) nk p s b ltac:(lia)) as [r Hr].
  rewrite Hr. eapply scan_loop_fuel_mono; [eassumption | lia].
Qed.

(** The loop keeps the two strings in step. *)
Lemma scan_loop_buf_ok fuel : forall nk p s b s' b',
  scan_loop fuel nk p s b = Some (s', b') ->
  no_nul p -> buf_ok b -> buf_ok b'.
Proof.
  induction fuel as [|fuel IH]; intros nk p s b s' b' H Hp Hb; [discriminate|].
  destruct p as [|ch p]; [injection H as <- <-; exact Hb|].
  inversion Hp as [|? ? Hch Hp']; subst.
  cbn [scan_loop] in H.
  loop_branches ch p; try (eapply IH; [eassumption | assumption | assumption]).
  - eapply IH; [eassumption | | assumption]. apply after_color_no_nul. assumption.
  - pose proof (span_no_nul url_char (ch :: p) Hp) as [Hrun Hrest].
    destruct (span url_char (ch :: p)) as [run rest]. simpl in Hrun, Hrest.
    eapply IH; [eassumption | assumption |].
    apply buf_ok_url_run; assumption.
  - eapply IH; [eassumption | assumption |].
    apply buf_ok_bump, buf_ok_append; auto using style_for_state_no_nul.
Qed.


Lemma buf_ok_action body : forall b,
  buf_ok b -> no_nul body ->
  buf_ok (fold_left (fun b c => append_char b c (slot_char 1)) body b).
Proof.
  induction body as [|c body IH]; intros b Hb Hbody; simpl; [exact Hb|].
  inversion Hbody; subst. apply IH; [|assumption].
  apply buf_ok_append; auto.
Qed.

Lemma no_nul_drop n l : no_nul l -> no_nul (drop n l).
Proof. apply Forall_drop. Qed.

Lemma no_nul_removelast l : no_nul l -> no_nul (removelast l).
Proof.
  induction 1 as [|c l Hc Hl IH]; simpl; [constructor|].
  destruct l; [constructor|]. constructor; assumption.
Qed.

Lemma action_body_no_nul msg : no_nul msg -> no_nul (action_body msg).
Proof.
  intros H. unfold action_body.
  destruct (last (drop 8 msg)) as [c|]; [destruct (is_char 1 c)|];
    auto using no_nul_drop, no_nul_removelast.
Qed.

Lemma no_nul_replicate n k : 0 <= k <= 57 -> no_nul (replicate n (slot_char k)).
Proof.
  intros Hk. apply Forall_replicate. apply slot_char_no_nul. exact Hk.
Qed.

Lemma lit_blank_no_nul : no_nul (lit " ").
Proof. repeat constructor. Qed.

Lemma lit_star_no_nul : no_nul (lit "* ").
Proof. repeat constructor. Qed.

(** What one call builds: both strings of equal length, neither holding a
    NUL byte. *)
Lemma transcode_ok env text :
  let r := transcode env text in
  length r.1 = length r.2 /\ no_nul r.1 /\ no_nul r.2.
Proof.
  unfold transcode.
  set (msg := c_str (default [] text)).
  assert (Hmsg : no_nul msg) by apply c_str_no_nul.
  set (b00 := if hex_stamp_text env then _ else _).
  assert (Hb00 : buf_ok b00).
  { subst b00. destruct (hex_stamp_text env); [|repeat constructor].
    destruct (stamp env) as [tbuf|]; [|repeat constructor].
    unfold buf_ok; simpl. rewrite length_app, length_replicate. simpl.
    split; [reflexivity|]. split.
    - apply no_nul_app; [apply c_str_no_nul | apply lit_blank_no_nul].
    - apply no_nul_replicate. lia. }
  set (b0 := mkBuf (out b00) (styles b00) _).
  assert (Hb0 : buf_ok b0) by exact Hb00.
  set (b1 := if has_prefix ctcp_action msg then _ else _).
  assert (Hb1 : buf_ok b1).
  { subst b1. destruct (has_prefix ctcp_action msg).
    - set (b := fold_left _ _ _).
      assert (Hb : buf_ok b).
      { apply buf_ok_action; [|apply action_body_no_nul; exact Hmsg].
        destruct Hb00 as (Hl & Ho & Hs). unfold buf_ok; simpl.
        rewrite !length_app.
        change (length (lit "* ")) with 2%nat. simpl. split; [lia|]. split.
        - apply no_nul_app; [exact Ho | apply lit_star_no_nul].
        - apply no_nul_app; [exact Hs|].
          apply (no_nul_replicate 2 1). lia. }
      exact Hb.
    - destruct (scan (detect_nick msg) msg init_state b0) as [[s b]|] eqn:E;
        [|exact Hb0].
      eapply scan_loop_buf_ok; [exact E | exact Hmsg | exact Hb0]. }
  clearbody b1. destruct Hb1 as (Hl & Ho & Hs).
  destruct (match last (out b1) with Some c => negb (is_char 10 c) | None => true end);
    simpl; [|auto].
  rewrite !length_app. simpl. split; [lia|]. split.
  - apply no_nul_app; [exact Ho|]. repeat constructor.
  - apply no_nul_app; [exact Hs|]. constructor; [|constructor].
    apply slot_char_no_nul. lia.
Qed.

End TranscoderFacts.

Module TranscoderClaims.
Import Transcoder TranscoderFacts.

Lemma transcode_ends_in_newline env text :
  last (transcode env text).1 = Some (chr 10).
Proof.
  unfold transcode.
  match goal with
  | |- context [if has_prefix ctcp_action ?m then ?x else ?y] =>
      generalize (if has_prefix ctcp_action m then x else y)
  end.
  intros b1. destruct (last (out b1)) as [c|] eqn:E; simpl.
  - destruct (is_char 10 c) eqn:Ec; simpl.
    + rewrite E. f_equal. apply is_char_true in Ec.
      rewrite <- Ec. symmetry. apply chr_code.
    + apply last_snoc.
  - apply last_snoc.
Qed.

Lemma append_text_in_step env buf sty text :
  length buf = length sty ->
  append_text env (Some (mkUI (Some buf) (Some sty))) text
  = Some (mkUI (Some (buf ++ (transcode env text).1))
               (Some (sty ++ (transcode env text).2))).
Proof.
  intros Hlen. unfold append_text. simpl.
  destruct (transcode_ok env text) as (Hl & Ho & Hs).
  destruct (transcode env text) as [o st]. simpl in *.
  rewrite !c_str_id by assumption.
  rewrite length_app.
  destruct (Z.leb_spec (Z.of_nat (length sty)) (Z.of_nat (length buf + length o)));
    [reflexivity | lia].
Qed.

Lemma append_all_in_step calls : forall buf sty,
  length buf = length sty ->
  exists buf' sty',
    append_all calls (Some (mkUI (Some buf) (Some sty))) = Some (mkUI (Some buf') (Some sty'))
    /\ length buf' = length sty'.
Proof.
  induction calls as [|[env text] calls IH]; intros buf sty Hlen.
  - exists buf, sty. split; [reflexivity | exact Hlen].
  - change (append_all ((env, text) :: calls) (Some (mkUI (Some buf) (Some sty))))
      with (append_all calls (append_text env (Some (mkUI (Some buf) (Some sty))) text)).
    rewrite append_text_in_step by exact Hlen.
    apply IH. rewrite !length_app.
    destruct (transcode_ok env text) as (Hl & _). simpl in Hl. lia.
Qed.

(** Appends alone: one call of [append_text] builds a visible-text string
    and a style string of the same length, the timestamp run and the final
    newline included; both are appended whole, so on a tab on which nothing
    but appends happen the two buffers have the same length after every
    append. *)
Lemma appends_alone_stay_in_step :
  (forall env text,
      length (transcode env text).1 = length (transcode env text).2
      /\ last (transcode env text).1 = Some (chr 10))
  /\ (forall env buf sty text,
        length buf = length sty ->
        append_text env (Some (mkUI (Some buf) (Some sty))) text
        = Some (mkUI (Some (buf ++ (transcode env text).1))
                     (Some (sty ++ (transcode env text).2))))
  /\ (forall calls, exists buf sty,
        append_all calls (Some new_session_ui) = Some (mkUI (Some buf) (Some sty))
        /\ length buf = length sty).
Proof.
  split; [|split].
  - intros env text. split.
    + apply (transcode_ok env text).
    + apply transcode_ends_in_newline.
  - intros. apply append_text_in_step. assumption.
  - intros calls. apply append_all_in_step. reflexivity.
Qed.

Lemma transcode_not_empty env text : (0 < length (transcode env text).1)%nat.
Proof.
  pose proof (transcode_ends_in_newline env text) as Hl.
  destruct (transcode env text).1; [discriminate Hl | simpl; lia].
Qed.

Lemma append_all_grows calls : forall buf sty,
  length buf = length sty ->
  exists buf' sty',
    append_all calls (Some (mkUI (Some buf) (Some sty))) = Some (mkUI (Some buf') (Some sty'))
    /\ length buf' = length sty'
    /\ (length buf + length calls <= length buf')%nat.
Proof.
  induction calls as [|[env text] calls IH]; intros buf sty Hlen.
  - exists buf, sty. split; [reflexivity|]. split; [exact Hlen | simpl; lia].
  - change (append_all ((env, text) :: calls) (Some (mkUI (Some buf) (Some sty))))
      with (append_all calls (append_text env (Some (mkUI (Some buf) (Some sty))) text)).
    rewrite append_text_in_step by exact Hlen.
    destruct (transcode_ok env text) as (Hl & _). simpl in Hl.
    pose proof (transcode_not_empty env text) as Hpos.
    destruct (IH (buf ++ (transcode env text).1) (sty ++ (transcode env text).2))
      as (buf' & sty' & Hrun & Heq & Hge).
    { rewrite !length_app. lia. }
    exists buf', sty'. split; [exact Hrun|]. split; [exact Heq|].
    rewrite length_app in Hge. simpl. lia.
Qed.

(** Once the style buffer is the longer one, no append brings the two back
    in step: the guard either lets the styles through, and both grow by the
    same amount, or holds them back while the style buffer is still longer
    than the text. *)
Lemma append_text_stays_out_of_step env buf sty text :
  (length buf < length sty)%nat ->
  exists buf' sty',
    append_text env (Some (mkUI (Some buf) (Some sty))) text
    = Some (mkUI (Some buf') (Some sty'))
    /\ (length buf' < length sty')%nat.
Proof.
  intros Hlt. unfold append_text. cbn [buffer style_buffer].
  destruct (transcode_ok env text) as (Hl & Ho & Hs).
  destruct (transcode env text) as [o st]. cbn [out styles fst snd] in *.
  rewrite !c_str_id by assumption.
  destruct (Z.leb_spec (Z.of_nat (length sty)) (Z.of_nat (length (buf ++ o)))) as [Hle|Hgt].
  - eexists _, _. split; [reflexivity|]. rewrite !length_app. simpl in Hl. lia.
  - eexists _, _. split; [reflexivity|]. lia.
Qed.

Lemma append_all_stays_out_of_step calls : forall buf sty,
  (length buf < length sty)%nat ->
  exists buf' sty',
    append_all calls (Some (mkUI (Some buf) (Some sty))) = Some (mkUI (Some buf') (Some sty'))
    /\ (length buf' < length sty')%nat.
Proof.
  induction calls as [|[env text] calls IH]; intros buf sty Hlt.
  - exists buf, sty. split; [reflexivity | exact Hlt].
  - change (append_all ((env, text) :: calls) (Some (mkUI (Some buf) (Some sty))))
      with (append_all calls (append_text env (Some (mkUI (Some buf) (Some sty))) text)).
    destruct (append_text_stays_out_of_step env buf sty text Hlt)
      as (buf1 & sty1 & -> & Hlt1).
    apply IH. exact Hlt1.
Qed.

(** C1. The invariant does not hold across the lifetime of a buffer. Each
    call of [append_text] builds a text and a style string of the same
    length, and as long as nothing but appends happen on a tab the two
    buffers are in step. But [fe_text_clear] empties the text buffer and
    leaves the style buffer as it is; from then on the style buffer is
    strictly longer than the text buffer after every append, whatever is
    appended: the guard before the style append compares the lengths and
    cannot bring them back in step. *)
Theorem clear_puts_styles_out_of_step (calls1 calls2 : list (Env * option (list ascii))) :
  calls1 <> [] ->
  (exists buf sty,
      append_all calls1 (Some new_session_ui) = Some (mkUI (Some buf) (Some sty))
      /\ length buf = length sty /\ (0 < length buf)%nat
      /\ fe_text_clear (append_all calls1 (Some new_session_ui))
         = Some (mkUI (Some []) (Some sty)))
  /\ (exists buf sty,
        append_all calls2 (fe_text_clear (append_all calls1 (Some new_session_ui)))
        = Some (mkUI (Some buf) (Some sty))
        /\ (length buf < length sty)%nat).
Proof.
  intros Hne.
  destruct (append_all_grows calls1 [] [] eq_refl) as (buf & sty & Hrun & Heq & Hge).
  assert (Hpos : (0 < length buf)%nat).
  { destruct calls1; [congruence | simpl in Hge; lia]. }
  change (Some (mkUI (Some []) (Some []))) with (Some new_session_ui) in Hrun.
  rewrite Hrun. cbn [fe_text_clear buffer style_buffer]. split.
  - exists buf, sty. auto.
  - apply append_all_stays_out_of_step. simpl. lia.
Qed.

Lemma clear_puts_styles_out_of_step_witness :
  exists buf sty,
    append_all [(mkEnv false None, Some (lit "hi"))]
      (fe_text_clear
         (append_all [(mkEnv true (Some (lit "12:00:00")), Some (lit "<bob> hello"))]
            (Some new_session_ui)))
    = Some (mkUI (Some buf) (Some sty))
    /\ (length buf < length sty)%nat.
Proof.
  apply (clear_puts_styles_out_of_step
           [(mkEnv true (Some (lit "12:00:00")), Some (lit "<bob> hello"))]
           [(mkEnv false None, Some (lit "hi"))]).
  discriminate.
Defined.

(** On a concrete tab: after one line, a clear and one more line the text
    buffer holds 2 bytes and the style buffer 4. *)
Lemma fe_text_clear_leaves_styles :
  let env := mkEnv false None in
  let ui1 := append_text env (Some new_session_ui) (Some (lit "a")) in
  append_text env (fe_text_clear ui1) (Some (lit "b"))
  = Some (mkUI (Some (lit "b" ++ [chr 10])) (Some (replicate 4 (slot_char 0)))).
Proof. vm_compute. reflexivity. Qed.

(** *** One iteration of the main loop *)


Lemma is_control_false ch :
  is_control ch = false ->
  is_char 1 ch = false /\ is_char 3 ch = false /\ is_char 2 ch = false
  /\ is_char 31 ch = false /\ is_char 22 ch = false /\ is_char 15 ch = false
  /\ is_char 7 ch = false.
Proof.
  unfold is_control. intros H.
  repeat (apply orb_false_elim in H as [H ?]). auto 10.
Qed.

Lemma scan_step_visible nk ch p s b :
  is_control ch = false -> looks_like_url (ch :: p) = false ->
  scan nk (ch :: p) s b
  = scan nk p s (bump (append_char b ch (style_for_state (styled_state nk b s) false))).
Proof.
  intros Hc Hu. apply is_control_false in Hc as (H1 & H3 & H2 & H31 & H22 & H15 & H7).
  unfold scan at 1. cbn [length].
  set (fuel := S (length p)). cbn [scan_loop].
  rewrite H1, H3, H2, H31, H22, H15, H7, Hu.
  rewrite scan_unfold by lia.
  f_equal; unfold styled_state;
    destruct (_ && _ && _ && _); destruct s; reflexivity.
Qed.

Lemma url_run_fold st run : forall b,
  fold_left (fun b q => bump (append_char b q st)) run b
  = mkBuf (out b ++ run) (styles b ++ replicate (length run) st)
          (out_pos b + Z.of_nat (length run)).
Proof.
  induction run as [|q run IH]; intros b.
  - simpl. rewrite !app_nil_r, Z.add_0_r. destruct b; reflexivity.
  - cbn [fold_left]. rewrite IH. unfold bump, append_char. cbn [out styles out_pos].
    rewrite <- !app_assoc. cbn [length replicate app]. f_equal. lia.
Qed.

Lemma scan_step_url nk ch p s b :
  is_control ch = false -> looks_like_url (ch :: p) = true ->
  scan nk (ch :: p) s b
  = scan nk (span url_char (ch :: p)).2 s
      (mkBuf (out b ++ (span url_char (ch :: p)).1)
             (styles b ++ replicate (length (span url_char (ch :: p)).1) (slot_char 57))
             (out_pos b + Z.of_nat (length (span url_char (ch :: p)).1))).
Proof.
  intros Hc Hu. apply is_control_false in Hc as (H1 & H3 & H2 & H31 & H22 & H15 & H7).
  pose proof (url_run_shorter ch p Hu) as Hshort.
  unfold scan at 1. cbn [length].
  set (fuel := S (length p)). cbn [scan_loop].
  rewrite H1, H3, H2, H31, H22, H15, H7, Hu.
  destruct (span url_char (ch :: p)) as [run rest]. cbn [fst snd] in *.
  rewrite scan_unfold by lia.
  rewrite url_run_fold. reflexivity.
Qed.






Lemma slot_spec_range h ct f bd ul :
  match f with Some x => 0 <= x <= 15 | None => True end ->
  0 <= slot_spec h ct f bd ul <= 57.
Proof.
  intros Hf. unfold slot_spec.
  destruct h, ct, f, bd, ul; lia.
Qed.

Lemma style_for_state_spec s h :
  -1 <= fg s <= 15 ->
  style_for_state s h
  = slot_char (slot_spec h (in_ctcp s) (foreground s) (bold s) (underline s)).
Proof.
  intros Hfg. unfold style_for_state, slot_spec, foreground.
  destruct h; [reflexivity|].
  destruct (Z.ltb_spec (fg s) 0) as [Hneg|Hpos].
  - replace (0 <=? fg s) with false by (symmetry; apply Z.leb_gt; lia).
    destruct (in_ctcp s), (bold s), (underline s); reflexivity.
  - replace (0 <=? fg s) with true by (symmetry; apply Z.leb_le; lia).
    replace (fg s <? 16) with true by (symmetry; apply Z.ltb_lt; lia).
    destruct (in_ctcp s), (bold s), (underline s); simpl; f_equal; lia.
Qed.

Lemma hash_nick_color_bounds nick : -15 <= hash_nick_color nick <= 15.
Proof.
  unfold hash_nick_color.
  set (sum := fold_left _ _ _).
  pose proof (Z.rem_bound_abs sum 16). lia.
Qed.

Lemma detect_nick_color_bounds msg : -15 <= nick_color (detect_nick msg) <= 15.
Proof.
  unfold detect_nick.
  destruct (span is_blank msg) as [lead p].
  destruct p as [|c p1]; [simpl; lia|].
  destruct (is_char 60 c).
  - destruct (span _ p1) as [nick rest].
    destruct rest as [|c' ?]; [simpl; lia|].
    destruct (is_char 62 c'); [apply hash_nick_color_bounds | simpl; lia].
  - destruct (is_char 42 c); [|simpl; lia].
    destruct p1 as [|c1 p2]; [simpl; lia|].
    destruct (is_char 32 c1); [|simpl; lia].
    destruct (span _ p2) as [nick rest].
    destruct (0 <? Z.of_nat (length nick));
      [apply hash_nick_color_bounds | simpl; lia].
Qed.

Lemma styled_state_fg msg b s :
  -1 <= fg s <= 15 -> -1 <= fg (styled_state (detect_nick msg) b s) <= 15.
Proof.
  intros Hfg. unfold styled_state.
  pose proof (detect_nick_color_bounds msg).
  destruct (_ && _ && _ && _) eqn:E; [|exact Hfg].
  simpl. lia.
Qed.

(** C3. The style of a visible character follows the precedence
    hyperlink, then CTCP (only with no foreground, bold or underline), then
    the base index 0 or 3 + foreground moved to the bold region when bold is
    on (bold shadows underline) and else to the underline region when
    underline is on. The main loop styles every character of a URL run with
    the hyperlink slot and every other visible character with the slot of
    the state it is in, the nick colour standing in for the foreground
    inside the nick span. On [0x02 "Hello" 0x02 " world"] the text is
    "Hello world" and its line end, five characters in the bold-default
    slot 19 and the rest in the base slot 0. *)
Theorem style_precedence :
  (forall s hyperlink,
      -1 <= fg s <= 15 ->
      style_for_state s hyperlink
      = slot_char (slot_spec hyperlink (in_ctcp s) (foreground s) (bold s) (underline s))
      /\ 0 <= slot_spec hyperlink (in_ctcp s) (foreground s) (bold s) (underline s) <= 57)
  /\ (forall nk ch p s b,
        is_control ch = false -> looks_like_url (ch :: p) = true ->
        scan nk (ch :: p) s b
        = scan nk (span url_char (ch :: p)).2 s
            (mkBuf (out b ++ (span url_char (ch :: p)).1)
                   (styles b ++ replicate (length (span url_char (ch :: p)).1) (slot_char 57))
                   (out_pos b + Z.of_nat (length (span url_char (ch :: p)).1))))
  /\ (forall nk ch p s b,
        is_control ch = false -> looks_like_url (ch :: p) = false ->
        scan nk (ch :: p) s b
        = scan nk p s (bump (append_char b ch (style_for_state (styled_state nk b s) false))))
  /\ (forall msg b s,
        -1 <= fg s <= 15 -> -1 <= fg (styled_state (detect_nick msg) b s) <= 15)
  /\ transcode (mkEnv false None) (Some (chr 2 :: lit "Hello" ++ chr 2 :: lit " world"))
     = (lit "Hello world" ++ [chr 10],
        replicate 5 (slot_char 19) ++ replicate 7 (slot_char 0)).
Proof.
  split; [|split; [|split; [|split]]].
  - intros s h Hfg. split; [apply style_for_state_spec; exact Hfg|].
    apply slot_spec_range. unfold foreground.
    destruct (Z.ltb_spec (fg s) 0); [exact I | lia].
  - intros. apply scan_step_url; assumption.
  - intros. apply scan_step_visible; assumption.
  - intros. apply styled_state_fg. assumption.
  - vm_compute. reflexivity.
Qed.

Lemma style_precedence_witness :
  let s := mkState true 4 true true in
  style_for_state s false = slot_char (19 + (3 + 4))
  /\ scan no_nick (lit "a") s (mkBuf [] [] 0)
     = scan no_nick [] s (mkBuf (lit "a") [slot_char 26] 1)
  /\ scan no_nick (lit "www.x y") init_state (mkBuf [] [] 0)
     = scan no_nick (lit " y") init_state
         (mkBuf (lit "www.x") (replicate 5 (slot_char 57)) 5).
Proof.
  intros s.
  destruct style_precedence as (Hstyle & Hurl & Hvis & _ & _).
  split; [|split].
  - apply (Hstyle s false). simpl. lia.
  - apply (Hvis no_nick "a"%char [] s (mkBuf [] [] 0)); reflexivity.
  - apply (Hurl no_nick "w"%char (lit "ww.x y") init_state (mkBuf [] [] 0)); reflexivity.
Defined.

End TranscoderClaims.

(** ** The spell subsystem *)

Module SpellClaims.
Import Spell SpellSpec.

Section WithEnchant.
Context `{Enchant} `{GLibUnicode}.

Lemma spell_check_word_no_provider (st : SpellState) (word : option cstring) (len : nat) :
  have_enchant st = false \/ spell_dicts st = [] ->
  spell_check_word st word len = true.
Proof.
  intros [Hno | Hnil]; unfold spell_check_word.
  - rewrite Hno. reflexivity.
  - rewrite Hnil. destruct (have_enchant st); reflexivity.
Qed.

Lemma find_words_loop_no_provider fuel : forall st text p words r,
  have_enchant st = false \/ spell_dicts st = [] ->
  find_words_loop fuel st text p words = Some r ->
  Forall (fun ws => misspelled ws = false) words ->
  Forall (fun ws => misspelled ws = false) r.
Proof.
  induction fuel as [|fuel IH]; intros st text p words r Hno Hr Hw; [discriminate|].
  destruct p as [|c p]; [injection Hr as <-; exact Hw|].
  cbn [find_words_loop] in Hr.
  destruct (utf8_while _ not_alpha (c :: p)) as [ws|]; [|discriminate].
  destruct ws as [|c1 ws]; [injection Hr as <-; exact Hw|].
  destruct (utf8_while _ word_char (c1 :: ws)) as [word_end|]; [|discriminate].
  eapply IH; [exact Hno | exact Hr |].
  destruct (0 <? _)%nat; [|exact Hw].
  apply Forall_app. split; [exact Hw|]. constructor; [|constructor].
  cbn [misspelled]. rewrite spell_check_word_no_provider by exact Hno. reflexivity.
Qed.

(** C4. With the provider absent ([have_enchant] false) or with no
    dictionary loaded, [spell_check_word] answers "correct" for every word
    pointer and length, the null pointer, the empty word and non-alphabetic
    words included; it has no other outcome than a truth value, and the
    annotator built on it marks no span of any text as misspelled. *)
Theorem spell_check_word_fail_open (st : SpellState) (word : option cstring) (len : nat) :
  have_enchant st = false \/ spell_dicts st = [] ->
  spell_check_word st word len = true
  /\ (forall text, Forall (fun ws => misspelled ws = false) (spell_find_words st text)).
Proof.
  intros Hno. split; [apply spell_check_word_no_provider; exact Hno|].
  intros [t|]; [|constructor]. unfold spell_find_words.
  destruct (find_words_loop _ st (c_str t) (c_str t) []) as [r|] eqn:Hr; [|constructor].
  cbn [default]. eapply find_words_loop_no_provider; [exact Hno | exact Hr | constructor].
Qed.

(** *** Suggestions *)

Lemma existsb_is_elem (s : cstring) (result : list cstring) :
  existsb (fun existing => bool_decide (existing = s)) result = bool_decide (s ∈ result).
Proof.
  induction result as [|x result IH]; cbn [existsb].
  - symmetry. apply bool_decide_eq_false_2. apply not_elem_of_nil.
  - rewrite IH. destruct (decide (x = s)) as [->|Hne].
    + rewrite (bool_decide_eq_true_2 (s = s)) by reflexivity. simpl.
      symmetry. apply bool_decide_eq_true. left.
    + rewrite (bool_decide_eq_false_2 (x = s)) by assumption. simpl.
      apply bool_decide_ext. rewrite elem_of_cons.
      split; [auto | intros [Heq|Hin]; [congruence | exact Hin]].
Qed.

Lemma add_suggestions_spec suggestions : forall result,
  (length result <= 10)%nat ->
  add_suggestions suggestions result = take 10 (result ++ uniq_from result suggestions).
Proof.
  induction suggestions as [|s rest IH]; intros result Hlen; simpl.
  - rewrite app_nil_r. symmetry. apply take_ge. exact Hlen.
  - destruct (Nat.ltb_spec (length result) 10) as [Hlt|Hge].
    + rewrite existsb_is_elem. destruct (bool_decide (s ∈ result)) eqn:E.
      * apply IH. exact Hlen.
      * rewrite IH by (rewrite length_app; simpl; lia).
        rewrite <- app_assoc. reflexivity.
    + assert (Hten : length result = 10%nat) by lia.
      rewrite take_app_le by lia. symmetry. apply take_ge. lia.
Qed.

Lemma uniq_from_app a : forall seen b,
  uniq_from seen (a ++ b)
  = uniq_from seen a ++ uniq_from (seen ++ uniq_from seen a) b.
Proof.
  induction a as [|x a IH]; intros seen b; simpl.
  - rewrite app_nil_r. reflexivity.
  - destruct (bool_decide (x ∈ seen)).
    + apply IH.
    + simpl. rewrite IH. rewrite <- app_assoc. reflexivity.
Qed.

Lemma uniq_from_fresh l : forall seen x, x ∈ uniq_from seen l -> x ∉ seen.
Proof.
  induction l as [|y l IH]; intros seen x Hx; simpl in Hx.
  - inversion Hx.
  - destruct (bool_decide (y ∈ seen)) eqn:E.
    + apply IH. exact Hx.
    + apply bool_decide_eq_false in E.
      apply elem_of_cons in Hx as [->|Hx]; [exact E|].
      apply IH in Hx. intros Hin. apply Hx. apply elem_of_app. left. exact Hin.
Qed.

Lemma uniq_from_NoDup l : forall seen, NoDup (uniq_from seen l).
Proof.
  induction l as [|y l IH]; intros seen; simpl.
  - constructor.
  - destruct (bool_decide (y ∈ seen)); [apply IH|].
    constructor; [|apply IH].
    intros Hin. apply uniq_from_fresh in Hin. apply Hin.
    apply elem_of_app. right. left.
Qed.

(** The accumulated result after some dictionaries is the specification's
    list for the answers seen so far. *)
Lemma merge_answers_spec (w : cstring) (dicts : list EnchantDict) : forall seen_answers,
  fold_left
    (fun result dict =>
       match enchant_dict_suggest dict w with
       | Some suggestions => add_suggestions suggestions result
       | None => result
       end)
    dicts (take 10 (uniq_from [] seen_answers))
  = take 10 (uniq_from []
      (seen_answers ++ concat (map (fun dict => default [] (enchant_dict_suggest dict w)) dicts))).
Proof.
  induction dicts as [|d dicts IH]; intros pre; simpl.
  - rewrite app_nil_r. reflexivity.
  - rewrite app_assoc, <- IH. f_equal.
    destruct (enchant_dict_suggest d w) as [s|]; simpl.
    + rewrite add_suggestions_spec by (rewrite length_take; lia).
      rewrite uniq_from_app. simpl.
      set (U := uniq_from [] pre).
      destruct (Nat.le_gt_cases (length U) 10) as [Hle|Hgt].
      * rewrite (take_ge U) by exact Hle. reflexivity.
      * rewrite (take_app_le U) by lia.
        rewrite take_app_le by (rewrite length_take; lia).
        rewrite take_take. f_equal.
    + rewrite app_nil_r. reflexivity.
Qed.

Lemma suggest_spec_bounded answers :
  (length (suggest_spec answers) <= 10)%nat /\ NoDup (suggest_spec answers).
Proof.
  unfold suggest_spec. split.
  - rewrite length_take. lia.
  - eapply sublist_NoDup; [apply uniq_from_NoDup | apply sublist_take].
Qed.

Lemma spell_get_suggestions_unfold st w len :
  have_enchant st = true -> len <> 0%nat ->
  spell_get_suggestions st (Some w) len
  = suggest_spec
      (map (fun dict => default [] (enchant_dict_suggest dict (take len w))) (spell_dicts st)).
Proof.
  intros Hhave Hlen. unfold spell_get_suggestions, suggest_spec.
  rewrite Hhave. destruct (spell_dicts st) as [|d dicts] eqn:Ed; [reflexivity|].
  destruct len as [|len]; [congruence|]. cbn [negb is_nil is_null orb Nat.eqb default].
  apply (merge_answers_spec (take (S len) w) (d :: dicts) []).
Qed.

(** C7. For every word and every state, [spell_get_suggestions] returns at
    most ten strings, no two of them equal; with the provider present and a
    word that is not empty the list is the one the specification describes:
    the candidates of the loaded dictionaries in order, a candidate already
    in the result skipped, the list cut at ten. *)
Theorem spell_get_suggestions_capped_unique (st : SpellState) (word : option cstring) (len : nat) :
  (length (spell_get_suggestions st word len) <= 10)%nat
  /\ NoDup (spell_get_suggestions st word len)
  /\ (forall w,
        have_enchant st = true -> word = Some w -> len <> 0%nat ->
        spell_get_suggestions st word len
        = suggest_spec
            (map (fun dict => default [] (enchant_dict_suggest dict (take len w)))
                 (spell_dicts st))).
Proof.
  assert (Hguard : forall w, have_enchant st = true -> word = Some w -> len <> 0%nat ->
            spell_get_suggestions st word len
            = suggest_spec
                (map (fun dict => default [] (enchant_dict_suggest dict (take len w)))
                     (spell_dicts st))).
  { intros w Hhave -> Hlen. apply spell_get_suggestions_unfold; assumption. }
  split; [|split; [|exact Hguard]].
  - destruct (have_enchant st) eqn:Hh, word as [w|], len as [|n];
      try (unfold spell_get_suggestions; rewrite Hh;
           destruct (spell_dicts st); simpl; lia).
    rewrite (Hguard w) by (auto; lia). apply suggest_spec_bounded.
  - destruct (have_enchant st) eqn:Hh, word as [w|], len as [|n];
      try (unfold spell_get_suggestions; rewrite Hh;
           destruct (spell_dicts st); simpl; constructor).
    rewrite (Hguard w) by (auto; lia). apply suggest_spec_bounded.
Qed.

(** *** Start, teardown and the ignore set *)

Lemma spell_inv_start have : spell_inv (spell_start have).
Proof. intros _. reflexivity. Qed.

Lemma spell_inv_cleanup st : spell_inv st -> spell_inv (spell_cleanup st).
Proof.
  intros Hinv _. unfold spell_cleanup.
  destruct (spell_broker st) eqn:E; [reflexivity|]. simpl. apply Hinv. exact E.
Qed.

Lemma spell_inv_ignore st word : spell_inv st -> spell_inv (spell_ignore_word st word).
Proof.
  intros Hinv. unfold spell_ignore_word.
  destruct word as [p|]; [|exact Hinv].
  destruct (c_str p) as [|c w]; [exact Hinv|].
  intros Hb. simpl in Hb. simpl. rewrite (Hinv Hb). destruct (have_enchant st); reflexivity.
Qed.

Lemma spell_inv_init langs st : spell_inv st -> spell_inv (spell_init_broker langs st).
Proof.
  intros Hinv. unfold spell_init_broker, spell_init_broker_log.
  destruct (negb (have_enchant st) || bool_decide (is_Some (spell_broker st)));
    [exact Hinv|].
  destruct enchant_broker_init as [broker|]; [|exact Hinv].
  destruct (request_langs _ _ _ _) as [dicts requests].
  destruct dicts; intros Hb; discriminate Hb.
Qed.

Lemma spell_cleanup_ignore st word :
  spell_inv st -> spell_cleanup (spell_ignore_word st word) = spell_cleanup st.
Proof.
  intros Hinv. unfold spell_ignore_word.
  destruct word as [p|]; [|reflexivity].
  destruct (c_str p) as [|c w]; [reflexivity|].
  unfold spell_cleanup. simpl.
  destruct (spell_broker st) eqn:E; [reflexivity|].
  rewrite (Hinv E). destruct (have_enchant st); reflexivity.
Qed.

(** C10. [spell_cleanup] empties the session ignore set as well as the
    dictionary list and the broker. A teardown followed by a new start
    therefore ends in the same state whether or not a word had been ignored
    before: every word is checked again as if it had never been ignored. *)
Theorem spell_cleanup_forgets_ignored_words (st : SpellState) :
  spell_inv st ->
  spell_session_ignores (spell_cleanup st) = ∅
  /\ spell_dicts (spell_cleanup st) = []
  /\ spell_broker (spell_cleanup st) = None
  /\ (forall langs, spell_session_ignores (spell_reinit langs st) = ∅)
  /\ (forall langs ignored,
        spell_reinit langs (spell_ignore_word st ignored) = spell_reinit langs st)
  /\ (forall langs ignored word len,
        spell_check_word (spell_reinit langs (spell_ignore_word st ignored)) word len
        = spell_check_word (spell_reinit langs st) word len).
Proof.
  intros Hinv.
  assert (Hsame : forall langs ignored,
            spell_reinit langs (spell_ignore_word st ignored) = spell_reinit langs st).
  { intros. unfold spell_reinit. rewrite spell_cleanup_ignore by exact Hinv. reflexivity. }
  repeat split.
  - unfold spell_cleanup. destruct (spell_broker st); reflexivity.
  - unfold spell_cleanup. destruct (spell_broker st) eqn:E; [reflexivity|]. apply Hinv, E.
  - unfold spell_cleanup. destruct (spell_broker st); reflexivity.
  - intros langs. unfold spell_reinit, spell_init_broker, spell_init_broker_log.
    assert (Hc : spell_session_ignores (spell_cleanup st) = ∅)
      by (unfold spell_cleanup; destruct (spell_broker st); reflexivity).
    destruct (negb _ || bool_decide _); [exact Hc|].
    destruct enchant_broker_init; [|exact Hc].
    destruct (request_langs _ _ _ _) as [dicts requests].
    destruct dicts; exact Hc.
  - exact Hsame.
  - intros. rewrite Hsame. reflexivity.
Qed.

(** *** Start of the subsystem *)

Lemma request_langs_log broker lang_array : forall dicts requests,
  snd (request_langs broker lang_array dicts requests)
  = requests ++ filter (fun lang => lang <> []) lang_array.
Proof.
  induction lang_array as [|lang rest IH]; intros dicts requests; simpl.
  - rewrite app_nil_r. reflexivity.
  - destruct lang as [|c lang].
    + rewrite IH. reflexivity.
    + rewrite filter_cons_True by discriminate.
      destruct (enchant_broker_request_dict broker (c :: lang));
        rewrite IH, <- app_assoc; reflexivity.
Qed.

Lemma request_langs_none broker lang_array : forall dicts requests,
  Forall (fun lang => lang <> [] -> enchant_broker_request_dict broker lang = None) lang_array ->
  fst (request_langs broker lang_array dicts requests) = dicts.
Proof.
  induction lang_array as [|lang rest IH]; intros dicts requests Hnone; simpl.
  - reflexivity.
  - inversion Hnone as [|? ? Hlang Hrest]; subst.
    destruct lang as [|c lang]; [apply IH; exact Hrest|].
    rewrite Hlang by discriminate. apply IH. exact Hrest.
Qed.

(** Every dictionary the language loop pushes has been given the three
    terms, so under the session contract it accepts them. *)
Lemma request_langs_seeded broker lang_array : forall dicts requests,
  session_contract ->
  Forall (fun d => Forall (fun w => enchant_dict_check d w = 0) seed_terms) dicts ->
  Forall (fun d => Forall (fun w => enchant_dict_check d w = 0) seed_terms)
         (fst (request_langs broker lang_array dicts requests)).
Proof.
  intros dicts requests [Hadd Hmono].
  revert dicts requests.
  induction lang_array as [|lang rest IH]; intros dicts requests Hd; simpl.
  - exact Hd.
  - destruct lang as [|c lang]; [apply IH; exact Hd|].
    destruct (enchant_broker_request_dict broker (c :: lang)) as [dict|];
      [|apply IH; exact Hd].
    apply IH. apply Forall_app. split; [exact Hd|].
    constructor; [|constructor].
    unfold seed_dict, seed_terms. cbn [fold_left].
    repeat constructor; auto.
Qed.

(** The first half of C5: when the language list yields no dictionary, the
    broker is asked for "en" once, after the listed languages; when it yields
    one, "en" is not asked for beyond the list. *)
Lemma spell_init_broker_fallback langs broker :
  enchant_broker_init = Some broker ->
  let lang_array := g_strsplit_set (c_str langs) lang_delim in
  let listed := filter (fun lang => lang <> []) lang_array in
  (Forall (fun lang => enchant_broker_request_dict broker lang = None) listed ->
   snd (spell_init_broker_log langs (spell_start true)) = listed ++ [lit "en"])
  /\ (Exists (fun lang => is_Some (enchant_broker_request_dict broker lang)) listed ->
      snd (spell_init_broker_log langs (spell_start true)) = listed).
Proof.
  intros Hinit lang_array listed. unfold spell_init_broker_log. simpl.
  rewrite Hinit. fold lang_array.
  pose proof (request_langs_log broker lang_array [] []) as Hlog.
  simpl in Hlog. fold listed in Hlog.
  split.
  - intros Hnone.
    assert (Hd : fst (request_langs broker lang_array [] []) = []).
    { apply request_langs_none. apply Forall_forall. intros lang Hin Hne.
      rewrite Forall_forall in Hnone. apply Hnone.
      apply list_elem_of_filter. split; assumption. }
    destruct (request_langs broker lang_array [] []) as [dicts requests].
    simpl in *. subst. reflexivity.
  - intros Hsome.
    assert (Hd : fst (request_langs broker lang_array [] []) <> []).
    { clear Hlog. subst listed. generalize (@nil cstring) as requests.
      assert (Hgrow : forall la ds rq, ds <> [] ->
                fst (request_langs broker la ds rq) <> []).
      { induction la as [|l la IH]; intros ds rq Hds; simpl; [exact Hds|].
        destruct l; [apply IH; exact Hds|].
        destruct (enchant_broker_request_dict broker (a :: l));
          apply IH; [destruct ds; discriminate | exact Hds]. }
      induction lang_array as [|lang rest IH]; intros requests; simpl in *.
      - inversion Hsome.
      - destruct lang as [|c lang]; [apply IH; exact Hsome|].
        rewrite filter_cons_True in Hsome by discriminate.
        destruct (enchant_broker_request_dict broker (c :: lang)) eqn:E.
        + apply Hgrow. discriminate.
        + apply IH. inversion Hsome as [? ? Hhd|]; subst; [|assumption].
          rewrite E in Hhd. destruct Hhd; discriminate. }
    destruct (request_langs broker lang_array [] []) as [dicts requests].
    simpl in *. subst. destruct dicts; [congruence|reflexivity].
Qed.

(** *** The word tokenizer *)

Lemma g_utf8_skip_pos c : (1 <= g_utf8_skip c)%nat.
Proof.
  unfold g_utf8_skip.
  repeat match goal with |- context [if ?b then _ else _] => destruct b end; lia.
Qed.

Lemma next_char_suffix p : g_utf8_next_char p `suffix_of` p.
Proof. destruct p as [|c p]; [reflexivity|]. apply suffix_drop. Qed.

Lemma next_char_length p : p <> [] -> (length (g_utf8_next_char p) < length p)%nat.
Proof.
  destruct p as [|c p]; [congruence|]. intros _.
  unfold g_utf8_next_char. rewrite length_drop.
  pose proof (g_utf8_skip_pos c). simpl. lia.
Qed.

Lemma utf8_while_total cond fuel : forall p,
  (length p < fuel)%nat -> is_Some (utf8_while fuel cond p).
Proof.
  induction fuel as [|fuel IH]; intros p Hlen; [lia|].
  destruct p as [|c p]; [eexists; reflexivity|].
  cbn [utf8_while]. destruct (cond (c :: p)); [|eexists; reflexivity].
  apply IH. pose proof (next_char_length (c :: p) ltac:(discriminate)). lia.
Qed.

(** On a text whose sequences lie inside it, the loop steps over whole
    sequences and stops at a pointer from which they lie inside again. *)
Lemma utf8_while_run cond fuel : forall p q,
  sequences_inside p ->
  utf8_while fuel cond p = Some q ->
  cp_run cond p q /\ (q = [] \/ cond q = false) /\ sequences_inside q.
Proof.
  induction fuel as [|fuel IH]; intros p q Hin Hq; [discriminate|].
  destruct p as [|c p].
  - injection Hq as <-. split; [constructor | split; [left; reflexivity | exact Hin]].
  - cbn [utf8_while] in Hq. destruct (cond (c :: p)) eqn:Ec.
    + inversion Hin as [|c' p' Hskip Hrest]; subst.
      apply IH in Hq as (Hrun & Hstop & Hq); [|exact Hrest].
      split; [|split; [exact Hstop | exact Hq]].
      apply cp_run_step; [discriminate | exact Ec | exact Hskip | exact Hrun].
    + injection Hq as <-. split; [constructor | split; [right; exact Ec | exact Hin]].
Qed.

Lemma cp_run_suffix cond p q : cp_run cond p q -> q `suffix_of` p.
Proof.
  induction 1 as [p | p q Hne Hc Hseq Hrun IH]; [reflexivity|].
  etransitivity; [exact IH | apply next_char_suffix].
Qed.

Lemma cp_run_progress cond p q :
  cp_run cond p q -> p <> [] -> cond p = true -> (q = [] \/ cond q = false) ->
  (length q < length p)%nat.
Proof.
  intros Hrun Hne Hc Hstop. destruct Hrun as [p | p q _ _ _ Hrun].
  - destruct Hstop; congruence.
  - apply cp_run_suffix, suffix_length in Hrun.
    pose proof (next_char_length p Hne). lia.
Qed.

Lemma suffix_offset_drop (text p : cstring) :
  p `suffix_of` text -> drop (Z.to_nat (offset text p)) text = p.
Proof.
  intros [pre ->]. unfold offset. rewrite Nat2Z.id, length_app.
  replace (length pre + length p - length p)%nat with (length pre) by lia.
  apply drop_app_length.
Qed.

Lemma alpha_is_word_char p :
  g_unichar_isalpha (g_utf8_get_char p) = true -> word_char p = true.
Proof. intros Ha. unfold word_char. rewrite Ha. reflexivity. Qed.

(** What one pass of the outer loop adds to [words]. *)
Lemma find_words_loop_spec fuel : forall st text p words r,
  sequences_inside p ->
  find_words_loop fuel st text p words = Some r ->
  p `suffix_of` text ->
  exists r', r = words ++ r'
             /\ Forall (word_span text) r'
             /\ spans_ordered (offset text p) r'.
Proof.
  induction fuel as [|fuel IH]; intros st text p words r Hin Hr Hp; [discriminate|].
  destruct p as [|c p].
  { injection Hr as <-. exists []. rewrite app_nil_r. repeat split; constructor. }
  cbn [find_words_loop] in Hr.
  destruct (utf8_while (S (length (c :: p))) not_alpha (c :: p)) as [ws|] eqn:Eskip;
    [|discriminate].
  apply utf8_while_run in Eskip as (Hskip & Hstart & Hin1); [|exact Hin].
  destruct ws as [|c1 ws].
  { injection Hr as <-. exists []. rewrite app_nil_r. repeat split; constructor. }
  destruct Hstart as [Hstart|Hstart]; [discriminate|].
  unfold not_alpha in Hstart. apply negb_false_iff in Hstart.
  set (word_start := c1 :: ws) in *.
  destruct (utf8_while (S (length word_start)) word_char word_start) as [word_end|] eqn:Eword;
    [|discriminate].
  apply utf8_while_run in Eword as (Hword & Hend & Hin2); [|exact Hin1].
  assert (Hws : word_start `suffix_of` text).
  { etransitivity; [apply (cp_run_suffix _ _ _ Hskip) | exact Hp]. }
  assert (Hwe : word_end `suffix_of` text).
  { etransitivity; [apply (cp_run_suffix _ _ _ Hword) | exact Hws]. }
  assert (Hlen : (length word_end < length word_start)%nat).
  { apply (cp_run_progress word_char); auto using alpha_is_word_char. }
  pose proof (suffix_length _ _ Hws) as Hl1.
  pose proof (suffix_length _ _ (cp_run_suffix _ _ _ Hskip)) as Hl2.
  replace (0 <? length word_start - length word_end)%nat with true in Hr
    by (symmetry; apply Nat.ltb_lt; lia).
  apply IH in Hr as (r'' & -> & Hall & Hord); [|exact Hin2|exact Hwe].
  eexists (_ :: r''). split; [rewrite <- app_assoc; reflexivity|].
  split.
  - constructor; [|exact Hall].
    unfold word_span. cbn [start end_].
    fold (offset text word_start). fold (offset text word_end).
    rewrite !suffix_offset_drop by assumption.
    unfold offset. repeat split; try lia; try assumption.
    + intros E. rewrite E, apostrophe_not_alpha in Hstart. discriminate.
    + intros E. rewrite E, hyphen_not_alpha in Hstart. discriminate.
  - cbn [spans_ordered start end_]. unfold offset in *. repeat split; try lia.
    exact Hord.
Qed.

Lemma find_words_loop_total fuel : forall st text p words,
  sequences_inside p ->
  (length p < fuel)%nat -> is_Some (find_words_loop fuel st text p words).
Proof.
  induction fuel as [|fuel IH]; intros st text p words Hin Hlen; [lia|].
  destruct p as [|c p]; [eexists; reflexivity|].
  cbn [find_words_loop].
  destruct (utf8_while_total not_alpha (S (length (c :: p))) (c :: p) ltac:(lia))
    as [ws Eskip].
  rewrite Eskip. destruct ws as [|c1 ws]; [eexists; reflexivity|].
  set (word_start := c1 :: ws) in *.
  destruct (utf8_while_total word_char (S (length word_start)) word_start ltac:(lia))
    as [word_end Eword].
  rewrite Eword.
  apply utf8_while_run in Eskip as (Hskip & [Hnil|Hstart] & Hin1);
    [discriminate| |exact Hin].
  apply utf8_while_run in Eword as (Hword & Hend & Hin2); [|exact Hin1].
  apply IH; [exact Hin2|].
  unfold not_alpha in Hstart. apply negb_false_iff in Hstart.
  pose proof (cp_run_progress _ _ _ Hword ltac:(discriminate)
                (alpha_is_word_char _ Hstart) Hend) as Hshort.
  apply cp_run_suffix, suffix_length in Hskip. simpl in *. lia.
Qed.

(** The spans do not depend on the dictionaries or the ignore set. *)
Lemma find_words_loop_spans fuel : forall st st' text p words words',
  map span_of words = map span_of words' ->
  option_map (map span_of) (find_words_loop fuel st text p words)
  = option_map (map span_of) (find_words_loop fuel st' text p words').
Proof.
  induction fuel as [|fuel IH]; intros st st' text p words words' Hw; [reflexivity|].
  destruct p as [|c p]; [simpl; rewrite Hw; reflexivity|].
  cbn [find_words_loop].
  destruct (utf8_while (S (length (c :: p))) not_alpha (c :: p)) as [ws|]; [|reflexivity].
  destruct ws as [|c1 ws]; [simpl; rewrite Hw; reflexivity|].
  destruct (utf8_while _ word_char (c1 :: ws)) as [word_end|]; [|reflexivity].
  apply IH.
  destruct (0 <? _)%nat; [|exact Hw].
  rewrite !map_app, Hw. reflexivity.
Qed.

Lemma spans_ordered_increasing text : forall words lo,
  Forall (word_span text) words -> spans_ordered lo words -> spans_increasing lo words.
Proof.
  induction words as [|ws words IH]; intros lo Hall Hord; [exact I|].
  destruct Hord as (Hlo & Hlt & Hord).
  inversion Hall as [|? ? Hws Hrest]; subst.
  cbn [spans_increasing]. repeat split; try assumption.
  apply IH; [exact Hrest|].
  destruct words as [|ws' words]; [exact I|].
  destruct Hord as (Hle & Hlt' & Hord).
  cbn [spans_ordered]. repeat split; try assumption.
  destruct (Z.eq_dec (start ws') (end_ ws)) as [E|]; [|lia].
  exfalso. inversion Hrest as [|? ? Hws' _]; subst.
  destruct Hws as (_ & _ & _ & _ & _ & _ & Hstop).
  destruct Hws' as (Hr1 & Hr2 & Halpha & _). rewrite E in Halpha.
  destruct Hstop as [Hnil|Hstop].
  - apply (f_equal length) in Hnil. rewrite length_drop in Hnil. simpl in Hnil. lia.
  - rewrite alpha_is_word_char in Hstop by exact Halpha. discriminate.
Qed.

(** Under [sequences_inside] a step of the model is the step of the macro:
    it passes over exactly [g_utf8_skip] bytes of the text and reaches a
    pointer from which the sequences lie inside again. *)
Lemma next_char_inside c p :
  sequences_inside (c :: p) ->
  (length (g_utf8_next_char (c :: p)) + g_utf8_skip c = length (c :: p))%nat
  /\ sequences_inside (g_utf8_next_char (c :: p)).
Proof.
  intros Hin. inversion Hin as [|c' p' Hskip Hrest]; subst.
  cbn [g_utf8_next_char]. split; [rewrite length_drop; lia | exact Hrest].
Qed.

Lemma ascii_sequences_inside p :
  Forall (fun c => code c < 192) p -> sequences_inside p.
Proof.
  induction 1 as [|c p Hc _ IH]; [constructor|].
  assert (Hs : g_utf8_skip c = 1%nat).
  { unfold g_utf8_skip. replace (code c <? 192) with true; [reflexivity|].
    symmetry. apply Z.ltb_lt. exact Hc. }
  constructor; rewrite Hs; [simpl; lia | exact IH].
Qed.

(** A text that ends inside a two-byte sequence is not of this kind. *)
Lemma truncated_sequence_not_inside : ~ sequences_inside [chr 97; chr 195].
Proof.
  intros Hin. inversion Hin as [|c p _ Hrest]; subst.
  change (drop (g_utf8_skip (chr 97)) [chr 97; chr 195]) with [chr 195] in Hrest.
  inversion Hrest as [|c p Hskip _]; subst. vm_compute in Hskip. lia.
Qed.

(** C9. On every text in which the sequences lie inside the text (no step
    passes its end) [spell_find_words] returns (the loop ends within the
    fuel of one pass), and what it returns is a list of spans in strictly
    increasing order that do not touch; each span lies in the text, starts at
    an alphabetic code point, which is neither apostrophe nor hyphen, holds
    only alphabetic code points, apostrophes and hyphens, each a whole
    sequence of the text, and ends where these end. The spans are a
    function of the text alone: any other state
    of the dictionaries and of the ignore set gives the same spans. *)
Theorem spell_find_words_spans (st : SpellState) (text : list ascii) :
  sequences_inside (c_str text) ->
  let words := spell_find_words st (Some text) in
  find_words_loop (S (length (c_str text))) st (c_str text) (c_str text) [] = Some words
  /\ Forall (word_span (c_str text)) words
  /\ spans_increasing 0 words
  /\ (forall st', map span_of (spell_find_words st' (Some text)) = map span_of words).
Proof.
  intros Hin words. subst words. unfold spell_find_words.
  set (t := c_str text) in *.
  destruct (find_words_loop_total (S (length t)) st t t [] Hin ltac:(lia)) as [r Hr].
  rewrite Hr. cbn [default].
  destruct (find_words_loop_spec _ _ _ _ _ _ Hin Hr ltac:(reflexivity))
    as (r' & -> & Hall & Hord).
  cbn [app] in *.
  split; [reflexivity|]. split; [exact Hall|]. split.
  - apply (spans_ordered_increasing t); [exact Hall|].
    unfold offset in Hord. rewrite Nat.sub_diag in Hord. exact Hord.
  - intros st'.
    pose proof (find_words_loop_spans (S (length t)) st' st t t [] [] eq_refl) as Hsp.
    rewrite Hr in Hsp.
    destruct (find_words_loop (S (length t)) st' t t []) as [r0|]; [|discriminate].
    simpl in Hsp. injection Hsp as Hsp. exact Hsp.
Qed.

End WithEnchant.

(** *** Evaluation on the sample provider *)

Import Sample.

Lemma spell_check_word_fail_open_witness :
  spell_check_word (spell_start false) (Some (lit "xyzzy")) 5 = true
  /\ spell_check_word (spell_start true) (Some (lit "123")) 3 = true
  /\ spell_check_word (spell_start true) (Some []) 0 = true.
Proof.
  split; [|split].
  - apply (spell_check_word_fail_open (spell_start false)). left. reflexivity.
  - apply (spell_check_word_fail_open (spell_start true)). right. reflexivity.
  - apply (spell_check_word_fail_open (spell_start true)). right. reflexivity.
Defined.

Lemma spell_get_suggestions_capped_unique_witness :
  spell_get_suggestions (loaded "en") (Some (lit "helo")) 4
  = [lit "hello"; lit "help"; lit "held"]
  /\ (length (spell_get_suggestions (loaded "en") (Some (lit "helo")) 4) <= 10)%nat.
Proof.
  destruct (spell_get_suggestions_capped_unique (loaded "en") (Some (lit "helo")) 4)
    as (Hlen & _ & Hspec).
  split; [|exact Hlen].
  rewrite (Hspec (lit "helo")); [reflexivity | reflexivity | reflexivity | discriminate].
Defined.

Lemma spell_cleanup_forgets_ignored_words_witness :
  let st := loaded "en" in
  let ignored := Some (lit "xyzzy") in
  spell_inv st
  /\ spell_check_word (spell_ignore_word st ignored) ignored 5 = true
  /\ spell_check_word (spell_reinit (lit "en") (spell_ignore_word st ignored)) ignored 5
     = spell_check_word (spell_reinit (lit "en") st) ignored 5
  /\ spell_check_word (spell_reinit (lit "en") st) ignored 5 = false.
Proof.
  intros st ignored.
  assert (Hinv : spell_inv st) by (intros Hb; discriminate Hb).
  split; [exact Hinv|]. split; [reflexivity|]. split; [|reflexivity].
  destruct (spell_cleanup_forgets_ignored_words st Hinv) as (_ & _ & _ & _ & _ & Hcheck).
  apply Hcheck.
Defined.

Lemma spell_find_words_spans_witness :
  map span_of (spell_find_words (loaded "en") (Some (lit "hello wrld, don't-stop 42 'x")))
  = [(0, 5); (6, 10); (12, 22); (27, 28)]
  /\ spans_increasing 0
       (spell_find_words (loaded "en") (Some (lit "hello wrld, don't-stop 42 'x"))).
Proof.
  split; [vm_compute; reflexivity|].
  destruct (spell_find_words_spans (loaded "en") (lit "hello wrld, don't-stop 42 'x"))
    as (_ & _ & Hinc & _).
  - apply ascii_sequences_inside. rewrite c_str_id; repeat constructor.
  - exact Hinc.
Defined.

(** C5 on the code. With a language list that yields no dictionary the
    broker is asked for "en" once and the dictionary it returns is pushed as
    it is: the three terms were not added to its session vocabulary, and
    "FlexChat" is flagged. The same dictionary loaded through the language
    list has the terms and accepts the word. *)
Theorem fallback_dictionary_is_not_seeded :
  spell_init_broker_log (lit "") (spell_start true)
  = (mkSpell true (Some tt) [mkDict (lit "en") []] ∅, [lit "en"])
  /\ spell_check_word (loaded "") (Some (lit "FlexChat")) 8 = false
  /\ spell_dicts (loaded "en")
     = [mkDict (lit "en") [lit "IRC"; lit "FlexChat"; lit "HexChat"]]
  /\ spell_check_word (loaded "en") (Some (lit "FlexChat")) 8 = true.
Proof.
  split; [reflexivity|]. split; [reflexivity|]. split; reflexivity.
Qed.

End SpellClaims.

(** ** The palette store *)

Module PaletteClaims.
Import Palette.

(** *** Printing a number *)

Lemma digit_char_code d : 0 <= d <= 9 -> code (digit_char d) = 48 + d.
Proof. intros Hd. unfold digit_char. apply code_chr. lia. Qed.

Lemma is_digit_isdigit c : is_digit c -> g_ascii_isdigit c = true.
Proof.
  unfold is_digit, g_ascii_isdigit. intros Hc.
  apply andb_true_intro. split; apply Z.leb_le; lia.
Qed.

Lemma isdigit_is_digit c : g_ascii_isdigit c = true -> is_digit c.
Proof.
  unfold is_digit, g_ascii_isdigit. intros Hc.
  apply andb_prop in Hc as [H1 H2]. apply Z.leb_le in H1, H2. lia.
Qed.

Lemma digits_value_snoc ds c : digits_value (ds ++ [c]) = digits_value ds * 10 + (code c - 48).
Proof. unfold digits_value. rewrite fold_left_app. reflexivity. Qed.

Lemma print_digits_S fuel n acc :
  print_digits (S fuel) n acc
  = if n <? 10 then digit_char (n mod 10) :: acc
    else print_digits fuel (n / 10) (digit_char (n mod 10) :: acc).
Proof. reflexivity. Qed.

Lemma print_digits_spec fuel : forall n acc,
  0 <= n < 10 ^ Z.of_nat (S fuel) ->
  exists ds, print_digits (S fuel) n acc = ds ++ acc
             /\ ds <> [] /\ Forall is_digit ds
             /\ digits_value ds = n /\ (length ds <= S fuel)%nat.
Proof.
  induction fuel as [|fuel IH]; intros n acc Hn.
  - change (10 ^ Z.of_nat 1) with 10 in Hn.
    exists [digit_char n]. cbn [print_digits].
    replace (n <? 10) with true by (symmetry; apply Z.ltb_lt; lia).
    rewrite Z.mod_small by lia.
    split; [reflexivity|]. split; [discriminate|]. split; [|split].
    + constructor; [|constructor]. unfold is_digit. rewrite digit_char_code; lia.
    + unfold digits_value. simpl. rewrite digit_char_code; lia.
    + simpl. lia.
  - pose proof (Z.mod_pos_bound n 10 ltac:(lia)) as Hmod.
    assert (Hd : is_digit (digit_char (n mod 10)))
      by (unfold is_digit; rewrite digit_char_code; lia).
    rewrite (print_digits_S (S fuel)).
    destruct (Z.ltb_spec n 10) as [Hsmall|Hbig].
    + exists [digit_char (n mod 10)].
      split; [reflexivity|]. split; [discriminate|]. split; [|split].
      * constructor; [exact Hd | constructor].
      * unfold digits_value. simpl. rewrite digit_char_code by lia.
        rewrite Z.mod_small; lia.
      * simpl. lia.
    + assert (Hq : 0 <= n / 10 < 10 ^ Z.of_nat (S fuel)).
      { split; [apply Z.div_pos; lia|].
        apply Z.div_lt_upper_bound; [lia|].
        rewrite <- Z.pow_succ_r by lia.
        replace (Z.succ (Z.of_nat (S fuel))) with (Z.of_nat (S (S fuel))) by lia.
        lia. }
      destruct (IH (n / 10) (digit_char (n mod 10) :: acc) Hq)
        as (ds & Hds & Hne & Hall & Hval & Hlen).
      exists (ds ++ [digit_char (n mod 10)]).
      split; [rewrite Hds, <- app_assoc; reflexivity|].
      split; [destruct ds; discriminate|]. split; [|split].
      * apply Forall_app. split; [exact Hall|]. constructor; [exact Hd | constructor].
      * rewrite digits_value_snoc, Hval, digit_char_code by lia.
        pose proof (Z.div_mod n 10 ltac:(lia)). lia.
      * rewrite length_app. simpl. lia.
Qed.

Lemma print_nat_spec n :
  0 <= n ->
  exists ds, print_nat n = ds /\ ds <> [] /\ Forall is_digit ds
             /\ digits_value ds = n
             /\ (length ds <= S (Z.to_nat (Z.log2 n)))%nat.
Proof.
  intros Hn. unfold print_nat.
  assert (Hfuel : 0 <= n < 10 ^ Z.of_nat (S (Z.to_nat (Z.log2 n)))).
  { split; [exact Hn|].
    pose proof (Z.log2_nonneg n) as Hl.
    replace (Z.of_nat (S (Z.to_nat (Z.log2 n)))) with (Z.succ (Z.log2 n)) by lia.
    destruct (Z.eq_dec n 0) as [->|Hne].
    - reflexivity.
    - pose proof (Z.log2_spec n ltac:(lia)) as [_ Hlt].
      eapply Z.lt_le_trans; [exact Hlt|].
      apply Z.pow_le_mono_l. lia. }
  destruct (print_digits_spec _ n [] Hfuel) as (ds & Hds & Hrest).
  exists ds. rewrite Hds, app_nil_r. split; [reflexivity | exact Hrest].
Qed.

(** *** Reading it back *)

Lemma scan_digits_app ds : forall v rest,
  Forall is_digit ds -> first_is g_ascii_isdigit rest = false ->
  scan_digits v (ds ++ rest)
  = (fold_left (fun acc c => acc * 10 + (code c - 48)) ds v, rest).
Proof.
  induction ds as [|c ds IH]; intros v rest Hds Hrest.
  - cbn [app fold_left]. destruct rest as [|c rest]; [reflexivity|].
    cbn [first_is] in Hrest. cbn [scan_digits]. rewrite Hrest. reflexivity.
  - inversion Hds; subst. cbn [app fold_left scan_digits].
    rewrite is_digit_isdigit by assumption.
    apply IH; assumption.
Qed.

Lemma skip_space_nonspace c s : c_isspace c = false -> skip_space (c :: s) = c :: s.
Proof. intros Hc. unfold skip_space. simpl. rewrite Hc. reflexivity. Qed.

Lemma skip_space_blank s : skip_space (lit " " ++ s) = skip_space s.
Proof.
  unfold skip_space. simpl.
  change (c_isspace " ") with true. cbv iota.
  destruct (span c_isspace s); reflexivity.
Qed.

Lemma digit_not_space c : is_digit c -> c_isspace c = false.
Proof.
  unfold is_digit, c_isspace, is_char. intros Hc.
  apply orb_false_intro; [apply andb_false_intro2; apply Z.leb_gt; lia|].
  apply Z.eqb_neq. lia.
Qed.

Lemma scan_int_print n rest :
  0 <= n <= INT_MAX -> first_is g_ascii_isdigit rest = false ->
  scan_int (print_int n ++ rest) = Some (n, rest).
Proof.
  intros Hn Hrest. unfold print_int.
  replace (n <? 0) with false by (symmetry; apply Z.ltb_ge; lia).
  destruct (print_nat_spec n ltac:(lia)) as (ds & -> & Hne & Hall & Hval & _).
  destruct ds as [|c ds]; [congruence|].
  pose proof (Forall_inv Hall) as Hc. pose proof (Forall_inv_tail Hall) as Hds.
  unfold scan_int. cbn [app]. rewrite skip_space_nonspace by (apply digit_not_space, Hc).
  unfold is_digit in Hc.
  replace (is_char 45 c) with false by (symmetry; apply is_char_false; lia).
  replace (is_char 43 c) with false by (symmetry; apply is_char_false; lia).
  rewrite is_digit_isdigit by exact Hc.
  change (c :: ds ++ rest) with ((c :: ds) ++ rest).
  rewrite scan_digits_app by assumption.
  fold (digits_value (c :: ds)). rewrite Hval. unfold strtol_value.
  rewrite Z.min_r by (unfold LONG_MAX, INT_MAX in *; lia).
  rewrite wrap_int_small by lia. reflexivity.
Qed.

Lemma print_int_head n rest :
  0 <= n -> exists c s, print_int n ++ rest = c :: s /\ is_digit c.
Proof.
  intros Hn. unfold print_int.
  replace (n <? 0) with false by (symmetry; apply Z.ltb_ge; lia).
  destruct (print_nat_spec n Hn) as (ds & -> & Hne & Hall & _).
  destruct ds as [|c ds]; [congruence|].
  exists c, (ds ++ rest). split; [reflexivity | exact (Forall_inv Hall)].
Qed.

Lemma scan_int_after_blank n rest :
  0 <= n <= INT_MAX -> first_is g_ascii_isdigit rest = false ->
  scan_int (skip_space (lit " " ++ print_int n ++ rest)) = Some (n, rest).
Proof.
  intros Hn Hrest. rewrite skip_space_blank.
  destruct (print_int_head n rest ltac:(lia)) as (c & s & E & Hc).
  rewrite E, skip_space_nonspace by (apply digit_not_space, Hc).
  rewrite <- E. apply scan_int_print; assumption.
Qed.

Lemma print_int_no_nul n : 0 <= n -> no_nul (print_int n).
Proof.
  intros Hn. unfold print_int.
  replace (n <? 0) with false by (symmetry; apply Z.ltb_ge; lia).
  destruct (print_nat_spec n Hn) as (ds & -> & _ & Hall & _).
  eapply Forall_impl; [exact Hall|].
  intros c Hc. apply is_char_false. unfold is_digit in Hc. lia.
Qed.

Lemma print_int_no_newline n : 0 <= n -> Forall (fun c => is_char 10 c = false) (print_int n).
Proof.
  intros Hn. unfold print_int.
  replace (n <? 0) with false by (symmetry; apply Z.ltb_ge; lia).
  destruct (print_nat_spec n Hn) as (ds & -> & _ & Hall & _).
  eapply Forall_impl; [exact Hall|].
  intros c Hc. apply is_char_false. unfold is_digit in Hc. lia.
Qed.

Lemma print_int_length n : 0 <= n < 512 -> (length (print_int n) <= 9)%nat.
Proof.
  intros Hn. unfold print_int.
  replace (n <? 0) with false by (symmetry; apply Z.ltb_ge; lia).
  destruct (print_nat_spec n ltac:(lia)) as (ds & -> & _ & _ & _ & Hlen).
  assert (Z.log2 n <= Z.log2 511) by (apply Z.log2_le_mono; lia).
  change (Z.log2 511) with 8 in *. pose proof (Z.log2_nonneg n). lia.
Qed.

(** *** One line of the file *)

Lemma format_color_no_nul key c : 0 <= key -> no_nul (format_color key c).
Proof.
  intros Hk. unfold format_color.
  pose proof (code_range (r c)). pose proof (code_range (g c)).
  pose proof (code_range (b c)).
  repeat apply no_nul_app; try (apply print_int_no_nul; lia); repeat constructor.
Qed.

Lemma newline_not_digit rest : first_is g_ascii_isdigit (chr 10 :: rest) = false.
Proof. reflexivity. Qed.

Lemma blank_not_digit rest : first_is g_ascii_isdigit (lit " " ++ rest) = false.
Proof. reflexivity. Qed.

Lemma sscanf_color_format key c :
  0 <= key <= INT_MAX ->
  sscanf_color (c_str (format_color key c))
  = Some (key, code (r c), code (g c), code (b c)).
Proof.
  intros Hk. rewrite c_str_id by (apply format_color_no_nul; lia).
  pose proof (code_range (r c)). pose proof (code_range (g c)).
  pose proof (code_range (b c)).
  unfold sscanf_color, format_color.
  change (scan_lit (lit "color_") (lit "color_" ++ ?s)) with (Some s).
  cbn [mbind option_bind].
  rewrite scan_int_print by (lia || reflexivity).
  cbn [mbind option_bind].
  change (skip_space (lit " = " ++ ?s)) with (lit "=" ++ lit " " ++ s).
  change (scan_lit (lit "=") (lit "=" ++ ?s)) with (Some s).
  cbn [mbind option_bind].
  rewrite scan_int_after_blank by (unfold INT_MAX; lia || reflexivity).
  cbn [mbind option_bind].
  rewrite scan_int_after_blank by (unfold INT_MAX; lia || reflexivity).
  cbn [mbind option_bind].
  rewrite scan_int_after_blank by (unfold INT_MAX; lia || reflexivity).
  reflexivity.
Qed.

Lemma index_of_key_of_index i : 0 <= i <= MAX_COL -> index_of_key (key_of_index i) = i.
Proof.
  unfold index_of_key, key_of_index, MAX_COL. intros Hi.
  destruct (Z.ltb_spec i 32).
  - replace (256 <=? i) with false by (symmetry; apply Z.leb_gt; lia). reflexivity.
  - replace (256 <=? 256 + (i - 32)) with true by (symmetry; apply Z.leb_le; lia). lia.
Qed.

Lemma load_line_format i c colors :
  0 <= i <= MAX_COL ->
  load_line (format_color (key_of_index i) c) colors = <[Z.to_nat i := c]> colors.
Proof.
  intros Hi. unfold load_line.
  assert (Hk : 0 <= key_of_index i <= INT_MAX).
  { unfold key_of_index, MAX_COL, INT_MAX in *. destruct (i <? 32); lia. }
  rewrite sscanf_color_format by exact Hk.
  fold (index_of_key (key_of_index i)). rewrite index_of_key_of_index by exact Hi.
  replace ((0 <=? i) && (i <=? MAX_COL)) with true
    by (symmetry; apply andb_true_intro; split; apply Z.leb_le; lia).
  rewrite !chr_code. destruct c; reflexivity.
Qed.

Lemma format_color_whole_line key c : 0 <= key < 512 -> whole_line (format_color key c).
Proof.
  intros Hk.
  pose proof (code_range (r c)). pose proof (code_range (g c)).
  pose proof (code_range (b c)).
  unfold whole_line, format_color.
  eexists (lit "color_" ++ print_int key ++ lit " = "
           ++ print_int (code (r c)) ++ lit " "
           ++ print_int (code (g c)) ++ lit " " ++ print_int (code (b c))).
  split; [rewrite <- !app_assoc; reflexivity|]. split.
  - repeat (apply Forall_app; split);
      try (apply print_int_no_newline; lia); repeat constructor.
  - rewrite !length_app.
    pose proof (print_int_length key ltac:(lia)).
    pose proof (print_int_length (code (r c)) ltac:(lia)).
    pose proof (print_int_length (code (g c)) ltac:(lia)).
    pose proof (print_int_length (code (b c)) ltac:(lia)).
    change (length (lit "color_")) with 6%nat.
    change (length (lit " = ")) with 3%nat.
    change (length (lit " ")) with 1%nat.
    change (length [chr 10]) with 1%nat. lia.
Qed.

(** *** Reading a file line by line *)

Lemma fgets_take_whole body : forall n rest,
  Forall (fun c => is_char 10 c = false) body ->
  (length body < n)%nat ->
  fgets_take n (body ++ chr 10 :: rest) = (body ++ [chr 10], rest).
Proof.
  induction body as [|c body IH]; intros n rest Hbody Hn.
  - destruct n; [simpl in Hn; lia|]. reflexivity.
  - destruct n; [simpl in Hn; lia|].
    pose proof (Forall_inv Hbody) as Hc. pose proof (Forall_inv_tail Hbody) as Hb.
    cbn [app fgets_take]. rewrite Hc.
    rewrite IH by (assumption || (simpl in Hn; lia)). reflexivity.
Qed.

Lemma fgets_whole_line line rest :
  whole_line line -> fgets 256 (line ++ rest) = Some (line, rest).
Proof.
  intros (body & -> & Hbody & Hlen).
  rewrite length_app in Hlen. simpl in Hlen.
  rewrite <- app_assoc. cbn [app].
  unfold fgets. destruct (body ++ chr 10 :: rest) eqn:E.
  - destruct body; discriminate E.
  - rewrite <- E. f_equal. apply fgets_take_whole; [exact Hbody | lia].
Qed.

Lemma load_loop_lines lines : forall fuel colors,
  Forall whole_line lines ->
  (length (concat lines) < fuel)%nat ->
  load_loop fuel (concat lines) colors
  = Some (fold_left (fun colors line => load_line line colors) lines colors).
Proof.
  induction lines as [|line lines IH]; intros fuel colors Hall Hfuel.
  - destruct fuel; [simpl in Hfuel; lia|]. reflexivity.
  - pose proof (Forall_inv Hall) as Hline. pose proof (Forall_inv_tail Hall) as Hrest.
    destruct fuel; [simpl in Hfuel; lia|].
    cbn [concat load_loop fold_left]. rewrite fgets_whole_line by exact Hline.
    apply IH; [exact Hrest|].
    cbn [concat] in Hfuel. rewrite length_app in Hfuel.
    destruct Hline as (body & -> & _). rewrite length_app in Hfuel. simpl in Hfuel. lia.
Qed.

Lemma palette_load_text_lines lines colors :
  Forall whole_line lines ->
  palette_load_text (concat lines) colors
  = fold_left (fun colors line => load_line line colors) lines colors.
Proof.
  intros Hall. unfold palette_load_text.
  rewrite load_loop_lines by (assumption || lia). reflexivity.
Qed.

(** *** Save, then load *)

Lemma palette_save_text_lines colors :
  palette_save_text colors = concat (saved_lines colors).
Proof.
  unfold palette_save_text, saved_lines.
  change (Z.to_nat (MAX_COL + 1 - 32)) with 10%nat.
  change (Z.to_nat (MAX_COL + 1)) with (32 + 10)%nat.
  rewrite seq_app, map_app, concat_app. reflexivity.
Qed.

Lemma saved_lines_whole colors : Forall whole_line (saved_lines colors).
Proof.
  unfold saved_lines. apply Forall_forall. intros line Hin.
  apply list_elem_of_fmap in Hin as (i & -> & Hi).
  apply elem_of_seq in Hi. apply format_color_whole_line.
  unfold key_of_index, MAX_COL in *. destruct (Z.of_nat i <? 32); lia.
Qed.

(** Reading the first [n] saved lines of [p] into [q] replaces the first [n]
    entries of [q] by those of [p]. *)
Lemma load_saved_prefix (p q : list PaletteColor) (n : nat) :
  (n <= 42)%nat -> length p = 42%nat -> length q = 42%nat ->
  fold_left (fun colors line => load_line line colors)
    (map (fun i => format_color (key_of_index (Z.of_nat i)) (color_at p i)) (seq 0 n)) q
  = take n p ++ drop n q.
Proof.
  intros Hn Hp Hq. induction n as [|n IH].
  - reflexivity.
  - rewrite seq_S, map_app, fold_left_app, IH by lia. cbn [map fold_left Nat.add].
    rewrite load_line_format by (unfold MAX_COL; lia). rewrite Nat2Z.id.
    destruct (lookup_lt_is_Some_2 p n ltac:(lia)) as [x Hx].
    destruct (lookup_lt_is_Some_2 q n ltac:(lia)) as [y Hy].
    assert (Hc : color_at p n = x).
    { unfold color_at. rewrite nth_lookup, Hx. reflexivity. }
    rewrite Hc, (take_S_r p n x Hx), (drop_S q y n Hy).
    rewrite insert_app_r_alt by (rewrite length_take; lia).
    rewrite length_take, Hp. replace (n - n `min` 42)%nat with 0%nat by lia.
    cbn [insert list_insert]. rewrite <- app_assoc. reflexivity.
Qed.

Lemma load_saved_text (p q : list PaletteColor) :
  length p = 42%nat -> length q = 42%nat ->
  palette_load_text (palette_save_text p) q = p.
Proof.
  intros Hp Hq.
  rewrite palette_save_text_lines, palette_load_text_lines by apply saved_lines_whole.
  unfold saved_lines. change (Z.to_nat (MAX_COL + 1)) with 42%nat.
  rewrite load_saved_prefix by (lia || assumption).
  rewrite take_ge, drop_ge by lia. apply app_nil_r.
Qed.

(** *** What [sscanf] accepts *)

Lemma span_blank s :
  exists w, s = w ++ skip_space s /\ blank w /\ first_is c_isspace (skip_space s) = false.
Proof.
  exists (span c_isspace s).1. unfold skip_space.
  split; [symmetry; apply span_app|]. split; [apply span_run_holds|].
  destruct (span c_isspace s).2 as [|c rest] eqn:E; [reflexivity|].
  cbn [first_is]. eapply span_rest_stops. exact E.
Qed.

Lemma skip_space_app w s :
  blank w -> first_is c_isspace s = false -> skip_space (w ++ s) = s.
Proof.
  unfold skip_space. induction 1 as [|c w Hc _ IH]; intros Hs.
  - cbn [app]. destruct s as [|c s]; [reflexivity|].
    cbn [first_is] in Hs. cbn [span]. rewrite Hs. reflexivity.
  - cbn [app span]. rewrite Hc. specialize (IH Hs).
    destruct (span c_isspace (w ++ s)); cbn [snd] in *. exact IH.
Qed.

Lemma first_is_app f (l rest : cstring) : l <> [] -> first_is f (l ++ rest) = first_is f l.
Proof. destruct l; [congruence | reflexivity]. Qed.

Lemma blank_no_digit w c s :
  blank w -> g_ascii_isdigit c = false -> first_is g_ascii_isdigit (w ++ c :: s) = false.
Proof.
  intros Hw Hc. destruct Hw as [|x w Hx _]; [exact Hc|].
  cbn [app first_is]. destruct (g_ascii_isdigit x) eqn:E; [|reflexivity].
  apply isdigit_is_digit, digit_not_space in E. congruence.
Qed.

Lemma scan_lit_spec pat : forall s s', scan_lit pat s = Some s' <-> s = pat ++ s'.
Proof.
  induction pat as [|a pat IH]; intros s s'; cbn [scan_lit app].
  - split; [intros [= ->]; reflexivity | intros ->; reflexivity].
  - destruct s as [|c s]; [split; discriminate|].
    destruct (Ascii.eqb a c) eqn:E.
    + apply Ascii.eqb_eq in E as ->. rewrite IH.
      split; [intros ->; reflexivity | intros [= ->]; reflexivity].
    + split; [discriminate|]. intros [= -> _]. rewrite Ascii.eqb_refl in E. discriminate.
Qed.

Lemma scan_digits_spec : forall s acc v rest,
  scan_digits acc s = (v, rest) ->
  exists ds, s = ds ++ rest /\ Forall is_digit ds
             /\ v = fold_left (fun a c => a * 10 + (code c - 48)) ds acc
             /\ first_is g_ascii_isdigit rest = false.
Proof.
  induction s as [|c s IH]; intros acc v rest Hscan; cbn [scan_digits] in Hscan.
  - injection Hscan as <- <-. exists []. auto.
  - destruct (g_ascii_isdigit c) eqn:Ec.
    + apply IH in Hscan as (ds & -> & Hds & -> & Hrest). exists (c :: ds).
      split; [reflexivity|]. split; [|auto].
      constructor; [apply isdigit_is_digit, Ec | exact Hds].
    + injection Hscan as <- <-. exists []. auto.
Qed.

(** The digits behind the sign. *)
Lemma scan_number_sound (neg : bool) s1 v rest :
  match s1 with
  | c :: _ =>
      if g_ascii_isdigit c then
        let '(v, rest) := scan_digits 0 s1 in
        Some (wrap_int (strtol_value neg v), rest)
      else None
  | [] => None
  end = Some (v, rest) ->
  exists ds, s1 = ds ++ rest /\ ds <> [] /\ Forall is_digit ds
             /\ v = wrap_int (strtol_value neg (digits_value ds))
             /\ first_is g_ascii_isdigit rest = false.
Proof.
  destruct s1 as [|c s1]; [discriminate|].
  destruct (g_ascii_isdigit c) eqn:Ec; [|discriminate].
  destruct (scan_digits 0 (c :: s1)) as [v' rest'] eqn:E. intros [= <- <-].
  apply scan_digits_spec in E as (ds & E & Hds & -> & Hrest).
  exists ds. split; [exact E|]. split; [|auto].
  intros ->. cbn [app] in E. subst rest'. cbn [first_is] in Hrest. congruence.
Qed.

Lemma scan_int_sound s v rest :
  scan_int s = Some (v, rest) ->
  exists w t, s = w ++ t ++ rest /\ blank w /\ int_text t v
              /\ first_is g_ascii_isdigit rest = false.
Proof.
  unfold scan_int. destruct (span_blank s) as (w & Hs & Hw & _).
  destruct (skip_space s) as [|c s0] eqn:E0; [discriminate|].
  destruct (is_char 45 c) eqn:Eminus; [|destruct (is_char 43 c) eqn:Eplus].
  - intros Hn. apply scan_number_sound in Hn as (ds & -> & Hne & Hds & -> & Hrest).
    apply is_char_true in Eminus.
    exists w, (lit "-" ++ ds). split; [|split; [exact Hw|split; [|exact Hrest]]].
    + rewrite Hs. f_equal. cbn [app lit list_ascii_of_string]. f_equal.
      rewrite <- (chr_code c), Eminus. reflexivity.
    + exists (lit "-"), ds. auto 10.
  - intros Hn. apply scan_number_sound in Hn as (ds & -> & Hne & Hds & -> & Hrest).
    apply is_char_true in Eplus.
    exists w, (lit "+" ++ ds). split; [|split; [exact Hw|split; [|exact Hrest]]].
    + rewrite Hs. f_equal. cbn [app lit list_ascii_of_string]. f_equal.
      rewrite <- (chr_code c), Eplus. reflexivity.
    + exists (lit "+"), ds. auto 10.
  - intros Hn.
    apply (scan_number_sound false (c :: s0)) in Hn as (ds & E & Hne & Hds & -> & Hrest).
    exists w, ds. split; [|split; [exact Hw|split; [|exact Hrest]]].
    + rewrite Hs, E. reflexivity.
    + exists [], ds. auto 10.
Qed.

Lemma int_text_head t v :
  int_text t v -> exists c t', t = c :: t' /\ c_isspace c = false.
Proof.
  intros (sign & ds & -> & Hne & Hds & Hsign).
  destruct ds as [|d ds]; [congruence|].
  pose proof (digit_not_space d (Forall_inv Hds)) as Hd.
  destruct Hsign as [[[->| ->] _]|[-> _]].
  - exists d, ds. auto.
  - eexists _, _. split; [reflexivity|reflexivity].
  - eexists _, _. split; [reflexivity|reflexivity].
Qed.

Lemma int_text_first_not_space t v rest :
  int_text t v -> first_is c_isspace (t ++ rest) = false.
Proof.
  intros Ht. destruct (int_text_head t v Ht) as (c & t' & -> & Hc). exact Hc.
Qed.

Lemma scan_int_complete w t rest v :
  blank w -> int_text t v -> first_is g_ascii_isdigit rest = false ->
  scan_int (w ++ t ++ rest) = Some (v, rest).
Proof.
  intros Hw Ht Hrest. unfold scan_int.
  rewrite skip_space_app by (exact Hw || exact (int_text_first_not_space t v rest Ht)).
  destruct Ht as (sign & ds & -> & Hne & Hds & Hsign).
  destruct ds as [|d ds]; [congruence|].
  pose proof (Forall_inv Hds) as Hd.
  assert (Hscan : scan_digits 0 ((d :: ds) ++ rest) = (digits_value (d :: ds), rest))
    by (apply scan_digits_app; assumption).
  pose proof (is_digit_isdigit d Hd) as Hd'.
  destruct Hsign as [[[->| ->] ->]|[-> ->]].
  - cbn [app] in *. unfold is_digit in Hd.
    replace (is_char 45 d) with false by (symmetry; apply is_char_false; lia).
    replace (is_char 43 d) with false by (symmetry; apply is_char_false; lia).
    rewrite Hd', Hscan. reflexivity.
  - change ((lit "+" ++ d :: ds) ++ rest) with (chr 43 :: (d :: ds) ++ rest).
    cbv beta iota.
    change (is_char 45 (chr 43)) with false. change (is_char 43 (chr 43)) with true.
    cbv beta iota. cbn [app] in *. rewrite Hd', Hscan. reflexivity.
  - change ((lit "-" ++ d :: ds) ++ rest) with (chr 45 :: (d :: ds) ++ rest).
    cbv beta iota. change (is_char 45 (chr 45)) with true.
    cbv beta iota. cbn [app] in *. rewrite Hd', Hscan. reflexivity.
Qed.

Lemma scan_int_at_number t rest v :
  int_text t v -> first_is g_ascii_isdigit rest = false ->
  scan_int (t ++ rest) = Some (v, rest).
Proof. apply (scan_int_complete [] t rest v). constructor. Qed.

Lemma int_text_not_empty t v : int_text t v -> t <> [].
Proof. intros Ht. destruct (int_text_head t v Ht) as (c & t' & -> & _). discriminate. Qed.

(** [sscanf] converts four numbers exactly on the lines that begin with an
    entry. *)
Lemma sscanf_color_spec line key rv gv bv :
  sscanf_color line = Some (key, rv, gv, bv) <-> entry_text line key rv gv bv.
Proof.
  split.
  - unfold sscanf_color. intros Hscan.
    destruct (scan_lit (lit "color_") line) as [s1|] eqn:E1; [|discriminate].
    apply scan_lit_spec in E1. cbn [mbind option_bind] in Hscan.
    destruct (scan_int s1) as [[key' s2]|] eqn:E2; [|discriminate].
    cbn [mbind option_bind] in Hscan.
    destruct (span_blank s2) as (w2 & Hs2 & Hw2 & _).
    set (k2 := skip_space s2) in *. clearbody k2.
    destruct (scan_lit (lit "=") k2) as [s3|] eqn:E3; [|discriminate].
    apply scan_lit_spec in E3. cbn [mbind option_bind] in Hscan.
    destruct (span_blank s3) as (w3 & Hs3 & Hw3 & _).
    set (k3 := skip_space s3) in *. clearbody k3.
    destruct (scan_int k3) as [[rv' s4]|] eqn:E4; [|discriminate].
    cbn [mbind option_bind] in Hscan.
    destruct (span_blank s4) as (w4 & Hs4 & Hw4 & _).
    set (k4 := skip_space s4) in *. clearbody k4.
    destruct (scan_int k4) as [[gv' s5]|] eqn:E5; [|discriminate].
    cbn [mbind option_bind] in Hscan.
    destruct (span_blank s5) as (w5 & Hs5 & Hw5 & _).
    set (k5 := skip_space s5) in *. clearbody k5.
    destruct (scan_int k5) as [[bv' s6]|] eqn:E6; [|discriminate].
    cbn [mbind option_bind] in Hscan. injection Hscan as -> -> -> ->.
    apply scan_int_sound in E2 as (w1 & t1 & Hs1 & Hw1 & Ht1 & _).
    apply scan_int_sound in E4 as (w3' & t2 & Hs3' & Hw3' & Ht2 & Hd4).
    apply scan_int_sound in E5 as (w4' & t3 & Hs4' & Hw4' & Ht3 & Hd5).
    apply scan_int_sound in E6 as (w5' & t4 & Hs5' & Hw5' & Ht4 & Hd6).
    subst line s1 k2 k3 k4 k5.
    exists w1, t1, w2, (w3 ++ w3'), t2, (w4 ++ w4'), t3, (w5 ++ w5'), t4, s6.
    assert (Hne3 : (w4 ++ w4') ++ t3 <> []).
    { pose proof (int_text_not_empty _ _ Ht3). destruct (w4 ++ w4'); [assumption|discriminate]. }
    assert (Hne4 : (w5 ++ w5') ++ t4 <> []).
    { pose proof (int_text_not_empty _ _ Ht4). destruct (w5 ++ w5'); [assumption|discriminate]. }
    split.
    { rewrite Hs2, Hs3, Hs4, Hs5, <- !app_assoc. reflexivity. }
    unfold blank in *. rewrite !Forall_app.
    repeat (split; [auto; fail|]).
    split; [|split; [|exact Hd6]].
    + rewrite <- (first_is_app _ _ s5 Hne3), <- !app_assoc, <- Hs4. exact Hd4.
    + rewrite <- (first_is_app _ _ s6 Hne4), <- !app_assoc, <- Hs5. exact Hd5.
  - intros (w1 & t1 & w2 & w3 & t2 & w4 & t3 & w5 & t4 & rest & -> & Hw1 & Hw2 & Hw3
            & Hw4 & Hw5 & Ht1 & Ht2 & Ht3 & Ht4 & Hd3 & Hd4 & Hrest).
    unfold sscanf_color.
    rewrite (proj2 (scan_lit_spec (lit "color_") _ _) eq_refl).
    cbn [mbind option_bind].
    rewrite (scan_int_complete w1 t1 _ key Hw1 Ht1)
      by (apply blank_no_digit; [exact Hw2 | reflexivity]).
    cbn [mbind option_bind].
    rewrite (skip_space_app w2) by (exact Hw2 || reflexivity).
    rewrite (proj2 (scan_lit_spec (lit "=") _ _) eq_refl).
    cbn [mbind option_bind].
    assert (Hne3 : w4 ++ t3 <> []).
    { pose proof (int_text_not_empty _ _ Ht3). destruct w4; [assumption|discriminate]. }
    assert (Hne4 : w5 ++ t4 <> []).
    { pose proof (int_text_not_empty _ _ Ht4). destruct w5; [assumption|discriminate]. }
    rewrite (skip_space_app w3) by (exact Hw3 || exact (int_text_first_not_space _ _ _ Ht2)).
    rewrite (scan_int_at_number t2 _ rv Ht2).
    2:{ rewrite (app_assoc w4 t3), first_is_app by exact Hne3. exact Hd3. }
    cbn [mbind option_bind].
    rewrite (skip_space_app w4) by (exact Hw4 || exact (int_text_first_not_space _ _ _ Ht3)).
    rewrite (scan_int_at_number t3 _ gv Ht3).
    2:{ rewrite (app_assoc w5 t4), first_is_app by exact Hne4. exact Hd4. }
    cbn [mbind option_bind].
    rewrite (skip_space_app w5) by (exact Hw5 || exact (int_text_first_not_space _ _ _ Ht4)).
    rewrite (scan_int_at_number t4 _ bv Ht4) by exact Hrest.
    reflexivity.
Qed.

(** A line is applied when it begins with an entry whose key maps into the
    palette, and skipped otherwise. *)
Lemma load_line_spec line colors :
  (forall key rv gv bv,
      entry_text (c_str line) key rv gv bv ->
      0 <= index_of_key key <= MAX_COL ->
      load_line line colors
      = <[Z.to_nat (index_of_key key) := mkColor (chr rv) (chr gv) (chr bv)]> colors)
  /\ ((forall key rv gv bv,
         entry_text (c_str line) key rv gv bv -> ~ 0 <= index_of_key key <= MAX_COL) ->
      load_line line colors = colors).
Proof.
  unfold load_line. split.
  - intros key rv gv bv Hentry Hkey. apply sscanf_color_spec in Hentry. rewrite Hentry.
    fold (index_of_key key).
    replace ((0 <=? index_of_key key) && (index_of_key key <=? MAX_COL)) with true
      by (symmetry; apply andb_true_intro; split; apply Z.leb_le; lia).
    reflexivity.
  - intros Hnone.
    destruct (sscanf_color (c_str line)) as [[[[key rv] gv] bv]|] eqn:E; [|reflexivity].
    apply sscanf_color_spec, Hnone in E. fold (index_of_key key).
    destruct ((0 <=? index_of_key key) && (index_of_key key <=? MAX_COL)) eqn:Ek;
      [|reflexivity].
    apply andb_prop in Ek as [E1 E2]. apply Z.leb_le in E1, E2. lia.
Qed.

(** *** Reading any file piece by piece *)

Lemma fgets_take_cases n : forall file line rest,
  fgets_take n file = (line, rest) ->
  file = line ++ rest
  /\ ((exists body, line = body ++ [chr 10]
                    /\ Forall (fun c => is_char 10 c = false) body
                    /\ (length body < n)%nat)
      \/ (Forall (fun c => is_char 10 c = false) line
          /\ (length line = n \/ (rest = [] /\ (length line < n)%nat)))).
Proof.
  induction n as [|n IH]; intros file line rest Hget.
  - cbn [fgets_take] in Hget. injection Hget as <- <-.
    split; [reflexivity|]. right. split; [constructor|]. left. reflexivity.
  - destruct file as [|c file].
    + cbn [fgets_take] in Hget. injection Hget as <- <-.
      split; [reflexivity|]. right. split; [constructor|]. right. simpl. split; [reflexivity|lia].
    + cbn [fgets_take] in Hget. destruct (is_char 10 c) eqn:Ec.
      * injection Hget as <- <-. split; [reflexivity|]. left. exists [].
        split; [|split; [constructor | simpl; lia]].
        apply is_char_true in Ec. rewrite <- Ec, chr_code. reflexivity.
      * destruct (fgets_take n file) as [l r0] eqn:E. injection Hget as <- <-.
        destruct (IH _ _ _ E) as (-> & Hcase). split; [reflexivity|].
        destruct Hcase as [(body & -> & Hbody & Hlen)|(Hl & Hlen)].
        -- left. exists (c :: body). split; [reflexivity|].
           split; [constructor; assumption | simpl; lia].
        -- right. split; [constructor; assumption|].
           destruct Hlen as [Hlen|[-> Hlen]]; [left|right]; simpl; auto with lia.
Qed.

Lemma load_loop_pieces fuel : forall file colors,
  (length file < fuel)%nat ->
  exists lines,
    fgets_pieces file lines
    /\ load_loop fuel file colors
       = Some (fold_left (fun colors line => load_line line colors) lines colors).
Proof.
  induction fuel as [|fuel IH]; intros file colors Hfuel; [lia|].
  destruct file as [|c file].
  - exists []. split; [constructor | reflexivity].
  - cbn [load_loop fgets]. change (256 - 1)%nat with 255%nat.
    destruct (fgets_take 255 (c :: file)) as [line rest] eqn:E.
    destruct (fgets_take_cases _ _ _ _ E) as (Hfile & Hcase).
    assert (Hline : line <> []).
    { intros ->. destruct Hcase as [(body & Hb & _)|(_ & [Hl|[-> _]])].
      - destruct body; discriminate.
      - discriminate.
      - discriminate. }
    assert (Hshort : (length rest < fuel)%nat).
    { apply (f_equal length) in Hfile. rewrite length_app in Hfile.
      destruct line; [congruence|]. simpl in *. lia. }
    destruct (IH rest (load_line line colors) Hshort) as (lines & Hpieces & Hrun).
    rewrite Hfile. destruct Hcase as [(body & -> & Hbody & Hlen)|(Hl & [Hlen|[-> Hlen]])].
    + exists ((body ++ [chr 10]) :: lines). split; [|exact Hrun].
      rewrite <- app_assoc. apply pieces_line; assumption.
    + exists (line :: lines). split; [|exact Hrun]. apply pieces_full; assumption.
    + exists [line]. rewrite app_nil_r. split; [apply pieces_last; assumption|].
      clear IH Hrun. destruct fuel; [simpl in Hshort; lia|]. reflexivity.
Qed.

Lemma palette_load_text_pieces file colors :
  exists lines,
    fgets_pieces file lines
    /\ palette_load_text file colors
       = fold_left (fun colors line => load_line line colors) lines colors.
Proof.
  destruct (load_loop_pieces (S (length file)) file colors ltac:(lia))
    as (lines & Hpieces & Hrun).
  exists lines. split; [exact Hpieces|]. unfold palette_load_text. rewrite Hrun. reflexivity.
Qed.

Lemma fgets_take_full chunk : forall rest,
  Forall (fun c => is_char 10 c = false) chunk ->
  fgets_take (length chunk) (chunk ++ rest) = (chunk, rest).
Proof.
  induction chunk as [|c chunk IH]; intros rest Hchunk.
  - destruct rest; reflexivity.
  - pose proof (Forall_inv Hchunk) as Hc. pose proof (Forall_inv_tail Hchunk) as Hrest.
    cbn [length app fgets_take]. rewrite Hc, IH by exact Hrest. reflexivity.
Qed.

Lemma fgets_take_last chunk : forall n,
  Forall (fun c => is_char 10 c = false) chunk -> (length chunk < n)%nat ->
  fgets_take n chunk = (chunk, []).
Proof.
  induction chunk as [|c chunk IH]; intros n Hchunk Hn.
  - destruct n; reflexivity.
  - destruct n; [simpl in Hn; lia|].
    pose proof (Forall_inv Hchunk) as Hc. pose proof (Forall_inv_tail Hchunk) as Hrest.
    cbn [fgets_take]. rewrite Hc, IH by (exact Hrest || (simpl in Hn; lia)). reflexivity.
Qed.

(** The pieces determine what is loaded: whichever way a file is cut into
    [fgets_pieces], the loop applies these pieces in their order. *)
Lemma load_loop_of_pieces file lines :
  fgets_pieces file lines ->
  forall fuel colors,
    (length file < fuel)%nat ->
    load_loop fuel file colors
    = Some (fold_left (fun colors line => load_line line colors) lines colors).
Proof.
  induction 1 as [|body rest lines Hbody Hlen _ IH|chunk rest lines Hchunk Hlen _ IH
                  |chunk Hchunk Hne Hlen]; intros fuel colors Hfuel.
  - destruct fuel; [simpl in Hfuel; lia | reflexivity].
  - destruct fuel; [lia|]. cbn [load_loop fold_left].
    replace (body ++ chr 10 :: rest) with ((body ++ [chr 10]) ++ rest)
      by (rewrite <- app_assoc; reflexivity).
    rewrite fgets_whole_line.
    2:{ exists body. split; [reflexivity|]. split; [exact Hbody|].
        rewrite length_app. simpl. lia. }
    apply IH. rewrite length_app in Hfuel. simpl in Hfuel. lia.
  - destruct fuel; [lia|]. cbn [load_loop fold_left].
    assert (Hget : fgets 256 (chunk ++ rest) = Some (chunk, rest)).
    { unfold fgets. destruct (chunk ++ rest) eqn:E.
      - destruct chunk; [discriminate Hlen | discriminate E].
      - rewrite <- E. change (256 - 1)%nat with 255%nat. rewrite <- Hlen.
        f_equal. apply fgets_take_full. exact Hchunk. }
    rewrite Hget. apply IH. rewrite length_app in Hfuel. lia.
  - destruct fuel; [lia|]. cbn [load_loop fold_left].
    assert (Hget : fgets 256 chunk = Some (chunk, [])).
    { unfold fgets. destruct chunk as [|c chunk']; [congruence|].
      f_equal. apply fgets_take_last; [exact Hchunk | lia]. }
    rewrite Hget. destruct fuel; [destruct chunk; [congruence | simpl in Hfuel; lia]|].
    reflexivity.
Qed.

(** C8. With a palette of [MAX_COL + 1] entries, the file [palette_save]
    writes, read by [palette_load] into any other store of that size, gives
    back the same (r, g, b) at every index. The file has one line per index,
    under the key [i] for [i < 32] and [256 + (i - 32)] from 32 on, and the
    key is read back to the index. On reading, any file is taken in the
    pieces [fgets] cuts it into; [sscanf] converts four numbers exactly on
    the pieces that begin with an entry, whatever follows the entry; such a
    piece sets the entry its key maps to when that lies in the palette, and
    every other piece changes nothing. *)
Theorem palette_save_load_round_trip (p q : PaletteState) (conf : option (list ascii)) :
  length (palette_colors p) = 42%nat ->
  length (palette_colors q) = 42%nat ->
  palette_colors (palette_load q (palette_save true p conf)) = palette_colors p
  /\ palette_save true p conf = Some (concat (saved_lines (palette_colors p)))
  /\ (forall i, 0 <= i <= MAX_COL ->
        key_of_index i = (if i <? 32 then i else 256 + (i - 32))
        /\ index_of_key (key_of_index i) = i)
  /\ (forall line key rv gv bv,
        sscanf_color line = Some (key, rv, gv, bv) <-> entry_text line key rv gv bv)
  /\ (forall line colors,
        (forall key rv gv bv,
            entry_text (c_str line) key rv gv bv ->
            0 <= index_of_key key <= MAX_COL ->
            load_line line colors
            = <[Z.to_nat (index_of_key key) := mkColor (chr rv) (chr gv) (chr bv)]> colors)
        /\ ((forall key rv gv bv,
               entry_text (c_str line) key rv gv bv ->
               ~ 0 <= index_of_key key <= MAX_COL) ->
            load_line line colors = colors))
  /\ (forall file colors,
        (exists lines, fgets_pieces file lines)
        /\ (forall lines,
              fgets_pieces file lines ->
              palette_load_text file colors
              = fold_left (fun colors line => load_line line colors) lines colors)).
Proof.
  intros Hp Hq. split; [|split; [|split; [|split; [|split]]]].
  - unfold palette_load, palette_save. cbn [palette_colors].
    assert (Hd : palette_colors (palette_save_defaults q) = palette_colors q)
      by (unfold palette_save_defaults; destruct (palette_defaults_saved q); reflexivity).
    rewrite Hd. apply load_saved_text; assumption.
  - unfold palette_save. rewrite palette_save_text_lines. reflexivity.
  - intros i Hi. split; [reflexivity | apply index_of_key_of_index; exact Hi].
  - apply sscanf_color_spec.
  - apply load_line_spec.
  - intros file colors. split.
    + destruct (palette_load_text_pieces file colors) as (lines & Hpieces & _).
      exists lines. exact Hpieces.
    + intros lines Hpieces. unfold palette_load_text.
      rewrite (load_loop_of_pieces file lines Hpieces) by lia. reflexivity.
Qed.

Lemma palette_save_load_round_trip_witness :
  palette_colors
    (palette_load (mkPalette (replicate 42 (rgb 0 0 0)) [] false)
       (palette_save true (mkPalette initial_palette [] false) None))
  = palette_colors (mkPalette initial_palette [] false).
Proof.
  exact (proj1 (palette_save_load_round_trip
                  (mkPalette initial_palette [] false)
                  (mkPalette (replicate 42 (rgb 0 0 0)) [] false)
                  None eq_refl eq_refl)).
Defined.

(** The claim as it stands, on a line that is not in the form of the file:
    text behind the third number does not make [palette_load] skip the
    line. *)
Lemma line_with_trailing_text_is_loaded :
  ~ entry_form (lit "color_5 = 9 9 9 junk" ++ [chr 10])
  /\ load_line (lit "color_5 = 9 9 9 junk" ++ [chr 10]) initial_palette
     = <[5%nat := rgb 9 9 9]> initial_palette
  /\ load_line (lit "color_5 = 9 9 9 junk" ++ [chr 10]) initial_palette <> initial_palette.
Proof.
  split; [|split; [vm_compute; reflexivity|]].
  - intros (n & rt & gt & bt & eol & _ & _ & _ & [Hne Hbt] & Heol & E).
    destruct (exists_last Hne) as (bt' & d & ->).
    apply Forall_app in Hbt as [_ Hd]. apply Forall_inv in Hd. unfold is_digit in Hd.
    destruct Heol as [-> | ->].
    + rewrite app_nil_r, !app_assoc in E. apply app_inj_tail in E as [_ <-].
      vm_compute in Hd. destruct Hd as [Hd _]. apply Hd. reflexivity.
    + change (lit "color_5 = 9 9 9 junk") with (lit "color_5 = 9 9 9 jun" ++ [chr 107]) in E.
      rewrite !app_assoc in E. apply app_inj_tail in E as [E _].
      apply app_inj_tail in E as [_ <-].
      vm_compute in Hd. destruct Hd as [_ Hd]. apply Hd. reflexivity.
  - intros E. apply (f_equal (fun l => color_at l 5)) in E. vm_compute in E. discriminate E.
Qed.

(** A line of more than 255 bytes is read as two pieces, and the second
    piece is applied when it begins with an entry. *)
Lemma long_line_is_read_in_pieces :
  palette_load_text (replicate 255 (chr 120) ++ lit "color_5 = 9 9 9" ++ [chr 10])
                    initial_palette
  = <[5%nat := rgb 9 9 9]> initial_palette.
Proof. vm_compute. reflexivity. Qed.

(** A number beyond the range of [long] is stored as the low 32 bits of the
    bound, as the C library does. *)
Lemma scan_int_beyond_long :
  scan_int (lit "18446744073709551630") = Some (-1, [])
  /\ scan_int (lit "4294967310") = Some (14, []).
Proof. split; vm_compute; reflexivity. Qed.

End PaletteClaims.

(** ** More on the transcoder and the style table *)

Module TranscoderExtra.
Import Transcoder TranscoderFacts StyleTable.

(** *** Every style tag has its table entry *)

Lemma emitted_slot_iff k :
  emitted_slot k = true <-> (0 <= k <= 19 \/ 22 <= k <= 38 \/ 41 <= k <= 57).
Proof.
  unfold emitted_slot. rewrite !orb_true_iff, !andb_true_iff, !Z.leb_le. tauto.
Qed.

Lemma slot_for_state_emitted s h : emitted_slot (slot_for_state s h) = true.
Proof.
  apply emitted_slot_iff. unfold slot_for_state.
  destruct h; [lia|].
  destruct (in_ctcp s && (fg s <? 0) && negb (bold s || underline s)); [lia|].
  destruct ((0 <=? fg s) && (fg s <? 16)) eqn:E.
  - apply andb_prop in E as [E1 E2]. apply Z.leb_le in E1. apply Z.ltb_lt in E2.
    destruct (bold s), (underline s); lia.
  - destruct (bold s), (underline s); lia.
Qed.

Lemma style_index_slot_char k : 0 <= k <= 57 -> style_index (slot_char k) = k.
Proof. intros Hk. unfold style_index. rewrite slot_char_code by exact Hk. lia. Qed.

Lemma build_style_table_lookup table fsize (n : nat) :
  length table = 58%nat ->
  emitted_slot (Z.of_nat n) = true ->
  build_style_table table fsize !! n = Some (style_entry (Z.of_nat n) fsize).
Proof.
  intros Hlen Hn.
  do 58 (destruct table as [|? table]; [discriminate Hlen|]).
  destruct table; [|discriminate Hlen]. clear Hlen.
  do 58 (destruct n as [|n]; [first [discriminate Hn | reflexivity]|]).
  apply emitted_slot_iff in Hn. lia.
Qed.

Lemma scan_loop_styles_all (P : ascii -> Prop) fuel :
  (forall s h, P (style_for_state s h)) ->
  forall nk p s b s' b',
    scan_loop fuel nk p s b = Some (s', b') ->
    Forall P (styles b) -> Forall P (styles b').
Proof.
  intros HP. induction fuel as [|fuel IH]; intros nk p s b s' b' H Hb; [discriminate|].
  destruct p as [|ch p]; [injection H as <- <-; exact Hb|].
  cbn [scan_loop] in H.
  loop_branches ch p; try (eapply IH; [eassumption | assumption]).
  - destruct (span url_char (ch :: p)) as [run rest].
    eapply IH; [eassumption|].
    clear H. revert b Hb. induction run as [|q run IHr]; intros b Hb; [exact Hb|].
    cbn [fold_left]. apply IHr. cbn [bump append_char styles].
    apply Forall_app. split; [exact Hb|]. constructor; [apply HP | constructor].
  - eapply IH; [eassumption|]. cbn [bump append_char styles].
    apply Forall_app. split; [exact Hb|]. constructor; [apply HP | constructor].
Qed.

Lemma transcode_styles_all (P : ascii -> Prop) env text :
  P (slot_char 0) -> P (slot_char 1) -> (forall s h, P (style_for_state s h)) ->
  Forall P (transcode env text).2.
Proof.
  intros H0 H1 HP. unfold transcode.
  set (msg := c_str (default [] text)).
  set (b00 := if hex_stamp_text env then _ else _).
  assert (Hb00 : Forall P (styles b00)).
  { subst b00. destruct (hex_stamp_text env); [|constructor].
    destruct (stamp env); [|constructor].
    cbn [styles]. apply Forall_replicate. exact H0. }
  set (b1 := if has_prefix ctcp_action msg then _ else _).
  assert (Hb1 : Forall P (styles b1)).
  { subst b1. destruct (has_prefix ctcp_action msg).
    - cbn [styles].
      assert (Hfold : forall body b, Forall P (styles b) ->
                Forall P (styles (fold_left (fun b c => append_char b c (slot_char 1)) body b))).
      { induction body as [|c body IHb]; intros b Hb; [exact Hb|].
        cbn [fold_left]. apply IHb. cbn [append_char styles].
        apply Forall_app. split; [exact Hb|]. constructor; [exact H1 | constructor]. }
      apply Hfold. cbn [styles]. apply Forall_app. split; [exact Hb00|].
      repeat constructor; exact H1.
    - destruct (scan _ msg init_state _) as [[s b]|] eqn:E; [|exact Hb00].
      eapply scan_loop_styles_all; [exact HP | exact E | exact Hb00]. }
  clearbody b1.
  destruct (match last (out b1) with Some c => negb (is_char 10 c) | None => true end);
    cbn [snd]; [|exact Hb1].
  apply Forall_app. split; [exact Hb1|]. constructor; [exact H0 | constructor].
Qed.

(** X1. Every style tag [append_text] writes selects an entry that
    [build_style_table] has assigned in a table of 58 entries: the tag is
    one of the slots the table defines (never 20, 21, 39 or 40, which the
    builder leaves as they were), and the entry is the one the layout gives,
    whatever the array held before. *)
Theorem style_tags_select_built_entries env text table fsize :
  length table = 58%nat ->
  Forall (fun c =>
            0 <= style_index c <= 57
            /\ emitted_slot (style_index c) = true
            /\ build_style_table table fsize !! Z.to_nat (style_index c)
               = Some (style_entry (style_index c) fsize))
         (transcode env text).2.
Proof.
  intros Hlen.
  assert (Hslot : forall k, emitted_slot k = true ->
            0 <= style_index (slot_char k) <= 57
            /\ emitted_slot (style_index (slot_char k)) = true
            /\ build_style_table table fsize !! Z.to_nat (style_index (slot_char k))
               = Some (style_entry (style_index (slot_char k)) fsize)).
  { intros k Hk. pose proof (proj1 (emitted_slot_iff k) Hk) as Hr.
    rewrite style_index_slot_char by lia.
    split; [lia|]. split; [exact Hk|].
    rewrite <- (Z2Nat.id k) at 2 by lia.
    apply build_style_table_lookup; [exact Hlen|]. rewrite Z2Nat.id by lia. exact Hk. }
  apply transcode_styles_all.
  - apply Hslot. reflexivity.
  - apply Hslot. reflexivity.
  - intros s h. rewrite style_for_state_slot. apply Hslot, slot_for_state_emitted.
Qed.

Lemma style_tags_select_built_entries_witness :
  Forall (fun c =>
            0 <= style_index c <= 57
            /\ emitted_slot (style_index c) = true
            /\ build_style_table (replicate 58 (mkEntry FL_RED FL_COURIER 0 0)) 14
                 !! Z.to_nat (style_index c)
               = Some (style_entry (style_index c) 14))
         (transcode no_stamp (Some (chr 2 :: lit "hi http://x"))).2.
Proof.
  exact (style_tags_select_built_entries no_stamp (Some (chr 2 :: lit "hi http://x"))
           (replicate 58 (mkEntry FL_RED FL_COURIER 0 0)) 14 eq_refl).
Defined.

(** X2. In the table [build_style_table] builds, a slot of the underline
    region has the very entry of its plain slot (underline has no rendering
    of its own), and a slot of the bold region has the colour and size of
    its plain slot with the bold font. *)
Theorem bold_and_underline_entries table fsize (k : Z) :
  length table = 58%nat ->
  emitted_slot k = true ->
  (38 <= k <= 56 ->
   build_style_table table fsize !! Z.to_nat k
   = build_style_table table fsize !! Z.to_nat (plain_slot k))
  /\ (19 <= k <= 37 ->
      exists e e0,
        build_style_table table fsize !! Z.to_nat k = Some e
        /\ build_style_table table fsize !! Z.to_nat (plain_slot k) = Some e0
        /\ color e = color e0 /\ size e = size e0 /\ font e = FL_COURIER_BOLD).
Proof.
  intros Hlen Hk. pose proof (proj1 (emitted_slot_iff k) Hk) as Hr.
  assert (Hn : exists n, k = Z.of_nat n /\ (n < 58)%nat)
    by (exists (Z.to_nat k); lia).
  destruct Hn as (n & -> & Hn58). rewrite Nat2Z.id.
  do 58 (destruct table as [|? table]; [discriminate Hlen|]).
  destruct table; [|discriminate Hlen]. clear Hlen.
  split.
  - intros Hu.
    do 58 (destruct n as [|n]; [first [lia | reflexivity]|]). lia.
  - intros Hb.
    do 58 (destruct n as [|n];
           [first [lia | (eexists _, _; repeat split; reflexivity)]|]). lia.
Qed.

Lemma bold_and_underline_entries_witness :
  build_style_table (replicate 58 (mkEntry FL_RED FL_COURIER 0 0)) 14 !! Z.to_nat 45
  = build_style_table (replicate 58 (mkEntry FL_RED FL_COURIER 0 0)) 14
      !! Z.to_nat (plain_slot 45).
Proof.
  apply (proj1 (bold_and_underline_entries
                  (replicate 58 (mkEntry FL_RED FL_COURIER 0 0)) 14 45 eq_refl eq_refl)).
  lia.
Defined.

(** *** What a call writes, branch by branch *)

Lemma url_run_fold_any st run : forall b,
  fold_left (fun b q => bump (append_char b q st)) run b
  = mkBuf (out b ++ run) (styles b ++ replicate (length run) st)
          (out_pos b + Z.of_nat (length run)).
Proof.
  induction run as [|q run IH]; intros b.
  - simpl. rewrite !app_nil_r, Z.add_0_r. destruct b; reflexivity.
  - cbn [fold_left]. rewrite IH. unfold bump, append_char. cbn [out styles out_pos].
    rewrite <- !app_assoc. cbn [length replicate app]. f_equal. lia.
Qed.

Lemma start_buf_eq env :
  (if hex_stamp_text env then
     match stamp env with
     | Some tbuf =>
         mkBuf (c_str tbuf ++ lit " ") (replicate (length (c_str tbuf) + 1) (slot_char 0)) 0
     | None => mkBuf [] [] 0
     end
   else mkBuf [] [] 0)
  = mkBuf (out (start_buf env)) (styles (start_buf env)) 0.
Proof.
  unfold start_buf, stamp_text.
  destruct (hex_stamp_text env); [|reflexivity].
  destruct (stamp env); [|reflexivity].
  cbn [out styles]. rewrite length_app. reflexivity.
Qed.

Lemma transcode_split env text :
  transcode env text
  = let msg := c_str (default [] text) in
    finish_line
      (if has_prefix ctcp_action msg then
         let b := mkBuf (stamp_text env ++ lit "* ")
                        (styles (start_buf env) ++ replicate 2 (slot_char 1))
                        (out_pos (start_buf env)) in
         let b := fold_left (fun b c => append_char b c (slot_char 1)) (action_body msg) b in
         mkBuf (out b) (styles b) (out_pos b + 2)
       else
         match scan (detect_nick msg) msg init_state (start_buf env) with
         | Some (_, b) => b
         | None => start_buf env
         end).
Proof.
  unfold transcode. rewrite start_buf_eq. reflexivity.
Qed.

Lemma action_fold body st : forall b,
  fold_left (fun b c => append_char b c st) body b
  = mkBuf (out b ++ body) (styles b ++ replicate (length body) st) (out_pos b).
Proof.
  induction body as [|c body IH]; intros b.
  - simpl. rewrite !app_nil_r. destruct b; reflexivity.
  - cbn [fold_left]. rewrite IH. cbn [append_char out styles out_pos length replicate].
    rewrite <- !app_assoc. reflexivity.
Qed.

Lemma url_char_not_control c : url_char c = true -> is_control c = false.
Proof.
  unfold url_char, is_control, is_char. intros H.
  apply andb_prop in H as [_ H]. apply Z.leb_le in H.
  repeat (apply orb_false_intro); apply Z.eqb_neq; lia.
Qed.

Lemma sublist_app_skip {A} (pre l k : list A) : l `sublist_of` k -> l `sublist_of` pre ++ k.
Proof. intros H. induction pre as [|x pre IH]; [exact H|]. apply sublist_cons. exact IH. Qed.

(** What the main loop adds to [out]: the same bytes whatever the parse
    state, the nick and the buffer it starts from; they are bytes of the
    message, in order, none of them a formatting code. *)
Lemma scan_loop_out fuel : forall p nk1 nk2 s1 s2 b1 b2 s1' b1' s2' b2',
  scan_loop fuel nk1 p s1 b1 = Some (s1', b1') ->
  scan_loop fuel nk2 p s2 b2 = Some (s2', b2') ->
  exists d, out b1' = out b1 ++ d /\ out b2' = out b2 ++ d
            /\ d `sublist_of` p
            /\ Forall (fun c => is_control c = false) d.
Proof.
  induction fuel as [|fuel IH]; intros p nk1 nk2 s1 s2 b1 b2 s1' b1' s2' b2' H1 H2;
    [discriminate|].
  destruct p as [|ch p].
  { injection H1 as <- <-. injection H2 as <- <-.
    exists []. rewrite !app_nil_r. repeat split; constructor. }
  cbn [scan_loop] in H1, H2.
  loop_branches ch p;
    try (destruct (IH _ _ _ _ _ _ _ _ _ _ _ H1 H2) as (d & E1 & E2 & Hsub & Hctl);
         exists d; repeat split; try assumption; apply sublist_cons; exact Hsub).
  - destruct (IH _ _ _ _ _ _ _ _ _ _ _ H1 H2) as (d & E1 & E2 & Hsub & Hctl).
    exists d. repeat split; try assumption.
    apply sublist_cons.
    destruct (skip_digits_suffix 2 p) as [pre1 Hp1].
    unfold after_color in Hsub.
    destruct (skip_digits 2 p) as [|c p1] eqn:Ep1.
    + apply sublist_nil_r in Hsub. subst d. apply sublist_nil_l.
    + rewrite Hp1. apply sublist_app_skip.
      destruct (is_char 44 c); [|exact Hsub].
      apply sublist_cons.
      destruct (skip_digits_suffix 2 p1) as [pre2 Hp2].
      rewrite Hp2. apply sublist_app_skip. exact Hsub.
  - pose proof (span_app url_char (ch :: p)) as Happ.
    pose proof (span_run_holds url_char (ch :: p)) as Hrun.
    destruct (span url_char (ch :: p)) as [run rest]. cbn [fst snd] in *.
    rewrite url_run_fold_any in H1, H2.
    destruct (IH _ _ _ _ _ _ _ _ _ _ _ H1 H2) as (d & E1 & E2 & Hsub & Hctl).
    cbn [out] in E1, E2.
    exists (run ++ d). rewrite !app_assoc. repeat split; try assumption.
    + rewrite <- Happ. apply sublist_app; [reflexivity | exact Hsub].
    + apply Forall_app. split; [|exact Hctl].
      eapply Forall_impl; [exact Hrun|]. intros c Hc. apply url_char_not_control, Hc.
  - destruct (IH _ _ _ _ _ _ _ _ _ _ _ H1 H2) as (d & E1 & E2 & Hsub & Hctl).
    cbn [out bump append_char] in E1, E2.
    exists (ch :: d). rewrite <- !app_assoc in E1, E2. cbn [app] in E1, E2.
    repeat split; try assumption.
    + apply sublist_skip. exact Hsub.
    + constructor; [|exact Hctl].
      unfold is_control.
      repeat match goal with H : is_char _ ch = false |- _ => rewrite H; clear H end.
      reflexivity.
Qed.

Lemma finish_line_out b :
  exists tail, (tail = [] \/ tail = [chr 10])
               /\ finish_line b = (out b ++ tail, styles b ++ replicate (length tail) (slot_char 0)).
Proof.
  unfold finish_line.
  destruct (match last (out b) with Some c => negb (is_char 10 c) | None => true end).
  - exists [chr 10]. split; [right; reflexivity | reflexivity].
  - exists []. split; [left; reflexivity|]. rewrite !app_nil_r. reflexivity.
Qed.

Lemma control_not_action c msg :
  is_control c = false -> has_prefix ctcp_action (c :: msg) = false.
Proof.
  intros Hc. unfold ctcp_action. cbn [has_prefix].
  destruct (Ascii.eqb (chr 1) c) eqn:E; [|reflexivity].
  apply Ascii.eqb_eq in E. subst c. discriminate Hc.
Qed.

Lemma no_url_start_tail c p : no_url_start (c :: p) -> no_url_start p.
Proof. intros H pre q E. apply (H (c :: pre) q). rewrite E. reflexivity. Qed.

(** The loop over a text without formatting codes and URL starts, outside a
    nick span: every byte goes out in the base slot. *)
Lemma scan_loop_clean fuel : forall p b,
  (length p < fuel)%nat ->
  Forall (fun c => is_control c = false) p ->
  no_url_start p ->
  scan_loop fuel no_nick p init_state b
  = Some (init_state,
          mkBuf (out b ++ p) (styles b ++ replicate (length p) (slot_char 0))
                (out_pos b + Z.of_nat (length p))).
Proof.
  induction fuel as [|fuel IH]; intros p b Hlen Hctl Hurl; [lia|].
  destruct p as [|ch p].
  - simpl. rewrite !app_nil_r, Z.add_0_r. destruct b; reflexivity.
  - pose proof (Forall_inv Hctl) as Hc. pose proof (Forall_inv_tail Hctl) as Hp.
    apply TranscoderClaims.is_control_false in Hc as (H1 & H3 & H2 & H31 & H22 & H15 & H7).
    cbn [scan_loop]. rewrite H1, H3, H2, H31, H22, H15, H7.
    rewrite (Hurl [] (ch :: p) eq_refl).
    cbn [no_nick nick_start nick_color Z.leb Z.compare andb].
    change (mkState (in_ctcp init_state) (fg init_state) (bold init_state)
                    (underline init_state)) with init_state.
    rewrite IH by (eauto using no_url_start_tail || (simpl in Hlen; lia)).
    cbn [bump append_char out styles out_pos length replicate].
    rewrite <- !app_assoc. cbn [app]. do 3 f_equal. lia.
Qed.

(** X3. A text without formatting codes, without a URL start and without
    a nick prefix is written as it is, after the timestamp run and before the
    newline that ends the line, and every position carries the base slot. *)
Theorem plain_text_is_base_styled env msg :
  no_nul msg ->
  Forall (fun c => is_control c = false) msg ->
  no_url_start msg ->
  detect_nick msg = no_nick ->
  exists tail,
    (tail = [] \/ tail = [chr 10])
    /\ transcode env (Some msg)
       = (stamp_text env ++ msg ++ tail,
          replicate (length (stamp_text env ++ msg ++ tail)) (slot_char 0)).
Proof.
  intros Hnul Hctl Hurl Hnick.
  rewrite transcode_split. change (default [] (Some msg)) with msg.
  rewrite c_str_id by exact Hnul.
  cbv zeta.
  assert (Hact : has_prefix ctcp_action msg = false).
  { destruct msg as [|c msg]; [reflexivity|].
    apply control_not_action. exact (Forall_inv Hctl). }
  rewrite Hact, Hnick. unfold scan.
  rewrite scan_loop_clean by (lia || assumption).
  destruct (finish_line_out
              (mkBuf (out (start_buf env) ++ msg)
                     (styles (start_buf env) ++ replicate (length msg) (slot_char 0))
                     (out_pos (start_buf env) + Z.of_nat (length msg))))
    as (tail & Htail & ->).
  exists tail. split; [exact Htail|].
  cbn [out styles start_buf]. rewrite <- !app_assoc.
  f_equal. rewrite !length_app, !replicate_add. reflexivity.
Qed.

Lemma plain_text_is_base_styled_witness :
  exists tail,
    (tail = [] \/ tail = [chr 10])
    /\ transcode (mkEnv true (Some (lit "12:00"))) (Some (lit "hello there"))
       = (stamp_text (mkEnv true (Some (lit "12:00"))) ++ lit "hello there" ++ tail,
          replicate (length (stamp_text (mkEnv true (Some (lit "12:00")))
                             ++ lit "hello there" ++ tail)) (slot_char 0)).
Proof.
  apply plain_text_is_base_styled.
  - repeat constructor.
  - repeat constructor.
  - intros pre q E.
    do 12 (destruct pre as [|? pre];
           [cbn [app] in E; subst q; reflexivity
           | cbn [app] in E; try discriminate E; injection E as _ E]).
  - reflexivity.
Defined.

Lemma action_body_closed body closing :
  (closing = [chr 1] \/ (closing = [] /\ last body <> Some (chr 1))) ->
  action_body (ctcp_action ++ body ++ closing) = body.
Proof.
  intros Hc. unfold action_body.
  replace (drop 8 (ctcp_action ++ body ++ closing)) with (body ++ closing) by reflexivity.
  destruct Hc as [->|[-> Hlast]].
  - rewrite last_snoc. change (is_char 1 (chr 1)) with true. cbv iota.
    apply removelast_last.
  - rewrite app_nil_r. destruct (last body) as [c|] eqn:E; [|reflexivity].
    destruct (is_char 1 c) eqn:Ec; [|reflexivity].
    exfalso. apply Hlast. f_equal. apply is_char_true in Ec.
    rewrite <- Ec. symmetry. apply chr_code.
Qed.

(** X4. A CTCP ACTION message, with or without its closing delimiter, is
    written as "* " and the body, all in the action slot; the body is copied
    byte for byte, formatting codes and URLs in it are not looked at. *)
Theorem action_is_action_styled env body closing :
  no_nul body ->
  (closing = [chr 1] \/ (closing = [] /\ last body <> Some (chr 1))) ->
  exists tail,
    (tail = [] \/ tail = [chr 10])
    /\ transcode env (Some (ctcp_action ++ body ++ closing))
       = (stamp_text env ++ lit "* " ++ body ++ tail,
          replicate (length (stamp_text env)) (slot_char 0)
          ++ replicate (2 + length body) (slot_char 1)
          ++ replicate (length tail) (slot_char 0)).
Proof.
  intros Hnul Hc.
  assert (Hmsg : no_nul (ctcp_action ++ body ++ closing)).
  { apply no_nul_app; [repeat constructor|].
    apply no_nul_app; [exact Hnul|].
    destruct Hc as [->|[-> _]]; repeat constructor. }
  rewrite transcode_split.
  change (default [] (Some (ctcp_action ++ body ++ closing)))
    with (ctcp_action ++ body ++ closing).
  rewrite c_str_id by exact Hmsg.
  cbv zeta.
  replace (has_prefix ctcp_action (ctcp_action ++ body ++ closing)) with true by reflexivity.
  rewrite action_body_closed by exact Hc.
  rewrite action_fold. cbn [out styles out_pos].
  match goal with |- context [finish_line ?b] =>
    destruct (finish_line_out b) as (tail & Htail & ->) end.
  exists tail. split; [exact Htail|].
  cbn [out styles start_buf]. rewrite <- !app_assoc.
  rewrite replicate_add, <- !app_assoc. reflexivity.
Qed.

Lemma action_is_action_styled_witness :
  exists tail,
    (tail = [] \/ tail = [chr 10])
    /\ transcode no_stamp (Some (ctcp_action ++ (chr 2 :: lit "waves") ++ [chr 1]))
       = (stamp_text no_stamp ++ lit "* " ++ (chr 2 :: lit "waves") ++ tail,
          replicate (length (stamp_text no_stamp)) (slot_char 0)
          ++ replicate (2 + length (chr 2 :: lit "waves")) (slot_char 1)
          ++ replicate (length tail) (slot_char 0)).
Proof.
  apply action_is_action_styled.
  - repeat constructor.
  - left. reflexivity.
Defined.

(** X5. Outside the ACTION form, what [append_text] writes between the
    timestamp run and the final newline is made of bytes of the message in
    their order, and none of them is a formatting code (0x01, 0x02, 0x03,
    0x07, 0x0F, 0x16, 0x1F): codes are dropped, nothing is added or
    reordered. *)
Theorem formatting_codes_are_dropped env text :
  has_prefix ctcp_action (c_str (default [] text)) = false ->
  exists body tail,
    (tail = [] \/ tail = [chr 10])
    /\ (transcode env text).1 = stamp_text env ++ body ++ tail
    /\ body `sublist_of` c_str (default [] text)
    /\ Forall (fun c => is_control c = false) body.
Proof.
  intros Hact. rewrite transcode_split. cbv zeta. rewrite Hact.
  set (msg := c_str (default [] text)).
  destruct (scan_loop_total (S (length msg)) (detect_nick msg) msg init_state
              (start_buf env) ltac:(lia)) as [[s b] Hscan].
  unfold scan. rewrite Hscan.
  destruct (scan_loop_out _ _ _ _ _ _ _ _ _ _ _ _ Hscan Hscan) as (d & Hout & _ & Hsub & Hctl).
  destruct (finish_line_out b) as (tail & Htail & ->).
  exists d, tail. cbn [fst]. rewrite Hout. cbn [out start_buf].
  rewrite <- app_assoc. auto.
Qed.

Lemma formatting_codes_are_dropped_witness :
  exists body tail,
    (tail = [] \/ tail = [chr 10])
    /\ (transcode no_stamp (Some (chr 2 :: lit "a" ++ chr 3 :: lit "12,4b"))).1
       = stamp_text no_stamp ++ body ++ tail
    /\ body `sublist_of` c_str (default [] (Some (chr 2 :: lit "a" ++ chr 3 :: lit "12,4b")))
    /\ Forall (fun c => is_control c = false) body.
Proof.
  apply formatting_codes_are_dropped. reflexivity.
Defined.

Lemma finish_line_fst b :
  (finish_line b).1
  = out b ++ (if match last (out b) with Some c => negb (is_char 10 c) | None => true end
              then [chr 10] else []).
Proof.
  unfold finish_line.
  destruct (last (out b)) as [c|]; [destruct (is_char 10 c)|]; cbn [fst negb];
    rewrite ?app_nil_r; reflexivity.
Qed.

Lemma stamp_text_end env :
  stamp_text env = [] \/ last (stamp_text env) = Some (chr 32).
Proof.
  unfold stamp_text. destruct (hex_stamp_text env); [|left; reflexivity].
  destruct (stamp env); [|left; reflexivity].
  right. apply last_snoc.
Qed.

Lemma finish_line_after_stamp env x sty1 sty2 pos1 pos2 :
  (finish_line (mkBuf (stamp_text env ++ x) sty1 pos1)).1
  = stamp_text env ++ (finish_line (mkBuf x sty2 pos2)).1.
Proof.
  rewrite !finish_line_fst. cbn [out]. rewrite <- app_assoc. do 2 f_equal.
  destruct (stamp_text_end env) as [->|Hend]; [reflexivity|].
  destruct x as [|c x] using rev_ind.
  - rewrite app_nil_r, Hend. reflexivity.
  - rewrite app_assoc, !last_snoc. reflexivity.
Qed.

(** X6. The visible text of a call does not depend on the timestamp
    preference beyond its prefix: with a timestamp the text is the timestamp
    run followed by exactly the text written without one (nick highlighting
    and the parse state change styles only). *)
Theorem timestamp_only_prefixes_the_text env text :
  (transcode env text).1 = stamp_text env ++ (transcode no_stamp text).1.
Proof.
  rewrite !transcode_split. cbv zeta.
  set (msg := c_str (default [] text)).
  destruct (has_prefix ctcp_action msg).
  - rewrite !action_fold. cbn [out styles out_pos].
    change (stamp_text no_stamp) with (@nil ascii). cbn [app].
    rewrite <- app_assoc. apply finish_line_after_stamp.
  - destruct (scan_loop_total (S (length msg)) (detect_nick msg) msg init_state
                (start_buf env) ltac:(lia)) as [[s1 b1] H1].
    destruct (scan_loop_total (S (length msg)) (detect_nick msg) msg init_state
                (start_buf no_stamp) ltac:(lia)) as [[s2 b2] H2].
    unfold scan. rewrite H1, H2.
    destruct (scan_loop_out _ _ _ _ _ _ _ _ _ _ _ _ H1 H2) as (d & E1 & E2 & _).
    cbn [out start_buf] in E1, E2. change (stamp_text no_stamp) with (@nil ascii) in E2.
    cbn [app] in E2.
    destruct b1 as [o1 st1 p1], b2 as [o2 st2 p2]. cbn [out] in E1, E2. subst o1 o2.
    apply finish_line_after_stamp.
Qed.

(** *** The URL detector *)

Lemma g_ascii_tolower_idem c : g_ascii_tolower (g_ascii_tolower c) = g_ascii_tolower c.
Proof.
  unfold g_ascii_tolower.
  destruct ((65 <=? code c) && (code c <=? 90)) eqn:E; [|rewrite E; reflexivity].
  apply andb_prop in E as [E1 E2]. apply Z.leb_le in E1, E2.
  rewrite code_chr by lia.
  replace ((65 <=? code c + 32) && (code c + 32 <=? 90)) with false; [reflexivity|].
  symmetry. apply andb_false_intro2. apply Z.leb_gt. lia.
Qed.

Lemma ascii_caseprefix_iff pat : forall p,
  ascii_caseprefix pat p = true
  <-> exists pre rest, p = pre ++ rest
                       /\ map g_ascii_tolower pre = map g_ascii_tolower pat.
Proof.
  induction pat as [|a pat IH]; intros p.
  - split; [intros _; exists [], p; split; reflexivity | reflexivity].
  - destruct p as [|c p]; cbn [ascii_caseprefix].
    + split; [discriminate|]. intros (pre & rest & E & Hm).
      destruct pre; [discriminate Hm | discriminate E].
    + destruct (Ascii.eqb (g_ascii_tolower a) (g_ascii_tolower c)) eqn:Eac.
      * apply Ascii.eqb_eq in Eac. rewrite IH. split.
        -- intros (pre & rest & -> & Hm). exists (c :: pre), rest.
           split; [reflexivity|]. cbn [map]. rewrite Hm, Eac. reflexivity.
        -- intros (pre & rest & E & Hm). destruct pre as [|c' pre]; [discriminate Hm|].
           injection E as -> ->. injection Hm as _ Hm. exists pre, rest. auto.
      * apply Ascii.eqb_neq in Eac. split; [discriminate|].
        intros (pre & rest & E & Hm). destruct pre as [|c' pre]; [discriminate Hm|].
        injection E as -> _. injection Hm as Hc _. congruence.
Qed.

(** X7. [looks_like_url] holds of a text exactly when the text begins, up
    to ASCII case, with one of "http://", "https://", "ftp://", "irc://" and
    "www."; so it holds of a text whenever it holds of a beginning of it, and
    lower-casing the text does not change the answer. *)
Theorem looks_like_url_is_a_scheme_prefix (p : cstring) :
  (looks_like_url p = true
   <-> exists scheme pre rest,
         scheme ∈ url_prefixes /\ p = pre ++ rest
         /\ map g_ascii_tolower pre = lit scheme)
  /\ (forall q, looks_like_url p = true -> looks_like_url (p ++ q) = true)
  /\ looks_like_url (map g_ascii_tolower p) = looks_like_url p.
Proof.
  assert (Hiff : forall p : cstring, looks_like_url p = true
            <-> exists scheme pre rest,
                  scheme ∈ url_prefixes /\ p = pre ++ rest
                  /\ map g_ascii_tolower pre = lit scheme).
  { clear p. intros p. split.
    - intros H. unfold looks_like_url in H.
      destruct p as [|c p]; [discriminate|].
      repeat (apply orb_prop in H as [H|H]);
        apply ascii_caseprefix_iff in H as (pre & rest & E & Hm);
        match type of Hm with _ = map _ (lit ?s) => exists s, pre, rest end;
        (split; [unfold url_prefixes; set_solver | split; [exact E | exact Hm]]).
    - intros (scheme & pre & rest & Hin & -> & Hm).
      assert (Hpre : pre <> []).
      { intros ->. unfold url_prefixes in Hin.
        repeat (apply elem_of_cons in Hin as [->|Hin]); try discriminate Hm.
        inversion Hin. }
      unfold looks_like_url. destruct (pre ++ rest) as [|c pr] eqn:Epr.
      { destruct pre; [congruence | discriminate Epr]. }
      rewrite <- Epr. clear Epr.
      assert (Hcp : ascii_caseprefix (lit scheme) (pre ++ rest) = true).
      { apply ascii_caseprefix_iff. exists pre, rest. split; [reflexivity|].
        rewrite Hm. unfold url_prefixes in Hin.
        repeat (apply elem_of_cons in Hin as [->|Hin]); try reflexivity.
        inversion Hin. }
      unfold url_prefixes in Hin.
      repeat (apply elem_of_cons in Hin as [->|Hin]);
        try (rewrite Hcp; rewrite ?orb_true_r; reflexivity).
      inversion Hin. }
  split; [apply Hiff|]. split.
  - intros q H. apply Hiff in H as (scheme & pre & rest & Hin & -> & Hm).
    apply Hiff. exists scheme, pre, (rest ++ q). rewrite app_assoc. auto.
  - destruct (looks_like_url p) eqn:E.
    + apply Hiff in E as (scheme & pre & rest & Hin & -> & Hm).
      apply Hiff. exists scheme, (map g_ascii_tolower pre), (map g_ascii_tolower rest).
      rewrite map_app. split; [exact Hin|]. split; [reflexivity|].
      rewrite map_map. rewrite <- Hm. apply map_ext. intros c. apply g_ascii_tolower_idem.
    + destruct (looks_like_url (map g_ascii_tolower p)) eqn:E'; [|reflexivity].
      apply Hiff in E' as (scheme & pre & rest & Hin & Ep & Hm).
      rewrite <- E. symmetry. apply Hiff.
      exists scheme, (take (length pre) p), (drop (length pre) p).
      split; [exact Hin|]. split; [symmetry; apply take_drop|].
      rewrite <- Hm.
      assert (Hpre : pre = map g_ascii_tolower (take (length pre) p)).
      { rewrite <- (take_app_length pre rest) at 1. rewrite <- Ep.
        rewrite <- fmap_take. reflexivity. }
      rewrite Hpre at 2. rewrite map_map. apply map_ext.
      intros c. symmetry. apply g_ascii_tolower_idem.
Qed.

Lemma looks_like_url_is_a_scheme_prefix_witness :
  looks_like_url (lit "HTTPS://Example.org/x") = true
  /\ looks_like_url (lit "WWW." ++ lit "irc") = true.
Proof.
  destruct (looks_like_url_is_a_scheme_prefix (lit "HTTPS://Example.org/x")) as (Hiff & _ & _).
  destruct (looks_like_url_is_a_scheme_prefix (lit "WWW.")) as (_ & Hext & _).
  split.
  - apply Hiff. exists "https://"%string, (lit "HTTPS://"), (lit "Example.org/x").
    split; [apply list_elem_of_In; cbn; tauto|]. split; reflexivity.
  - apply Hext. reflexivity.
Defined.

(** *** Nick highlighting *)

Lemma span_exact f run : forall rest,
  Forall (fun c => f c = true) run -> first_is f rest = false ->
  span f (run ++ rest) = (run, rest).
Proof.
  induction run as [|c run IH]; intros rest Hrun Hrest.
  - destruct rest as [|c rest]; [reflexivity|]. cbn [app span].
    cbn [first_is] in Hrest. rewrite Hrest. reflexivity.
  - change ((c :: run) ++ rest) with (c :: (run ++ rest)).
    change (span f (c :: (run ++ rest)))
      with (if f c then let '(r1, r2) := span f (run ++ rest) in (c :: r1, r2)
            else ([], c :: (run ++ rest))).
    rewrite (Forall_inv Hrun), (IH rest (Forall_inv_tail Hrun) Hrest). reflexivity.
Qed.

Lemma scan_loop_styles_ext fuel : forall nk p s b s' b',
  scan_loop fuel nk p s b = Some (s', b') -> exists d, styles b' = styles b ++ d.
Proof.
  induction fuel as [|fuel IH]; intros nk p s b s' b' H; [discriminate|].
  destruct p as [|ch p]; [injection H as <- <-; exists []; symmetry; apply app_nil_r|].
  cbn [scan_loop] in H.
  loop_branches ch p; try (eapply IH; eassumption).
  - destruct (span url_char (ch :: p)) as [run rest].
    rewrite url_run_fold_any in H. apply IH in H as [d Hd]. cbn [styles] in Hd.
    eexists. rewrite Hd, <- app_assoc. reflexivity.
  - apply IH in H as [d Hd]. cbn [styles bump append_char] in Hd.
    eexists. rewrite Hd, <- app_assoc. reflexivity.
Qed.

(** The loop over the bytes of the nick, inside the nick span. *)
Lemma scan_nick_run nk colour : forall run rest b,
  nick_color nk = colour -> 0 <= colour <= 15 ->
  Forall (fun c => is_control c = false) run ->
  (forall pre q, run ++ rest = pre ++ q -> (length pre < length run)%nat ->
                 looks_like_url q = false) ->
  0 <= nick_start nk <= out_pos b ->
  out_pos b + Z.of_nat (length run) <= nick_start nk + nick_len nk ->
  scan nk (run ++ rest) init_state b
  = scan nk rest init_state
      (mkBuf (out b ++ run) (styles b ++ replicate (length run) (slot_char (3 + colour)))
             (out_pos b + Z.of_nat (length run))).
Proof.
  induction run as [|c run IH]; intros rest b Hcol Hrange Hctl Hurl Hlo Hhi.
  - cbn [app length replicate]. rewrite !app_nil_r, Z.add_0_r. destruct b; reflexivity.
  - cbn [app]. rewrite TranscoderClaims.scan_step_visible;
      [| exact (Forall_inv Hctl) | apply (Hurl [] (c :: run ++ rest) eq_refl); simpl; lia].
    assert (Hst : styled_state nk b init_state = mkState false colour false false).
    { unfold styled_state. rewrite Hcol.
      replace ((0 <=? nick_start nk) && (0 <=? colour) && (nick_start nk <=? out_pos b)
               && (out_pos b <? nick_start nk + nick_len nk)) with true; [reflexivity|].
      symmetry. rewrite !andb_true_iff, !Z.leb_le, Z.ltb_lt.
      cbn [length] in Hhi. lia. }
    rewrite Hst.
    assert (Hsty : style_for_state (mkState false colour false false) false
                   = slot_char (3 + colour)).
    { unfold style_for_state. cbn [in_ctcp fg bold underline andb negb].
      replace ((0 <=? colour) && (colour <? 16)) with true; [reflexivity|].
      symmetry. rewrite andb_true_iff, Z.leb_le, Z.ltb_lt. lia. }
    rewrite Hsty, IH; cbn [bump append_char out styles out_pos length].
    + rewrite <- !app_assoc. cbn [app replicate]. do 2 f_equal. lia.
    + exact Hcol.
    + exact Hrange.
    + exact (Forall_inv_tail Hctl).
    + intros pre q E Hlt.
      apply (Hurl (c :: pre) q); [cbn [app]; rewrite E; reflexivity | simpl; lia].
    + lia.
    + cbn [length] in Hhi. lia.
Qed.

(** X8. A message of the form "<nick>..." written without a timestamp:
    when the nick holds no formatting code, no blank and no [>], no URL
    starts at or before its last byte, and its byte sum fits an [int], the
    bracket before it is in the base slot, every byte of the nick is in
    the colour slot [3 + (byte sum mod 16)], and the closing bracket is in
    the base slot again. *)
Theorem bracketed_nick_is_hash_coloured (nick rest : cstring) :
  no_nul nick -> no_nul rest ->
  Forall (fun c => is_control c = false /\ is_char 62 c = false /\ is_char 32 c = false) nick ->
  (forall pre q, lit "<" ++ nick ++ lit ">" ++ rest = pre ++ q ->
                 (length pre <= length nick)%nat -> looks_like_url q = false) ->
  byte_sum nick <= INT_MAX ->
  exists more,
    (transcode no_stamp (Some (lit "<" ++ nick ++ lit ">" ++ rest))).2
    = slot_char 0 :: replicate (length nick) (slot_char (3 + byte_sum nick mod 16))
      ++ slot_char 0 :: more.
Proof.
  intros Hn Hr Hnick Hurl Hfit.
  set (msg := lit "<" ++ nick ++ lit ">" ++ rest).
  assert (Hmsg : no_nul msg).
  { subst msg. apply no_nul_app; [repeat constructor|].
    apply no_nul_app; [exact Hn|]. apply no_nul_app; [repeat constructor | exact Hr]. }
  assert (Hhash : hash_nick_color nick = byte_sum nick mod 16).
  { unfold hash_nick_color. rewrite hash_sum_no_overflow by (pose proof (byte_sum_nonneg nick); lia).
    rewrite Z.add_0_l. apply Z.rem_mod_nonneg; [apply byte_sum_nonneg | lia]. }
  pose proof (Z.mod_pos_bound (byte_sum nick) 16 ltac:(lia)) as Hmod.
  assert (Hdet : detect_nick msg
                 = mkNick 1 (Z.of_nat (length nick)) (byte_sum nick mod 16)).
  { subst msg. unfold detect_nick.
    change (span is_blank (lit "<" ++ nick ++ lit ">" ++ rest))
      with (@nil ascii, lit "<" ++ nick ++ lit ">" ++ rest).
    cbn [app lit list_ascii_of_string length].
    change (is_char 60 "<"%char) with true. cbv iota.
    rewrite span_exact.
    - change (is_char 62 ">"%char) with true. cbv iota. rewrite Hhash. reflexivity.
    - eapply Forall_impl; [exact Hnick|]. intros c (_ & H1 & H2). rewrite H1, H2. reflexivity.
    - reflexivity. }
  rewrite transcode_split. change (default [] (Some msg)) with msg.
  rewrite c_str_id by exact Hmsg. cbv zeta.
  replace (has_prefix ctcp_action msg) with false by reflexivity.
  rewrite Hdet.
  set (nk := mkNick 1 (Z.of_nat (length nick)) (byte_sum nick mod 16)).
  assert (Hscan : scan nk msg init_state (start_buf no_stamp)
                  = scan nk rest init_state
                      (mkBuf (lit "<" ++ nick ++ lit ">")
                             (slot_char 0
                              :: replicate (length nick) (slot_char (3 + byte_sum nick mod 16))
                              ++ [slot_char 0])
                             (Z.of_nat (length nick) + 2))).
  { assert (Hst : forall b,
              out_pos b < 1 \/ 1 + Z.of_nat (length nick) <= out_pos b ->
              styled_state nk b init_state = init_state).
    { intros b Hb. unfold styled_state. cbn [nk nick_start nick_len nick_color].
      destruct (_ && _ && _ && _) eqn:E; [|reflexivity].
      rewrite !andb_true_iff, !Z.leb_le, Z.ltb_lt in E. lia. }
    subst msg. change (lit "<" ++ nick ++ lit ">" ++ rest)
      with ("<"%char :: nick ++ lit ">" ++ rest).
    rewrite TranscoderClaims.scan_step_visible; [|reflexivity|reflexivity].
    rewrite Hst by (left; cbn; lia).
    rewrite (scan_nick_run nk (byte_sum nick mod 16)).
    - cbn [app lit list_ascii_of_string].
      rewrite TranscoderClaims.scan_step_visible; [|reflexivity|reflexivity].
      rewrite Hst by (right; cbn; lia).
      cbn [bump append_char out styles out_pos start_buf stamp_text no_stamp
           hex_stamp_text length replicate app].
      unfold bump, append_char. cbn [out styles out_pos app].
      change (style_for_state init_state false) with (slot_char 0).
      do 2 f_equal. lia.
    - reflexivity.
    - lia.
    - eapply Forall_impl; [exact Hnick|]. intros c (H & _). exact H.
    - intros pre q E Hlt. apply (Hurl ("<"%char :: pre) q).
      + change (lit "<" ++ nick ++ lit ">" ++ rest)
          with ("<"%char :: (nick ++ lit ">" ++ rest)).
        rewrite E. reflexivity.
      + simpl. lia.
    - cbn. lia.
    - cbn. lia. }
  rewrite Hscan.
  destruct (scan_loop_total (S (length rest)) nk rest init_state
              (mkBuf (lit "<" ++ nick ++ lit ">")
                     (slot_char 0
                      :: replicate (length nick) (slot_char (3 + byte_sum nick mod 16))
                      ++ [slot_char 0])
                     (Z.of_nat (length nick) + 2)) ltac:(lia)) as [[s b] Hb].
  unfold scan. rewrite Hb.
  apply scan_loop_styles_ext in Hb as [d Hd]. cbn [styles] in Hd.
  destruct (finish_line_out b) as (tail & _ & ->). cbn [snd]. rewrite Hd.
  exists (d ++ replicate (length tail) (slot_char 0)).
  cbn [app]. rewrite <- !app_assoc. reflexivity.
Qed.

Lemma bracketed_nick_is_hash_coloured_witness :
  exists more,
    (transcode no_stamp (Some (lit "<" ++ lit "bob" ++ lit ">" ++ lit " hi"))).2
    = slot_char 0 :: replicate (length (lit "bob")) (slot_char (3 + byte_sum (lit "bob") mod 16))
      ++ slot_char 0 :: more.
Proof.
  apply bracketed_nick_is_hash_coloured.
  - repeat constructor.
  - repeat constructor.
  - repeat constructor.
  - intros pre q E Hlen.
    do 4 (destruct pre as [|? pre];
          [cbn [app] in E; subst q; reflexivity
          | cbn [app] in E; injection E as _ E]).
    simpl in Hlen. lia.
  - vm_compute. discriminate.
Defined.

End TranscoderExtra.

(** ** More on the spell subsystem *)

Module SpellExtra.
Import Spell SpellSpec SpellMore SpellClaims.

Section WithEnchant.
Context `{Enchant} `{GLibUnicode}.

(** *** The ignore set *)

Lemma c_str_cons_no_nul (w : cstring) : no_nul w -> w <> [] -> exists c w', c_str w = c :: w' /\ w = c :: w'.
Proof.
  intros Hn Hne. rewrite c_str_id by exact Hn.
  destruct w as [|c w']; [congruence|]. eauto.
Qed.

(** X9. A word that was ignored is never flagged afterwards, whatever the
    provider, the dictionaries and the text that follows the word: after
    [spell_ignore_word w], [spell_check_word] answers "correct" for every
    pointer at which the next [length w] bytes are [w]. *)
Theorem ignored_word_is_never_flagged (st : SpellState) (w p : cstring) :
  no_nul w -> w <> [] -> take (length w) p = w ->
  spell_check_word (spell_ignore_word st (Some w)) (Some p) (length w) = true
  /\ w ∈ spell_session_ignores (spell_ignore_word st (Some w)).
Proof.
  intros Hn Hne Hp.
  destruct (c_str_cons_no_nul w Hn Hne) as (c & w' & Hc & Hw).
  assert (Hin : w ∈ spell_session_ignores (spell_ignore_word st (Some w))).
  { unfold spell_ignore_word. rewrite Hc. cbn [spell_session_ignores].
    rewrite <- Hw. set_solver. }
  split; [|exact Hin].
  unfold spell_check_word.
  destruct (negb _ || is_nil _ || is_null (Some p) || (length w =? 0)%nat); [reflexivity|].
  change (default [] (Some p)) with p.
  destruct ((4 <=? length w)%nat && _); [reflexivity|].
  destruct (negb (g_unichar_isalpha (g_utf8_get_char p))); [reflexivity|].
  cbv zeta. rewrite Hp.
  rewrite (bool_decide_eq_true_2 _ Hin). reflexivity.
Qed.

(** X10. [spell_cleanup] is safe to repeat and to call before any start:
    a second call changes nothing, and on a state where dictionaries exist
    only under a broker the result is the state of program start (no broker,
    no dictionaries, nothing ignored). *)
Theorem spell_cleanup_is_idempotent (st : SpellState) :
  spell_cleanup (spell_cleanup st) = spell_cleanup st
  /\ spell_cleanup (spell_start (have_enchant st)) = spell_start (have_enchant st)
  /\ (spell_inv st -> spell_cleanup st = spell_start (have_enchant st)).
Proof.
  split; [|split].
  - unfold spell_cleanup. destruct (spell_broker st); reflexivity.
  - reflexivity.
  - intros Hinv. unfold spell_cleanup, spell_start.
    destruct (spell_broker st) eqn:E; [reflexivity|]. rewrite (Hinv E). reflexivity.
Qed.

(** X11. [spell_init_broker] does nothing on a subsystem that is already
    started: a second call, with the same or another language list, leaves
    the state as the first call left it, and once a broker exists it asks
    the broker for nothing. A changed language list takes effect only after
    [spell_cleanup]. *)
Theorem spell_init_broker_once (langs langs' : list ascii) (st : SpellState) :
  spell_init_broker langs' (spell_init_broker langs st) = spell_init_broker langs st
  /\ (forall st', is_Some (spell_broker st') -> spell_init_broker_log langs' st' = (st', [])).
Proof.
  assert (Hstarted : forall st', is_Some (spell_broker st') ->
            spell_init_broker_log langs' st' = (st', [])).
  { intros st' Hb. unfold spell_init_broker_log.
    rewrite (bool_decide_eq_true_2 _ Hb), orb_true_r. reflexivity. }
  split; [|exact Hstarted].
  unfold spell_init_broker at 2 3. unfold spell_init_broker_log.
  destruct (negb (have_enchant st) || bool_decide (is_Some (spell_broker st))) eqn:Eg.
  - cbn [fst]. unfold spell_init_broker, spell_init_broker_log. rewrite Eg. reflexivity.
  - destruct enchant_broker_init as [broker|] eqn:Einit.
    + destruct (request_langs _ _ _ _) as [dicts requests].
      destruct dicts; cbn [fst]; unfold spell_init_broker;
        rewrite Hstarted by (eexists; reflexivity); reflexivity.
    + cbn [fst]. unfold spell_init_broker, spell_init_broker_log.
      rewrite Eg, Einit. reflexivity.
Qed.

(** *** The tokenizer *)

Lemma find_words_loop_tokenized fuel : forall st text p words r,
  sequences_inside p ->
  find_words_loop fuel st text p words = Some r ->
  exists r', r = words ++ r' /\ tokenized st text p r'.
Proof.
  induction fuel as [|fuel IH]; intros st text p words r Hin Hr; [discriminate|].
  destruct p as [|c p].
  { injection Hr as <-. exists []. rewrite app_nil_r.
    split; [reflexivity | apply tokenized_end, cp_run_here]. }
  cbn [find_words_loop] in Hr.
  destruct (utf8_while (S (length (c :: p))) not_alpha (c :: p)) as [ws|] eqn:Eskip;
    [|discriminate].
  apply utf8_while_run in Eskip as (Hskip & Hstart & Hin1); [|exact Hin].
  destruct ws as [|c1 ws].
  { injection Hr as <-. exists []. rewrite app_nil_r.
    split; [reflexivity | apply tokenized_end, Hskip]. }
  destruct Hstart as [Hstart|Hstart]; [discriminate|].
  unfold not_alpha in Hstart. apply negb_false_iff in Hstart.
  set (word_start := c1 :: ws) in *.
  destruct (utf8_while (S (length word_start)) word_char word_start) as [word_end|] eqn:Eword;
    [|discriminate].
  apply utf8_while_run in Eword as (Hword & Hend & Hin2); [|exact Hin1].
  assert (Hlen : (length word_end < length word_start)%nat).
  { apply (cp_run_progress word_char); auto using alpha_is_word_char. }
  replace (0 <? length word_start - length word_end)%nat with true in Hr
    by (symmetry; apply Nat.ltb_lt; lia).
  apply IH in Hr as (r'' & -> & Htok); [|exact Hin2].
  eexists (_ :: r''). split; [rewrite <- app_assoc; reflexivity|].
  apply (tokenized_word st text (c :: p) word_start word_end r'');
    try assumption. discriminate.
Qed.

(** X12. On a text in which the sequences lie inside the text (no step
    passes its end), what [spell_find_words] returns is the tokenization of
    the whole text: before the first span, between two spans and after the
    last one the text holds only code points that are not alphabetic, every
    span is a maximal word there, and a span is flagged exactly when
    [spell_check_word] rejects the word at its start with its length. *)
Theorem spell_find_words_tokenizes (st : SpellState) (text : list ascii) :
  sequences_inside (c_str text) ->
  tokenized st (c_str text) (c_str text) (spell_find_words st (Some text)).
Proof.
  intros Hin. unfold spell_find_words. set (t := c_str text) in *.
  destruct (find_words_loop_total (S (length t)) st t t [] Hin ltac:(lia)) as [r Hr].
  rewrite Hr. cbn [default].
  apply find_words_loop_tokenized in Hr as (r' & -> & Htok); [exact Htok | exact Hin].
Qed.

(** *** Seeding and the session vocabulary *)

Lemma request_langs_grows broker lang_array : forall dicts requests,
  dicts <> [] -> fst (request_langs broker lang_array dicts requests) <> [].
Proof.
  induction lang_array as [|lang rest IH]; intros dicts requests Hd; simpl; [exact Hd|].
  destruct lang as [|c lang]; [apply IH; exact Hd|].
  destruct (enchant_broker_request_dict broker (c :: lang));
    apply IH; [destruct dicts; discriminate | exact Hd].
Qed.

Lemma request_langs_some broker lang_array : forall dicts requests,
  Exists (fun lang => is_Some (enchant_broker_request_dict broker lang))
         (filter (fun lang => lang <> []) lang_array) ->
  fst (request_langs broker lang_array dicts requests) <> [].
Proof.
  induction lang_array as [|lang rest IH]; intros dicts requests Hsome; simpl in *.
  - inversion Hsome.
  - destruct lang as [|c lang]; [apply IH; exact Hsome|].
    rewrite filter_cons_True in Hsome by discriminate.
    destruct (enchant_broker_request_dict broker (c :: lang)) eqn:E.
    + apply request_langs_grows. destruct dicts; discriminate.
    + apply IH. inversion Hsome as [? ? Hhd|]; subst; [|assumption].
      rewrite E in Hhd. destruct Hhd; discriminate.
Qed.

(** X13. When the broker provides at least one language of the list,
    every dictionary loaded at start has been given "HexChat", "FlexChat"
    and "IRC", and, the session vocabulary behaving as its contract says,
    [spell_check_word] never flags one of the three. *)
Theorem listed_dictionaries_accept_the_seed_terms (langs : list ascii) (broker : EnchantBroker)
    (term p : cstring) :
  session_contract ->
  enchant_broker_init = Some broker ->
  Exists (fun lang => is_Some (enchant_broker_request_dict broker lang)) (listed_langs langs) ->
  term ∈ seed_terms -> take (length term) p = term ->
  Forall (fun d => Forall (fun w => enchant_dict_check d w = 0) seed_terms)
         (spell_dicts (spell_init_broker langs (spell_start true)))
  /\ spell_check_word (spell_init_broker langs (spell_start true)) (Some p) (length term) = true.
Proof.
  intros Hcontract Hinit Hsome Hterm Hp.
  unfold spell_init_broker, spell_init_broker_log. cbn [spell_start have_enchant spell_broker negb].
  rewrite bool_decide_eq_false_2 by (intros [? ?]; discriminate).
  cbn [orb]. rewrite Hinit. cbn [spell_dicts spell_session_ignores].
  pose proof (request_langs_seeded broker (g_strsplit_set (c_str langs) lang_delim) [] []
                Hcontract ltac:(constructor)) as Hseed.
  pose proof (request_langs_some broker (g_strsplit_set (c_str langs) lang_delim) [] []
                Hsome) as Hne.
  destruct (request_langs _ _ _ _) as [dicts requests]. cbn [fst] in Hseed, Hne.
  destruct dicts as [|d dicts]; [congruence|]. cbn [fst spell_dicts].
  split; [exact Hseed|].
  unfold spell_check_word. cbn [have_enchant spell_dicts negb is_nil is_null orb].
  destruct (length term =? 0)%nat; [reflexivity|].
  change (default [] (Some p)) with p.
  destruct ((4 <=? length term)%nat && _); [reflexivity|].
  destruct (negb (g_unichar_isalpha (g_utf8_get_char p))); [reflexivity|].
  cbv zeta. rewrite Hp. destruct (bool_decide _); [reflexivity|].
  cbn [existsb]. pose proof (Forall_inv Hseed) as Hd.
  rewrite Forall_forall in Hd. rewrite (Hd term Hterm). reflexivity.
Qed.

(** X14. Ignoring a word never turns another verdict to "misspelled":
    the session vocabulary behaving as its contract says, every word that
    [spell_check_word] accepts before [spell_ignore_word] it accepts after. *)
Theorem ignoring_never_flags_a_word (st : SpellState) (ignored word : option cstring) (len : nat) :
  session_contract ->
  spell_check_word st word len = true ->
  spell_check_word (spell_ignore_word st ignored) word len = true.
Proof.
  intros [_ Hmono] Hok. unfold spell_ignore_word.
  destruct ignored as [x|]; [|exact Hok].
  destruct (c_str x) as [|c w] eqn:Ex; [exact Hok|].
  revert Hok. unfold spell_check_word.
  cbn [have_enchant spell_dicts spell_session_ignores].
  destruct (have_enchant st) eqn:Ehave; [|intros _; reflexivity].
  cbn [negb andb orb].
  destruct (spell_dicts st) as [|d dicts] eqn:Ed; [intros _; reflexivity|].
  cbn [is_nil negb map orb].
  destruct (is_null word || (len =? 0)%nat); [intros _; reflexivity|].
  destruct ((4 <=? len)%nat && _); [intros _; reflexivity|].
  destruct (negb (g_unichar_isalpha (g_utf8_get_char (default [] word))));
    [intros _; reflexivity|].
  cbv zeta. set (w0 := take len (default [] word)). intros Hok.
  destruct (decide (w0 ∈ spell_session_ignores st)) as [Hin|Hnin].
  - rewrite bool_decide_eq_true_2 by set_solver. reflexivity.
  - rewrite (bool_decide_eq_false_2 _ Hnin) in Hok.
    destruct (bool_decide (w0 ∈ {[c :: w]} ∪ spell_session_ignores st)); [reflexivity|].
    change (enchant_dict_add_to_session d (c :: w) :: map _ dicts)
      with (map (fun dict => enchant_dict_add_to_session dict (c :: w)) (d :: dicts)).
    apply existsb_exists in Hok as (d0 & Hd0in & Hd0).
    apply existsb_exists. exists (enchant_dict_add_to_session d0 (c :: w)).
    split;
      [apply (in_map (fun dict => enchant_dict_add_to_session dict (c :: w))); exact Hd0in|].
    apply Z.eqb_eq in Hd0. apply Z.eqb_eq. apply Hmono. exact Hd0.
Qed.

(** *** Suggestions *)

Lemma uniq_from_elem l : forall seen x,
  x ∈ uniq_from seen l <-> x ∈ l /\ x ∉ seen.
Proof.
  induction l as [|y l IH]; intros seen x; cbn [uniq_from].
  - split; [intros Hx; inversion Hx | intros [Hx _]; inversion Hx].
  - destruct (bool_decide (y ∈ seen)) eqn:E.
    + apply bool_decide_eq_true in E. rewrite IH, elem_of_cons.
      split; [tauto|]. intros [[->|Hx] Hn]; [contradiction | tauto].
    + apply bool_decide_eq_false in E. rewrite !elem_of_cons, IH, elem_of_app.
      rewrite list_elem_of_singleton.
      split.
      * intros [->|[Hx Hn]]; [tauto|]. split; [tauto|]. intros Hs. apply Hn. tauto.
      * intros [[->|Hx] Hn]; [tauto|].
        destruct (decide (x = y)) as [->|Hne]; [tauto|].
        right. split; [exact Hx|]. intros [Hs|Hs]; [contradiction | congruence].
Qed.

(** X15. Every suggestion [spell_get_suggestions] returns is a candidate
    that a loaded dictionary proposed for the word; and when the
    dictionaries propose at most ten different candidates in all, every
    candidate is returned. *)
Theorem suggestions_are_the_dictionaries_candidates (st : SpellState) (w : cstring) (len : nat) :
  (forall s, s ∈ spell_get_suggestions st (Some w) len ->
             exists cands, cands ∈ answers st (take len w) /\ s ∈ cands)
  /\ (have_enchant st = true -> len <> 0%nat ->
      (length (uniq_from [] (concat (answers st (take len w)))) <= 10)%nat ->
      forall cands s, cands ∈ answers st (take len w) -> s ∈ cands ->
                      s ∈ spell_get_suggestions st (Some w) len).
Proof.
  split.
  - intros s Hs.
    destruct (have_enchant st) eqn:Ehave;
      [|unfold spell_get_suggestions in Hs; rewrite Ehave in Hs; inversion Hs].
    destruct len as [|len];
      [unfold spell_get_suggestions in Hs; rewrite Ehave in Hs;
       destruct (spell_dicts st); inversion Hs|].
    rewrite spell_get_suggestions_unfold in Hs by (assumption || discriminate).
    unfold suggest_spec in Hs. apply (subseteq_take 10) in Hs.
    apply uniq_from_elem in Hs as [Hs _].
    apply list_elem_of_In, in_concat in Hs as (cands & Hc & Hin).
    exists cands. split; apply list_elem_of_In; assumption.
  - intros Hhave Hlen Hfew cands s Hc Hs.
    rewrite spell_get_suggestions_unfold by assumption.
    unfold suggest_spec. fold (answers st (take len w)).
    rewrite take_ge by exact Hfew.
    apply uniq_from_elem. split; [|apply not_elem_of_nil].
    apply list_elem_of_In, in_concat. exists cands.
    split; apply list_elem_of_In; assumption.
Qed.

End WithEnchant.

(** *** Evaluation on the sample provider *)

Import Sample.

Lemma sample_session_contract : session_contract.
Proof.
  split.
  - intros d w. cbn. rewrite bool_decide_eq_true_2; [reflexivity|]. left.
  - intros d w w' Hok. cbn in *.
    destruct (bool_decide (w' ∈ session d ++ vocabulary)) eqn:E; [|discriminate Hok].
    apply bool_decide_eq_true in E.
    rewrite bool_decide_eq_true_2; [reflexivity|]. right. exact E.
Qed.

Lemma ignored_word_is_never_flagged_witness :
  spell_check_word (spell_ignore_word (loaded "en") (Some (lit "xyzzy")))
                   (Some (lit "xyzzy plugh")) (length (lit "xyzzy")) = true.
Proof.
  apply (ignored_word_is_never_flagged (loaded "en") (lit "xyzzy") (lit "xyzzy plugh")).
  - repeat constructor.
  - discriminate.
  - reflexivity.
Defined.

Lemma spell_cleanup_is_idempotent_witness :
  spell_cleanup (loaded "en") = spell_start (have_enchant (loaded "en")).
Proof.
  apply (spell_cleanup_is_idempotent (loaded "en")).
  intros Hb. discriminate Hb.
Defined.

Lemma spell_init_broker_once_witness :
  spell_init_broker_log (lit "de") (loaded "en") = (loaded "en", []).
Proof.
  apply (proj2 (spell_init_broker_once (lit "en") (lit "de") (spell_start true))).
  eexists. reflexivity.
Defined.

Lemma spell_find_words_tokenizes_witness :
  tokenized (loaded "en") (c_str (lit "helo, world")) (c_str (lit "helo, world"))
    (spell_find_words (loaded "en") (Some (lit "helo, world"))).
Proof.
  apply (spell_find_words_tokenizes (loaded "en") (lit "helo, world")).
  apply ascii_sequences_inside. rewrite c_str_id; repeat constructor.
Defined.

Lemma listed_dictionaries_accept_the_seed_terms_witness :
  spell_check_word (spell_init_broker (lit "xx, en") (spell_start true))
                   (Some (lit "FlexChat rocks")) (length (lit "FlexChat")) = true.
Proof.
  apply (listed_dictionaries_accept_the_seed_terms
           (lit "xx, en") (tt : @EnchantBroker enchant) (lit "FlexChat")
           (lit "FlexChat rocks")).
  - exact sample_session_contract.
  - reflexivity.
  - apply Exists_cons_tl, Exists_cons_hd. eexists. reflexivity.
  - apply list_elem_of_In. cbn. tauto.
  - reflexivity.
Defined.

Lemma ignoring_never_flags_a_word_witness :
  spell_check_word (spell_ignore_word (loaded "en") (Some (lit "xyzzy")))
                   (Some (lit "hello")) 5 = true.
Proof.
  apply ignoring_never_flags_a_word.
  - exact sample_session_contract.
  - vm_compute. reflexivity.
Defined.

Lemma suggestions_are_the_dictionaries_candidates_witness :
  lit "held" ∈ spell_get_suggestions (loaded "en") (Some (lit "helo")) 4.
Proof.
  apply (proj2 (suggestions_are_the_dictionaries_candidates (loaded "en") (lit "helo") 4))
    with (cands := candidates).
  - reflexivity.
  - discriminate.
  - vm_compute. lia.
  - apply list_elem_of_In. vm_compute. auto.
  - apply list_elem_of_In. vm_compute. auto 10.
Defined.

End SpellExtra.

(** ** More on the palette store *)

Module PaletteExtra.
Import Palette PaletteMore PaletteClaims.

(** *** Reading any file *)

Lemma fgets_take_consumes n : forall file line rest,
  fgets_take (S n) file = (line, rest) -> file <> [] ->
  (length rest < length file)%nat.
Proof.
  induction n as [|n IH]; intros file line rest H Hne.
  - destruct file as [|c file]; [congruence|]. cbn [fgets_take] in H.
    destruct (is_char 10 c).
    + injection H as _ <-. simpl. lia.
    + destruct file; injection H as _ <-; simpl; lia.
  - destruct file as [|c file]; [congruence|].
    change (fgets_take (S (S n)) (c :: file))
      with (if is_char 10 c then ([c], file)
            else let '(l, r) := fgets_take (S n) file in (c :: l, r)) in H.
    destruct (is_char 10 c).
    + injection H as _ <-. simpl. lia.
    + destruct file as [|c' file'].
      * cbn in H. injection H as _ <-. simpl. lia.
      * destruct (fgets_take (S n) (c' :: file')) as [l r] eqn:E.
        injection H as _ <-. apply IH in E; [|discriminate]. simpl in *. lia.
Qed.

Lemma load_line_frame line colors :
  length (load_line line colors) = length colors
  /\ (forall i, (Z.to_nat MAX_COL < i)%nat -> load_line line colors !! i = colors !! i).
Proof.
  unfold load_line.
  destruct (sscanf_color (c_str line)) as [[[[idx rr] gg] bb]|]; [|auto].
  set (idx' := if 256 <=? idx then 32 + (idx - 256) else idx).
  destruct ((0 <=? idx') && (idx' <=? MAX_COL)) eqn:E; [|auto].
  apply andb_prop in E as [E1 E2]. apply Z.leb_le in E1, E2.
  split; [apply length_insert|].
  intros i Hi. apply list_lookup_insert_ne. lia.
Qed.

Lemma load_loop_frame fuel : forall file colors,
  (length file < fuel)%nat ->
  exists result,
    load_loop fuel file colors = Some result
    /\ length result = length colors
    /\ (forall i, (Z.to_nat MAX_COL < i)%nat -> result !! i = colors !! i).
Proof.
  induction fuel as [|fuel IH]; intros file colors Hlen; [lia|].
  cbn [load_loop]. destruct file as [|c file].
  - exists colors. auto.
  - unfold fgets. change (256 - 1)%nat with (S 254).
    destruct (fgets_take (S 254) (c :: file)) as [line rest] eqn:E.
    apply fgets_take_consumes in E; [|discriminate].
    destruct (IH rest (load_line line colors) ltac:(simpl in *; lia))
      as (result & Hr & Hl & Hf).
    destruct (load_line_frame line colors) as [Hl1 Hf1].
    exists result. split; [exact Hr|]. split; [congruence|].
    intros i Hi. rewrite Hf, Hf1 by exact Hi. reflexivity.
Qed.

(** X16. [palette_load] copes with any file: the read loop ends, the
    palette keeps its size, and no entry beyond [MAX_COL] is written,
    whatever the lines hold (keys out of range, negative numbers, long
    lines, bytes that are not text). *)
Theorem palette_load_keeps_the_array (st : PaletteState) (file : list ascii) :
  is_Some (load_loop (S (length file)) file (palette_colors (palette_save_defaults st)))
  /\ length (palette_colors (palette_load st (Some file))) = length (palette_colors st)
  /\ (forall i, (Z.to_nat MAX_COL < i)%nat ->
        palette_colors (palette_load st (Some file)) !! i = palette_colors st !! i).
Proof.
  assert (Hd : palette_colors (palette_save_defaults st) = palette_colors st)
    by (unfold palette_save_defaults; destruct (palette_defaults_saved st); reflexivity).
  destruct (load_loop_frame (S (length file)) file (palette_colors st) ltac:(lia))
    as (result & Hr & Hl & Hf).
  unfold palette_load. cbn [palette_colors]. unfold palette_load_text.
  rewrite Hd, Hr. cbn [default]. split; [eexists; reflexivity|]. split; assumption.
Qed.

Lemma palette_load_keeps_the_array_witness :
  length (palette_colors
            (palette_load palette_start (Some (lit "color_999 = 1 2 3 and more"))))
  = length (palette_colors palette_start).
Proof.
  exact (proj1 (proj2 (palette_load_keeps_the_array palette_start
                         (lit "color_999 = 1 2 3 and more")))).
Defined.

(** *** Set and get *)

(** X17. [palette_set_color] and [palette_get_fl_color] agree: on a
    palette of [MAX_COL + 1] entries, a colour set at an index in range is
    the colour got at that index and no other index changes; an index out of
    range sets nothing and gets the foreground colour. *)
Theorem palette_set_then_get (st : PaletteState) (i j : Z) (r g b : ascii) :
  length (palette_colors st) = 42%nat ->
  (0 <= i <= MAX_COL ->
   palette_get_fl_color i (palette_set_color i r g b st) = fl_rgb_color r g b
   /\ (i <> j -> palette_get_fl_color j (palette_set_color i r g b st)
                 = palette_get_fl_color j st))
  /\ (i < 0 \/ MAX_COL < i ->
      palette_set_color i r g b st = st
      /\ palette_get_fl_color i st = FL_FOREGROUND_COLOR).
Proof.
  intros Hlen. unfold palette_get_fl_color, palette_set_color, MAX_COL. split.
  - intros Hi.
    replace ((i <? 0) || (41 <? i)) with false
      by (symmetry; apply orb_false_intro; apply Z.ltb_ge; lia).
    cbn [palette_colors]. split.
    + unfold color_at. rewrite nth_lookup, list_lookup_insert_eq by lia. reflexivity.
    + intros Hij. destruct ((j <? 0) || (41 <? j)) eqn:Ej; [reflexivity|].
      apply orb_false_elim in Ej as [E1 E2]. apply Z.ltb_ge in E1, E2.
      unfold color_at. rewrite !nth_lookup, list_lookup_insert_ne by lia. reflexivity.
  - intros Hi.
    replace ((i <? 0) || (41 <? i)) with true; [split; reflexivity|].
    symmetry. apply orb_true_iff. rewrite !Z.ltb_lt. lia.
Qed.

Lemma palette_set_then_get_witness :
  palette_get_fl_color 41 (palette_set_color 41 (chr 1) (chr 2) (chr 3) palette_start)
  = fl_rgb_color (chr 1) (chr 2) (chr 3)
  /\ palette_set_color 42 (chr 1) (chr 2) (chr 3) palette_start = palette_start.
Proof.
  split.
  - apply (palette_set_then_get palette_start 41 0 (chr 1) (chr 2) (chr 3) eq_refl).
    unfold MAX_COL. lia.
  - apply (palette_set_then_get palette_start 42 0 (chr 1) (chr 2) (chr 3) eq_refl).
    right. unfold MAX_COL. lia.
Defined.

(** *** Reset *)

Lemma run_op_backup st o :
  palette_defaults_saved st = true ->
  palette_defaults_saved (run_op st o) = true
  /\ default_palette_colors (run_op st o) = default_palette_colors st.
Proof.
  intros Hs. destruct o as [conf|index r g b|]; cbn [run_op].
  - unfold palette_load, palette_save_defaults. rewrite Hs.
    destruct conf; cbn; auto.
  - unfold palette_set_color. destruct (_ || _); cbn; auto.
  - unfold palette_reset. rewrite Hs. cbn. auto.
Qed.

Lemma run_ops_backup ops : forall st,
  palette_defaults_saved st = true ->
  palette_defaults_saved (run_ops ops st) = true
  /\ default_palette_colors (run_ops ops st) = default_palette_colors st.
Proof.
  induction ops as [|o ops IH]; intros st Hs; [auto|].
  unfold run_ops. cbn [fold_left]. fold (run_ops ops (run_op st o)).
  destruct (run_op_backup st o Hs) as [Hs' Hd'].
  destruct (IH _ Hs') as [Hs'' Hd'']. split; congruence.
Qed.

(** X18. The backup behind [palette_reset] is taken once, by the first
    [palette_load]: whatever loads, sets and resets follow, a reset gives
    back the palette as it was just before that first load. Before any load
    there is no backup and [palette_reset] changes nothing. *)
Theorem palette_reset_restores_first_load (st : PaletteState) (conf : option (list ascii))
    (ops : list PaletteOp) :
  palette_defaults_saved st = false ->
  palette_colors (palette_reset (run_ops ops (palette_load st conf))) = palette_colors st
  /\ palette_reset st = st.
Proof.
  intros Hs. split; [|unfold palette_reset; rewrite Hs; reflexivity].
  assert (Hload : palette_defaults_saved (palette_load st conf) = true
                  /\ default_palette_colors (palette_load st conf) = palette_colors st).
  { unfold palette_load, palette_save_defaults. rewrite Hs. destruct conf; cbn; auto. }
  destruct Hload as [Hl1 Hl2].
  destruct (run_ops_backup ops _ Hl1) as [Hr1 Hr2].
  unfold palette_reset. rewrite Hr1. cbn [palette_colors]. congruence.
Qed.

Lemma palette_reset_restores_first_load_witness :
  palette_colors
    (palette_reset
       (run_ops [OpSet 3 (chr 9) (chr 9) (chr 9); OpLoad None]
          (palette_load palette_start (Some (lit "color_1 = 1 2 3")))))
  = palette_colors palette_start.
Proof.
  apply (palette_reset_restores_first_load palette_start
           (Some (lit "color_1 = 1 2 3"))
           [OpSet 3 (chr 9) (chr 9) (chr 9); OpLoad None]).
  reflexivity.
Defined.

End PaletteExtra.

(** ** The input line, font specifications and user rights *)

Module InputExtra.
Import Palette PaletteClaims InputLine.

(** *** [replace_word_at_mark] *)

Lemma has_prefix_iff pat : forall p,
  Transcoder.has_prefix pat p = true <-> exists rest, p = pat ++ rest.
Proof.
  induction pat as [|a pat IH]; intros p; cbn [Transcoder.has_prefix].
  - split; [intros _; exists p; reflexivity|reflexivity].
  - destruct p as [|c p].
    + split; [discriminate|intros [rest H]; discriminate].
    + destruct (Ascii.eqb a c) eqn:E.
      * apply Ascii.eqb_eq in E as ->. rewrite IH. split.
        -- intros [rest ->]. exists rest. reflexivity.
        -- intros [rest H]. injection H as ->. exists rest. reflexivity.
      * split; [discriminate|]. intros [rest H]. injection H as -> _.
        rewrite Ascii.eqb_refl in E. discriminate.
Qed.

Lemma occurs_at_0 w s : occurs_at w s 0 <-> Transcoder.has_prefix w s = true.
Proof.
  rewrite has_prefix_iff. split.
  - intros (pre & post & -> & Hl). destruct pre; [|discriminate]. exists post. reflexivity.
  - intros [rest ->]. exists [], rest. auto.
Qed.

Lemma occurs_at_S w c s n : occurs_at w (c :: s) (S n) <-> occurs_at w s n.
Proof.
  split.
  - intros (pre & post & H & Hl). destruct pre as [|c' pre]; [discriminate|].
    injection H as -> ->. injection Hl as Hl. exists pre, post. auto.
  - intros (pre & post & -> & Hl). exists (c :: pre), post. simpl. auto.
Qed.

Lemma strstr_unfold hay needle :
  strstr hay needle =
  if Transcoder.has_prefix needle hay then Some 0%nat
  else match hay with
       | [] => None
       | _ :: hay' => match strstr hay' needle with Some n => Some (S n) | None => None end
       end.
Proof. destruct hay; reflexivity. Qed.

Lemma strstr_some needle : forall hay n,
  strstr hay needle = Some n ->
  occurs_at needle hay n /\ forall m, occurs_at needle hay m -> (n <= m)%nat.
Proof.
  induction hay as [|c hay IH]; intros n H; rewrite strstr_unfold in H.
  - destruct (Transcoder.has_prefix needle []) eqn:E; [|discriminate].
    injection H as <-. split; [apply occurs_at_0, E|intros; lia].
  - destruct (Transcoder.has_prefix needle (c :: hay)) eqn:E.
    + injection H as <-. split; [apply occurs_at_0, E|intros; lia].
    + destruct (strstr hay needle) as [n'|] eqn:E'; [|discriminate].
      injection H as <-. destruct (IH n' eq_refl) as [Ho Hmin]. split.
      * apply occurs_at_S, Ho.
      * intros [|m] Hm.
        -- apply occurs_at_0 in Hm. congruence.
        -- apply occurs_at_S, Hmin in Hm. lia.
Qed.

Lemma strstr_none needle : forall hay,
  strstr hay needle = None -> forall m, ~ occurs_at needle hay m.
Proof.
  induction hay as [|c hay IH]; intros H m Hm; rewrite strstr_unfold in H.
  - destruct (Transcoder.has_prefix needle []) eqn:E; [discriminate|].
    destruct Hm as (pre & post & Hs & _).
    destruct pre; [|discriminate]. simpl in Hs.
    assert (Transcoder.has_prefix needle [] = true)
      by (apply has_prefix_iff; exists post; exact Hs).
    congruence.
  - destruct (Transcoder.has_prefix needle (c :: hay)) eqn:E; [discriminate|].
    destruct (strstr hay needle) as [n'|] eqn:E'; [discriminate|].
    destruct m as [|m].
    + apply occurs_at_0 in Hm. congruence.
    + apply occurs_at_S in Hm. exact (IH eq_refl m Hm).
Qed.

(** X19. [replace_word_at_mark] replaces the leftmost occurrence of the
    old word in the input text, wherever the mark is: the text before and
    after that occurrence is kept, the cursor is put behind the new word.
    When the old word does not occur in the text, nothing changes. *)
Theorem replace_word_replaces_leftmost (inp : Input) (old_word new_word : list ascii) :
  no_nul (value inp) -> no_nul old_word -> no_nul new_word ->
  ((forall m, ~ occurs_at old_word (value inp) m) ->
   replace_word_at_mark inp old_word new_word = inp)
  /\ (forall pre post,
        value inp = pre ++ old_word ++ post ->
        (forall m, occurs_at old_word (value inp) m -> (length pre <= m)%nat) ->
        replace_word_at_mark inp old_word new_word
        = mkInput (pre ++ new_word ++ post)
                  (wrap_int (Z.of_nat (length pre) + Z.of_nat (length new_word)))).
Proof.
  intros Hval Hold Hnew. unfold replace_word_at_mark.
  rewrite (c_str_id old_word Hold). split.
  - intros Hnone. destruct (strstr (value inp) old_word) as [n|] eqn:E; [|reflexivity].
    apply strstr_some in E as [Ho _]. destruct (Hnone n Ho).
  - intros pre post Hsplit Hmin.
    destruct (strstr (value inp) old_word) as [n|] eqn:E.
    + apply strstr_some in E as [Ho Hn].
      assert (Hpre : occurs_at old_word (value inp) (length pre))
        by (exists pre, post; auto).
      assert (n = length pre) as -> by (apply Hn in Hpre; apply Hmin in Ho; lia).
      rewrite Hsplit in Hval |- *.
      rewrite take_app_length.
      replace (drop (length pre + length old_word) (pre ++ old_word ++ post)) with post.
      2:{ rewrite app_assoc. symmetry. apply drop_app_length'.
          rewrite length_app. reflexivity. }
      apply Forall_app in Hval as [Hp Hval]. apply Forall_app in Hval as [_ Hq].
      rewrite c_str_id; [reflexivity|].
      apply Forall_app; split; [exact Hp|]. apply Forall_app; split; assumption.
    + exfalso. apply (strstr_none _ _ E (length pre)). exists pre, post. auto.
Qed.

Lemma replace_word_replaces_leftmost_witness :
  replace_word_at_mark (mkInput (lit "a teh or teh") 12) (lit "teh") (lit "the")
  = mkInput (lit "a the or teh") 5.
Proof.
  refine (proj2 (replace_word_replaces_leftmost
                   (mkInput (lit "a teh or teh") 12) (lit "teh") (lit "the") _ _ _)
                (lit "a ") (lit " or teh") eq_refl _).
  - repeat constructor.
  - repeat constructor.
  - repeat constructor.
  - intros m (pre & post & H & <-).
    destruct pre as [|c1 [|c2 pre]]; [discriminate H|discriminate H|simpl; lia].
Defined.

(** *** [parse_font_spec] *)

Lemma pop_spaces_ends s : ends_without_space (pop_spaces s).
Proof.
  induction s as [|c s IH]; intros x; cbn [pop_spaces].
  - discriminate.
  - destruct (pop_spaces s) as [|t ts] eqn:E.
    + destruct (c_isspace c) eqn:Ec; [discriminate|].
      cbn. intros [= <-]. exact Ec.
    + intros H. apply IH. exact H.
Qed.

Lemma pop_spaces_id s : ends_without_space s -> pop_spaces s = s.
Proof.
  induction s as [|c s IH]; intros H; [reflexivity|].
  cbn [pop_spaces]. destruct s as [|c' s'].
  - cbn. rewrite (H c eq_refl). reflexivity.
  - rewrite IH by (intros x Hx; apply H; exact Hx). reflexivity.
Qed.

Lemma find_last_of_none ds : Forall is_digit ds -> find_last_of ds = None.
Proof.
  induction 1 as [|c ds Hc _ IH]; [reflexivity|].
  cbn [find_last_of]. rewrite IH.
  replace (is_char 32 c) with false; [reflexivity|].
  symmetry. apply is_char_false. unfold is_digit in Hc. lia.
Qed.

Lemma find_last_of_app name sp ds :
  is_char 32 sp = true -> Forall is_digit ds ->
  find_last_of (name ++ sp :: ds) = Some (length name).
Proof.
  intros Hsp Hds. induction name as [|c name IH].
  - cbn [app find_last_of length]. rewrite (find_last_of_none ds Hds), Hsp. reflexivity.
  - cbn [app find_last_of length]. rewrite IH. reflexivity.
Qed.

Lemma digits_forallb ds : Forall is_digit ds -> forallb g_ascii_isdigit ds = true.
Proof.
  induction 1 as [|c ds Hc _ IH]; [reflexivity|].
  cbn [forallb]. rewrite IH. unfold g_ascii_isdigit, is_digit in *.
  replace (48 <=? code c) with true by (symmetry; apply Z.leb_le; lia).
  replace (code c <=? 57) with true by (symmetry; apply Z.leb_le; lia).
  reflexivity.
Qed.

Lemma digits_no_nul ds : Forall is_digit ds -> no_nul ds.
Proof.
  intros H. eapply Forall_impl; [exact H|].
  intros c Hc. apply is_char_false. unfold is_digit in Hc. lia.
Qed.

Lemma ends_with_digits l ds :
  ds <> [] -> Forall is_digit ds -> ends_without_space (l ++ ds).
Proof.
  intros Hne Hds c Hc. rewrite last_app in Hc.
  destruct (last ds) as [y|] eqn:E.
  - injection Hc as <-. apply digit_not_space.
    apply last_Some_elem_of in E. rewrite Forall_forall in Hds. apply Hds, E.
  - apply last_None in E. congruence.
Qed.

(** X20. What [parse_font_spec] returns is usable for any input: the
    size is at least 1 and the name does not end in white space. A null or
    empty specification gives the empty name and size 12. *)
Theorem parse_font_spec_result (spec : option (list ascii)) :
  1 <= (parse_font_spec spec).2
  /\ ends_without_space (parse_font_spec spec).1
  /\ (c_str (default [] spec) = [] -> parse_font_spec spec = ([], 12)).
Proof.
  assert (Hfont : forall s0, 1 <= (font_of s0).2 /\ ends_without_space (font_of s0).1).
  { intros s0. unfold font_of.
    destruct (match find_last_of (pop_spaces s0) with
              | Some pos =>
                  if forallb g_ascii_isdigit (drop (S pos) (pop_spaces s0))
                  then (take pos (pop_spaces s0), atoi (c_str (drop (S pos) (pop_spaces s0))))
                  else (pop_spaces s0, 12)
              | None => (pop_spaces s0, 12)
              end) as [s size].
    cbn [fst snd]. split; [|apply pop_spaces_ends].
    destruct (size <=? 0) eqn:E; [lia|]. apply Z.leb_gt in E. lia. }
  unfold parse_font_spec. destruct spec as [p|].
  - change (default [] (Some p)) with p. destruct (c_str p) as [|c s] eqn:E.
    + cbn. split; [lia|]. split; [discriminate|intros _; reflexivity].
    + destruct (Hfont (c :: s)) as [H1 H2]. split; [exact H1|]. split; [exact H2|].
      intros H. discriminate H.
  - cbn. split; [lia|]. split; [discriminate|intros _; reflexivity].
Qed.

Lemma parse_font_spec_result_witness :
  parse_font_spec (Some (lit "")) = ([], 12).
Proof.
  apply (proj2 (proj2 (parse_font_spec_result (Some (lit ""))))). reflexivity.
Defined.

Lemma parse_font_spec_nonempty p :
  c_str p <> [] -> parse_font_spec (Some p) = font_of (c_str p).
Proof. unfold parse_font_spec. destruct (c_str p); [congruence|reflexivity]. Qed.

(** X21. [parse_font_spec] reads back a name followed by a space and a
    size: for a name that does not end in white space (it may hold spaces,
    and may be empty) and a size from 1 to [INT_MAX] printed with [%d], the
    result is that name and that size. *)
Theorem parse_font_spec_name_and_size (name : list ascii) (n : Z) :
  no_nul name -> ends_without_space name -> 1 <= n <= INT_MAX ->
  parse_font_spec (Some (name ++ lit " " ++ print_int n)) = (name, n).
Proof.
  intros Hnul Hend Hn.
  pose proof (scan_int_print n [] ltac:(lia) eq_refl) as Hscan.
  rewrite app_nil_r in Hscan.
  assert (Hds : print_int n <> [] /\ Forall is_digit (print_int n)).
  { unfold print_int. replace (n <? 0) with false by (symmetry; apply Z.ltb_ge; lia).
    destruct (print_nat_spec n ltac:(lia)) as (ds & -> & Hne & Hall & _). auto. }
  destruct Hds as [Hne Hall]. revert Hscan. generalize (print_int n) Hne Hall.
  clear Hne Hall. intros ds Hne Hall Hscan.
  change (lit " " ++ ds) with (chr 32 :: ds).
  assert (Hs0 : c_str (name ++ chr 32 :: ds) = name ++ chr 32 :: ds).
  { apply c_str_id, Forall_app. split; [exact Hnul|].
    constructor; [reflexivity|apply digits_no_nul, Hall]. }
  rewrite parse_font_spec_nonempty by (rewrite Hs0; destruct name; discriminate).
  rewrite Hs0. unfold font_of.
  rewrite pop_spaces_id.
  2:{ change (name ++ chr 32 :: ds) with (name ++ [chr 32] ++ ds).
      rewrite app_assoc. apply ends_with_digits; assumption. }
  rewrite (find_last_of_app name (chr 32) ds eq_refl Hall).
  replace (drop (S (length name)) (name ++ chr 32 :: ds)) with ds.
  2:{ change (name ++ chr 32 :: ds) with (name ++ [chr 32] ++ ds).
      rewrite app_assoc. symmetry. apply drop_app_length'.
      rewrite length_app. simpl. lia. }
  rewrite (digits_forallb ds Hall), take_app_length.
  rewrite (c_str_id ds (digits_no_nul ds Hall)).
  unfold atoi. rewrite Hscan. rewrite (pop_spaces_id name Hend).
  replace (n <=? 0) with false by (symmetry; apply Z.leb_gt; lia).
  reflexivity.
Qed.

Lemma parse_font_spec_name_and_size_witness :
  parse_font_spec (Some (lit "DejaVu Sans Mono 14")) = (lit "DejaVu Sans Mono", 14).
Proof.
  refine (parse_font_spec_name_and_size (lit "DejaVu Sans Mono") 14 _ _ _).
  - repeat constructor.
  - intros c Hc. vm_compute in Hc. injection Hc as <-. reflexivity.
  - unfold INT_MAX. lia.
Defined.

(** *** [sess_can_manage] and [sess_has_voice] *)

(** X22. Whoever may manage a channel may also speak in it:
    [sess_can_manage] implies [sess_has_voice], and neither holds for a
    null session or a session without a user of its own. *)
Theorem manage_implies_voice (sess : option session) :
  (sess_can_manage sess = true -> sess_has_voice sess = true)
  /\ ((sess = None \/ (exists s, sess = Some s /\ me s = None)) ->
      sess_can_manage sess = false /\ sess_has_voice sess = false).
Proof.
  split.
  - unfold sess_can_manage, sess_has_voice.
    destruct sess as [s|]; [|discriminate]. destruct (me s) as [u|]; [|discriminate].
    cbn zeta. intros H.
    repeat (apply orb_prop in H as [H|H]); rewrite H, ?orb_true_r; reflexivity.
  - intros [->|(s & -> & Hme)]; [split; reflexivity|].
    unfold sess_can_manage, sess_has_voice. rewrite Hme. split; reflexivity.
Qed.

Lemma manage_implies_voice_witness :
  sess_has_voice (Some (mkSession (Some (mkUser false false false (lit "%"))))) = true.
Proof.
  apply (manage_implies_voice (Some (mkSession (Some (mkUser false false false (lit "%")))))).
  reflexivity.
Defined.

End InputExtra.
